(** * The economy ledger of the Mikasa WhatsApp bot

    A shallow embedding of [utils/economy-db.js] (the JSON file-backed
    account store) and of [commands/Economy.js] (the command handler:
    earning actions, bonuses, wagers and the owner-only grant), followed by
    the properties of the ledger that the specification states.

    Modelling conventions.
    - JavaScript numbers that hold gold, bets, rewards and millisecond
      timestamps are integers in the code's own paths; they are modelled as
      [Z], and the sums and differences of balances are taken exactly: the
      model agrees with the code while the balances stay in the range
      [JS.safe], where every integer is a double.  [x || 0] on such a number
      is [x] itself.
    - The other numbers are rounded as IEEE 754 binary64 rounds them, to
      the nearest double with ties to even ([JS.nearest]): the integer that
      [parseInt] reads ([JS.number]) and the products of a draw
      ([JS.times]).  A value of [Math.random()] is a double in [0, 1): the
      largest double that does not exceed the rational of the stream
      ([JS.below]).
    - Strings are sequences of bytes; [\d] is [0-9], and [\s] is the ASCII
      white space, which is all of [\s] in a text of ASCII characters
      ([JS.ascii_text]).
    - [Date.now()] and [Math.random()] read an environment: the n-th call
      returns the n-th value of a stream, and the world counts the calls.
    - The store file is a component of the world.  [fs] calls are
      synchronous, so every function of the store runs without interruption;
      the handler is an [async] function and is suspended at each [await].
      Reading the file may fail; writing it succeeds.  A file that parses
      holds [{ users: ... }] with records of the shape [ensureUser] creates.
    - The accounts and the cooldowns are finite maps keyed by strings.  A
      property lookup of JavaScript also finds the members of
      [Object.prototype]: module [obj] gives the reads of the store with
      these, and agrees with the finite maps on every other name
      ([JS.inherited]).
    - The handler is given a [reply] function; the texts it sends are kept
      as one constructor per template with the interpolated values. *)

From Stdlib Require Import ZArith QArith Qround Qpower String Ascii List Lia Lqa.
From stdpp Require Import base gmap strings list.

Set Warnings "-register-all".
Local Open Scope Z_scope.

(** ** JavaScript string primitives used by the commands *)

Module JS.

Definition code (c : ascii) : Z := Z.of_nat (nat_of_ascii c).

(** [\d] *)
Definition is_digit (c : ascii) : bool := (48 <=? code c) && (code c <=? 57).

(** [\s], restricted to ASCII: TAB, LF, VT, FF, CR and SPACE. *)
Definition is_space (c : ascii) : bool :=
  ((9 <=? code c) && (code c <=? 13)) || (code c =? 32).

(** Line terminators, which [.] does not match. *)
Definition is_newline (c : ascii) : bool := (code c =? 10) || (code c =? 13).

Definition lower (c : ascii) : ascii :=
  if (65 <=? code c) && (code c <=? 90)
  then ascii_of_nat (nat_of_ascii c + 32) else c.

Fixpoint filter (p : ascii -> bool) (s : string) : string :=
  match s with
  | EmptyString => EmptyString
  | String c r => if p c then String c (filter p r) else filter p r
  end.

Fixpoint forallb (p : ascii -> bool) (s : string) : bool :=
  match s with
  | EmptyString => true
  | String c r => p c && forallb p r
  end.

Fixpoint existsb (p : ascii -> bool) (s : string) : bool :=
  match s with
  | EmptyString => false
  | String c r => p c || existsb p r
  end.

Fixpoint map (f : ascii -> ascii) (s : string) : string :=
  match s with
  | EmptyString => EmptyString
  | String c r => String (f c) (map f r)
  end.

(** [!s] for a string: only the empty string is falsy. *)
Definition falsy (s : string) : bool :=
  match s with EmptyString => true | _ => false end.

(** [s.toLowerCase()] *)
Definition toLowerCase (s : string) : string := map lower s.

(** [s.trim().split(/\s+/)]: the maximal runs of non-space characters;
    the trimmed empty string splits into one empty part. *)
Fixpoint words_from (cur : string) (s : string) : list string :=
  match s with
  | EmptyString => if falsy cur then [] else [cur]
  | String c r =>
      if is_space c
      then (if falsy cur then words_from EmptyString r
            else cur :: words_from EmptyString r)
      else words_from (cur ++ String c EmptyString) r
  end.

Definition trim_split (s : string) : list string :=
  match words_from EmptyString s with
  | [] => [EmptyString]
  | ws => ws
  end.

(** [s.replace(/^\.+/, '')] *)
Fixpoint strip_dots (s : string) : string :=
  match s with
  | String "."%char r => strip_dots r
  | _ => s
  end.

(** [s.replace(/@.*$/, '')]: the text from the first [@] that no line
    terminator follows is dropped. *)
Fixpoint strip_at (s : string) : string :=
  match s with
  | EmptyString => EmptyString
  | String c r =>
      if Ascii.eqb c "@" && negb (existsb is_newline r)
      then EmptyString
      else String c (strip_at r)
  end.

(** [/\d+@/.test(s)]: some digit is directly followed by [@]. *)
Fixpoint has_digit_at (s : string) : bool :=
  match s with
  | String c (String d _ as r) =>
      (is_digit c && Ascii.eqb d "@") || has_digit_at r
  | _ => false
  end.

(** [/^\d+$/.test(s)] *)
Definition all_digits (s : string) : bool := negb (falsy s) && forallb is_digit s.

(** The value of the longest prefix of decimal digits, and whether that
    prefix is empty. *)
Fixpoint digits_value (acc : Z) (s : string) : Z :=
  match s with
  | String c r => if is_digit c then digits_value (10 * acc + (code c - 48)) r else acc
  | EmptyString => acc
  end.

Definition starts_with_digit (s : string) : bool :=
  match s with String c _ => is_digit c | EmptyString => false end.

Fixpoint skip_spaces (s : string) : string :=
  match s with
  | String c r => if is_space c then skip_spaces r else s
  | EmptyString => s
  end.

Fixpoint drop_trailing_spaces (s : string) : string :=
  match s with
  | String c r =>
      let r' := drop_trailing_spaces r in
      if is_space c && falsy r' then EmptyString else String c r'
  | EmptyString => s
  end.

(** [s.trim()] *)
Definition trim (s : string) : string := drop_trailing_spaces (skip_spaces s).

(** *** Numbers

    A Number is an IEEE 754 double.  The integers up to [2^53] in magnitude
    and the values of [Math.random()] are Numbers; a real number is turned
    into a Number by rounding to the nearest one, ties to the even mantissa.
    Magnitudes stay below [2^1024] in every use here (a larger one stands
    for [Infinity]). *)

(** [2^e] *)
Definition pow2 (e : Z) : Q := Qpower 2 e.

(** The binade of a positive real [q]: the [k] with [2^k <= q < 2^(k+1)]. *)
Definition binade (q : Q) : Z :=
  let k := Z.log2 (Qnum q) - Z.log2 (Zpos (Qden q)) in
  if Qle_bool (pow2 k) q then k else k - 1.

(** The exponent of the unit in the last place of the Numbers around a
    positive [q]: mantissas have 53 bits, and the subnormal Numbers are the
    multiples of [2^-1074]. *)
Definition ulp_exp (q : Q) : Z := Z.max (-1074) (binade q - 52).

(** The nearest integer, a tie going to the even one. *)
Definition round_even (z : Q) : Z :=
  let f := Qfloor z in
  match Qcompare (z - inject_Z f) (1 # 2) with
  | Lt => f
  | Gt => f + 1
  | Eq => if Z.even f then f else f + 1
  end.

(** The Number nearest to a real. *)
Definition nearest (q : Q) : Q :=
  match Qcompare q 0 with
  | Eq => 0%Q
  | Gt => let e := ulp_exp q in
          (inject_Z (round_even (q * pow2 (- e))) * pow2 e)%Q
  | Lt => let e := ulp_exp (- q) in
          (- (inject_Z (round_even (- q * pow2 (- e))) * pow2 e))%Q
  end.

(** The largest Number that is not above a real, for a positive real; [0]
    otherwise. *)
Definition below (q : Q) : Q :=
  match Qcompare q 0 with
  | Gt => let e := ulp_exp q in
          (inject_Z (Qfloor (q * pow2 (- e))) * pow2 e)%Q
  | _ => 0%Q
  end.

(** [x * y] on Numbers: the exact product, rounded. *)
Definition times (x y : Q) : Q := nearest (x * y).

(** The Number of an integer that is written out in decimal digits. *)
Definition number (z : Z) : Z := Qfloor (nearest (inject_Z z)).

(** The integers that are Numbers together with all integers between them
    and [0]: sums, differences and products of integers are exact as long as
    the result is in this range. *)
Definition safe (z : Z) : Prop := - 2 ^ 53 <= z <= 2 ^ 53.

(** [parseInt(s, 10)]; [None] is [NaN]. *)
Definition parseInt (s : string) : option Z :=
  let s := skip_spaces s in
  let '(sign, body) :=
    match s with
    | String "-"%char r => (-1, r)
    | String "+"%char r => (1, r)
    | _ => (1, s)
    end in
  if starts_with_digit body then Some (number (sign * digits_value 0 body)) else None.

(** The names that a plain object inherits from [Object.prototype]: a
    lookup [o[name]] finds the inherited member when [o] has no property
    of that name itself. *)
Definition inherited (name : string) : bool :=
  List.existsb (String.eqb name)
    ["constructor"; "__proto__"; "hasOwnProperty"; "isPrototypeOf";
     "propertyIsEnumerable"; "toLocaleString"; "toString"; "valueOf";
     "__defineGetter__"; "__defineSetter__"; "__lookupGetter__";
     "__lookupSetter__"]%string.

(** The characters of ASCII, and the texts made of them. *)
Definition is_ascii (c : ascii) : bool := code c <? 128.

Definition ascii_text (s : string) : bool := forallb is_ascii s.

(** [Math.ceil(a / b)] for integers [a] and [b > 0]. *)
Definition ceil_div (a b : Z) : Z := - ((- a) / b).

End JS.

Arguments JS.nearest : simpl never.
Arguments JS.below : simpl never.
Arguments JS.times : simpl never.
Arguments JS.number : simpl never.

(** ** The persisted data *)

(** One entry of [history]: [{ time, change }]. *)
Record Entry := { time : Z; change : Z }.

(** One account: [{ gold, cooldowns, history }]. *)
Record User := {
  gold : Z;
  cooldowns : gmap string Z;
  history : list Entry
}.

(** The file [database/economy.json]: missing; present but unreadable
    (reading it throws, writing it succeeds: a file without read
    permission); present but not JSON; or holding [{ users: ... }] with one
    record per user id.  A path that cannot be written (a directory in the
    place of the file, a read-only file system) is outside the model:
    there every call that writes throws. *)
Inductive File :=
| Absent
| Unreadable
| Unparsable
| Stored (users : gmap string User).

(** ** The world and its monad *)

Record World := {
  disk : File;    (* the store file *)
  ticks : nat;    (* calls of Date.now() so far *)
  draws : nat     (* calls of Math.random() so far *)
}.

(** What the handler reads from outside: the clock, the random source and
    the owner list computed from the configuration when the module loads. *)
Record Env := {
  clock : nat -> Z;
  random : nat -> Q;
  OWNER_LIST : list string
}.

Definition M (A : Type) : Type := World -> A * World.

Definition ret {A} (a : A) : M A := fun w => (a, w).

Definition bind {A B} (m : M A) (k : A -> M B) : M B :=
  fun w => let (a, w') := m w in k a w'.

Declare Scope m_scope.
Delimit Scope m_scope with M.
Notation "'let*' x ':=' m 'in' k" := (bind m (fun x => k))
  (at level 10, x pattern, m at level 100, k at level 200, only parsing) : m_scope.
Notation "m1 ';;' m2" := (bind m1 (fun _ => m2))
  (at level 100, m2 at level 200, right associativity, only parsing) : m_scope.
Local Open Scope m_scope.

Definition write_disk (f : File) : M unit :=
  fun w => (tt, {| disk := f; ticks := ticks w; draws := draws w |}).

Definition read_disk : M File := fun w => (disk w, w).

(** [Date.now()] *)
Definition Date_now (env : Env) : M Z :=
  fun w => (clock env (ticks w),
            {| disk := disk w; ticks := S (ticks w); draws := draws w |}).

(** The value of the n-th call of [Math.random()]: the environment supplies
    a real number, and the call returns the largest Number that is not above
    it.  Every Number in [[0, 1)] is returned when the environment supplies
    it. *)
Definition draw (env : Env) (n : nat) : Q := JS.below (random env n).

(** [Math.random()] *)
Definition Math_random (env : Env) : M Q :=
  fun w => (draw env (draws w),
            {| disk := disk w; ticks := ticks w; draws := S (draws w) |}).

(** ** utils/economy-db.js *)

Module db.
Section Store.

Variable env : Env.

Definition ensureDbFile : M unit :=
  let* f := read_disk in
  match f with
  | Absent => write_disk (Stored ∅)
  | _ => ret tt
  end.

(** [load]: a read or parse failure is caught and yields [{ users: {} }]. *)
Definition load : M (gmap string User) :=
  ensureDbFile ;;
  let* f := read_disk in
  match f with
  | Stored users => ret users
  | _ => ret ∅
  end.

Definition save (data : gmap string User) : M unit :=
  ensureDbFile ;;
  write_disk (Stored data).

Definition getUser (userId : string) : M (option User) :=
  let* users := load in
  ret (users !! userId).

Definition fresh : User := {| gold := 0; cooldowns := ∅; history := [] |}.

Definition ensureUser (userId : string) : M User :=
  let* users := load in
  match users !! userId with
  | None => save (<[userId := fresh]> users) ;; ret fresh
  | Some u => ret u
  end.

Definition set (userId : string) (obj : User) : M unit :=
  let* users := load in
  save (<[userId := obj]> users).

Definition add (userId : string) (amount : Z) : M Z :=
  let* u := ensureUser userId in
  let gold' := gold u + amount in
  let* now := Date_now env in
  let u' := {| gold := gold';
               cooldowns := cooldowns u;
               history := history u ++ [{| time := now; change := amount |}] |} in
  set userId u' ;;
  ret (gold u').

Definition remove (userId : string) (amount : Z) : M Z :=
  let* u := ensureUser userId in
  let gold' := Z.max 0 (gold u - amount) in
  let* now := Date_now env in
  let u' := {| gold := gold';
               cooldowns := cooldowns u;
               history := history u ++ [{| time := now; change := - amount |}] |} in
  set userId u' ;;
  ret (gold u').

Definition setCooldown (userId key : string) (timestamp : Z) : M unit :=
  let* u := ensureUser userId in
  let u' := {| gold := gold u;
               cooldowns := <[key := timestamp]> (cooldowns u);
               history := history u |} in
  set userId u'.

Definition getCooldown (userId key : string) : M Z :=
  let* u := ensureUser userId in
  ret (default 0 (cooldowns u !! key)).

Definition canClaim (userId key : string) (ms : Z) : M bool :=
  let* last := getCooldown userId key in
  if last =? 0 then ret true
  else
    let* now := Date_now env in
    ret (ms <=? now - last).

End Store.
End db.

(** *** Lookups as JavaScript makes them

    [db.users] and [cooldowns] are plain objects, so [db.users[userId]] and
    [cooldowns[key]] also find the members of [Object.prototype].  The
    functions of [Module db] take user ids and cooldown keys that name no
    such member (chat identifiers, command names); the functions below read
    the store for every name, and agree with them on those names. *)

Module obj.

(** What [o[name]] finds: a property of the object itself, a member of
    [Object.prototype] (an object or a function, hence truthy), or nothing
    ([undefined]). *)
Inductive Found (A : Type) :=
| Own (a : A)
| Member (name : string)
| Missing.
Arguments Own {A} a.
Arguments Member {A} name.
Arguments Missing {A}.

Definition get {A} (o : gmap string A) (name : string) : Found A :=
  match o !! name with
  | Some a => Own a
  | None => if JS.inherited name then Member name else Missing
  end.

(** [getUser]: [db.users[userId] || null]; [Missing] is [null]. *)
Definition getUser (userId : string) : M (Found User) :=
  let* users := db.load in
  ret (get users userId).

(** [ensureUser]: the account is created when [!db.users[userId]]. *)
Definition ensureUser (userId : string) : M (Found User) :=
  let* users := db.load in
  match get users userId with
  | Missing => db.save (<[userId := db.fresh]> users) ;; ret (Own db.fresh)
  | found => ret found
  end.

(** [getCooldown]: [(u.cooldowns && u.cooldowns[key]) || 0]; a member of
    [Object.prototype] has no [cooldowns]. *)
Definition getCooldown (userId key : string) : M (Found Z) :=
  let* u := ensureUser userId in
  match u with
  | Own u =>
      match get (cooldowns u) key with
      | Own t => ret (Own t)
      | Member m => ret (Member m)
      | Missing => ret (Own 0)
      end
  | _ => ret (Own 0)
  end.

End obj.

(** ** commands/Economy.js *)

(** The texts passed to [reply], one constructor per template, with the
    values the template interpolates. *)
Inductive Symbol := Cherry | Lemon | Bell | Star | Seven.

Inductive Reply :=
| MsgBalance (gold : Z)
| MsgOwnerOnly
| MsgGiveUsage
| MsgInvalidRecipient
| MsgAmountPositive
| MsgGave (amount : Z) (recipient : string)
| MsgTryAgain (wait : Z)
| MsgEarned (reward : Z) (cmd : string)
| MsgWorkAgain (wait : Z)
| MsgWorked (job : string) (reward : Z)
| MsgDailyClaimed (waitH : Z)
| MsgDaily (reward : Z)
| MsgWeeklyClaimed (waitDays : Z)
| MsgWeekly (reward : Z)
| MsgSpecifyBet
| MsgInsufficient (bal : Z)
| MsgSpinLost (bet : Z)
| MsgSpinWin (mult win : Z)
| MsgSlotsJackpot (a b c : option Symbol) (mult win : Z)
| MsgSlotsPair (a b c : option Symbol) (win : Z)
| MsgSlotsNoWin (a b c : option Symbol) (bet : Z)
| MsgRouletteNoPick (wheelNum : Z) (color : string) (bet : Z)
| MsgRouletteExact (wheelNum : Z) (color : string) (win : Z)
| MsgRouletteMissed (wheelNum : Z) (color : string) (bet : Z)
| MsgRouletteWon (wheelNum : Z) (color : string) (mult win : Z)
| MsgRouletteLost (wheelNum : Z) (color : string) (bet : Z)
| MsgHouseWins (bet : Z)
| MsgBeatHouse (win : Z)
| MsgBigWin (win : Z)
| MsgUnknown.

(** How one call of the handler ends: without a reply, with one reply, or
    with a [TypeError] (reading a property of [null]). *)
Inductive Outcome :=
| Silent
| Sent (txt : Reply)
| Threw.

(** An [async] function: it has returned, or it is suspended at an [await]
    and its continuation runs when it is resumed. *)
Inductive Async (R : Type) :=
| Return (r : R)
| Suspend (k : M (Async R)).
Arguments Return {R} r.
Arguments Suspend {R} k.

(** [await e; k]: [e] is evaluated at once, then the function is suspended. *)
Notation "'await' x ':=' m 'in' k" := (bind m (fun x => ret (Suspend k)))
  (at level 10, x pattern, m at level 100, k at level 200, only parsing) : m_scope.

(** The result of [stakeAndCheck]: [{ ok: false, msg }] or [{ ok: true, bal }]. *)
Inductive Check :=
| NotOk (msg : Reply)
| Ok (bal : Z).

Definition MS_HOUR : Z := 3600 * 1000.
Definition MS_DAY : Z := 24 * 3600 * 1000.
Definition MS_WEEK : Z := 7 * 24 * 3600 * 1000.

(** [args[i]]; [None] is [undefined]. *)
Definition arg (args : list string) (i : nat) : option string := nth_error args i.

(** [!a] for [a] a string or [undefined]. *)
Definition missing (a : option string) : bool :=
  match a with
  | None => true
  | Some s => JS.falsy s
  end.

Definition parseUserArg (a : option string) : option string :=
  match a with
  | None => None
  | Some s =>
      if JS.falsy s then None
      else
        let a := JS.trim s in
        if JS.has_digit_at a then Some a
        else
          let digits := JS.filter JS.is_digit a in
          if JS.falsy digits then None
          else Some (digits ++ "@s.whatsapp.net")%string
  end.

Definition parseBet (a : option string) : Z :=
  match a with
  | None => 0
  | Some s =>
      if JS.falsy s then 0
      else
        match JS.parseInt (JS.filter (fun c => JS.is_digit c || Ascii.eqb c "-") s) with
        | None => 0
        | Some num => Z.max 1 num
        end
  end.

Definition symbols : list Symbol := [Cherry; Lemon; Bell; Star; Seven].

(** [a === b] on the values of [symbols[i]]; [None] is [undefined]. *)
Definition Symbol_eqb (a b : option Symbol) : bool :=
  match a, b with
  | Some Cherry, Some Cherry | Some Lemon, Some Lemon | Some Bell, Some Bell
  | Some Star, Some Star | Some Seven, Some Seven | None, None => true
  | _, _ => false
  end.

(** [xs[i]] for a number [i] that holds an integer. *)
Definition index {A} (xs : list A) (i : Z) : option A :=
  if i <? 0 then None else nth_error xs (Z.to_nat i).

(** [x < y] on draws. *)
Definition Qltb (x y : Q) : bool := negb (Qle_bool y x).

Definition jobs : list string := ["miner"; "developer"; "chef"; "driver"; "artist"]%string.

Definition send (txt : Reply) : M (Async Outcome) := ret (Return (Sent txt)).

Section Commands.

Variable env : Env.

(** [Math.floor(Math.random() * (max - min + 1)) + min] *)
Definition rand (min max : Z) : M Z :=
  let* x := Math_random env in
  ret (Qfloor (JS.times x (inject_Z (max - min + 1))) + min).

Definition isOwnerId (userId : string) : bool :=
  if JS.falsy userId then false
  else
    let uid := JS.strip_at userId in
    List.existsb
      (fun o =>
         if JS.falsy o then false
         else
           let ownerId := JS.strip_at o in
           String.eqb ownerId uid || String.eqb ownerId userId)
      (OWNER_LIST env).

Definition stakeAndCheck (userId : string) (bet : Z) : M Check :=
  let* u := db.getUser userId in
  let bal := match u with Some u => gold u | None => 0 end in
  if bet <=? 0 then ret (NotOk MsgSpecifyBet)
  else if bal <? bet then ret (NotOk (MsgInsufficient bal))
  else ret (Ok bal).

(** [.balance] *)
Definition on_balance (userId : string) : M (Async Outcome) :=
  let* u := db.getUser userId in
  match u with
  | Some u => send (MsgBalance (gold u))
  | None => ret (Return Threw)
  end.

(** [.give <userId> <amount>] *)
Definition on_give (userId : string) (args : list string) : M (Async Outcome) :=
  if negb (isOwnerId userId) then send MsgOwnerOnly
  else
    let targetArg := arg args 0 in
    let amountArg := arg args 1 in
    if missing targetArg || missing amountArg then send MsgGiveUsage
    else
      match parseUserArg targetArg with
      | None => send MsgInvalidRecipient
      | Some recipient =>
          match JS.parseInt (default EmptyString amountArg) with
          | None => send MsgAmountPositive
          | Some amount =>
              if (amount =? 0) || (amount <=? 0) then send MsgAmountPositive
              else
                await _ := db.ensureUser recipient in
                db.add env recipient amount ;;
                send (MsgGave amount recipient)
          end
      end.

(** [.dig] and [.fish] *)
Definition on_dig_fish (userId cmd : string) : M (Async Outcome) :=
  let cooldownKey := cmd in
  let cooldownMs := 30 * 60 * 1000 in
  let* ok := db.canClaim env userId cooldownKey cooldownMs in
  if negb ok then
    let* last := db.getCooldown userId cooldownKey in
    let* now := Date_now env in
    let wait := JS.ceil_div (cooldownMs - (now - last)) 60000 in
    send (MsgTryAgain wait)
  else
    let* reward := if String.eqb cmd "dig" then rand 10 60 else rand 8 50 in
    db.add env userId reward ;;
    let* now := Date_now env in
    db.setCooldown userId cooldownKey now ;;
    send (MsgEarned reward cmd).

(** [.work [job]] *)
Definition on_work (userId : string) (args : list string) : M (Async Outcome) :=
  let cooldownKey := "work"%string in
  let cooldownMs := 60 * 60 * 1000 in
  let* ok := db.canClaim env userId cooldownKey cooldownMs in
  if negb ok then
    let* last := db.getCooldown userId cooldownKey in
    let* now := Date_now env in
    let wait := JS.ceil_div (cooldownMs - (now - last)) 60000 in
    send (MsgWorkAgain wait)
  else
    let* job :=
      if missing (arg args 0)
      then (let* i := rand 0 (Z.of_nat (length jobs) - 1) in
            ret (index jobs i))
      else ret (arg args 0) in
    match job with
    | None => ret (Return Threw)
    | Some job =>
        let job' := JS.toLowerCase job in
        let* reward :=
          if String.eqb job' "developer" then rand 150 350
          else if String.eqb job' "miner" then rand 100 300
          else if String.eqb job' "chef" then rand 60 200
          else if String.eqb job' "driver" then rand 50 180
          else if String.eqb job' "artist" then rand 40 150
          else rand 50 200 in
        db.add env userId reward ;;
        let* now := Date_now env in
        db.setCooldown userId cooldownKey now ;;
        send (MsgWorked job reward)
    end.

(** [.daily] *)
Definition on_daily (userId : string) : M (Async Outcome) :=
  let key := "daily"%string in
  let* ok := db.canClaim env userId key MS_DAY in
  if negb ok then
    let* last := db.getCooldown userId key in
    let* now := Date_now env in
    let waitH := JS.ceil_div (MS_DAY - (now - last)) (3600 * 1000) in
    send (MsgDailyClaimed waitH)
  else
    let* reward := rand 150 400 in
    db.add env userId reward ;;
    let* now := Date_now env in
    db.setCooldown userId key now ;;
    send (MsgDaily reward).

(** [.weekly] *)
Definition on_weekly (userId : string) : M (Async Outcome) :=
  let key := "weekly"%string in
  let* ok := db.canClaim env userId key MS_WEEK in
  if negb ok then
    let* last := db.getCooldown userId key in
    let* now := Date_now env in
    let waitDays := JS.ceil_div (MS_WEEK - (now - last)) MS_DAY in
    send (MsgWeeklyClaimed waitDays)
  else
    let* reward := rand 1000 3000 in
    db.add env userId reward ;;
    let* now := Date_now env in
    db.setCooldown userId key now ;;
    send (MsgWeekly reward).

(** [.spin <bet>] *)
Definition on_spin (userId : string) (args : list string) : M (Async Outcome) :=
  let bet := parseBet (arg args 0) in
  await chk := stakeAndCheck userId bet in
  match chk with
  | NotOk msg => send msg
  | Ok _ =>
      let* x := Math_random env in
      let r := JS.times x 100 in
      let mult :=
        if Qltb r 50 then 0
        else if Qltb r 85 then 2
        else if Qltb r 97 then 5
        else 10 in
      if mult =? 0 then
        db.remove env userId bet ;;
        send (MsgSpinLost bet)
      else
        let win := bet * mult in
        db.add env userId win ;;
        send (MsgSpinWin mult win)
  end.

(** [.slots <bet>] *)
Definition on_slots (userId : string) (args : list string) : M (Async Outcome) :=
  let bet := parseBet (arg args 0) in
  await chk := stakeAndCheck userId bet in
  match chk with
  | NotOk msg => send msg
  | Ok _ =>
      let* i := rand 0 (Z.of_nat (length symbols) - 1) in
      let a := index symbols i in
      let* j := rand 0 (Z.of_nat (length symbols) - 1) in
      let b := index symbols j in
      let* k := rand 0 (Z.of_nat (length symbols) - 1) in
      let c := index symbols k in
      if Symbol_eqb a b && Symbol_eqb b c then
        let mult := if Symbol_eqb a (Some Seven) then 10 else 5 in
        let win := bet * mult in
        db.add env userId win ;;
        send (MsgSlotsJackpot a b c mult win)
      else if Symbol_eqb a b || Symbol_eqb b c || Symbol_eqb a c then
        let win := bet * 2 in
        db.add env userId win ;;
        send (MsgSlotsPair a b c win)
      else
        db.remove env userId bet ;;
        send (MsgSlotsNoWin a b c bet)
  end.

(** The colour of a wheel number. *)
Definition wheel_color (wheelNum : Z) : string :=
  if wheelNum =? 0 then "green"
  else if wheelNum mod 2 =? 0 then "black" else "red".

(** [.roulette <bet> <color|number>] *)
Definition on_roulette (userId : string) (args : list string) : M (Async Outcome) :=
  let bet := parseBet (arg args 0) in
  let pick := JS.toLowerCase (default EmptyString (arg args 1)) in
  await chk := stakeAndCheck userId bet in
  match chk with
  | NotOk msg => send msg
  | Ok _ =>
      let* wheelNum := rand 0 36 in
      let color := wheel_color wheelNum in
      if JS.falsy pick then
        db.remove env userId bet ;;
        send (MsgRouletteNoPick wheelNum color bet)
      else if JS.all_digits pick then
        let pickNum := JS.parseInt pick in
        if match pickNum with Some n => n =? wheelNum | None => false end then
          let win := bet * 36 in
          db.add env userId win ;;
          send (MsgRouletteExact wheelNum color win)
        else
          db.remove env userId bet ;;
          send (MsgRouletteMissed wheelNum color bet)
      else
        if String.eqb pick color then
          let mult := if String.eqb color "green" then 14 else 2 in
          let win := bet * mult in
          db.add env userId win ;;
          send (MsgRouletteWon wheelNum color mult win)
        else
          db.remove env userId bet ;;
          send (MsgRouletteLost wheelNum color bet)
  end.

(** [.casino <bet>] *)
Definition on_casino (userId : string) (args : list string) : M (Async Outcome) :=
  let bet := parseBet (arg args 0) in
  await chk := stakeAndCheck userId bet in
  match chk with
  | NotOk msg => send msg
  | Ok _ =>
      let* x := Math_random env in
      let r := JS.times x 100 in
      if Qltb r 45 then
        db.remove env userId bet ;;
        send (MsgHouseWins bet)
      else if Qltb r 85 then
        let win := bet * 2 in
        db.add env userId win ;;
        send (MsgBeatHouse win)
      else
        let win := bet * 5 in
        db.add env userId win ;;
        send (MsgBigWin win)
  end.

(** The command after [parts[0]] lost its leading dots and its case, and
    its arguments. *)
Definition dispatch (userId cmd : string) (args : list string) : M (Async Outcome) :=
  if String.eqb cmd "balance" || String.eqb cmd "bal" then on_balance userId
  else if String.eqb cmd "give" || String.eqb cmd "grant" then on_give userId args
  else if String.eqb cmd "dig" || String.eqb cmd "fish" then on_dig_fish userId cmd
  else if String.eqb cmd "work" then on_work userId args
  else if String.eqb cmd "daily" then on_daily userId
  else if String.eqb cmd "weekly" then on_weekly userId
  else if String.eqb cmd "spin" then on_spin userId args
  else if String.eqb cmd "slots" then on_slots userId args
  else if String.eqb cmd "roulette" then on_roulette userId args
  else if String.eqb cmd "casino" then on_casino userId args
  else send MsgUnknown.

(** [handler({ messageText, userId, reply })] *)
Definition handler (messageText userId : string) : M (Async Outcome) :=
  if JS.falsy messageText || JS.falsy userId then ret (Return Silent)
  else
    let parts := JS.trim_split messageText in
    let cmd := JS.toLowerCase (JS.strip_dots (hd EmptyString parts)) in
    let args := tl parts in
    await _ := db.ensureUser userId in
    dispatch userId cmd args.

End Commands.

(** ** Running asynchronous calls *)

(** One call that nothing interrupts: each suspension is resumed at once. *)
Fixpoint resume {R} (t : Async R) (w : World) : R * World :=
  match t with
  | Return r => (r, w)
  | Suspend k => let (t', w') := k w in resume t' w'
  end.

Definition complete {R} (m : M (Async R)) : M R :=
  fun w => let (t, w') := m w in resume t w'.

(** ** Views of the store used in the statements *)

(** The accounts a [load] sees in a file. *)
Definition users_of (f : File) : gmap string User :=
  match f with
  | Stored users => users
  | _ => ∅
  end.

(** The file after [ensureDbFile]. *)
Definition created (f : File) : File :=
  match f with
  | Absent => Stored ∅
  | _ => f
  end.

(** The account of [id] as [ensureUser] returns it. *)
Definition acct (users : gmap string User) (id : string) : User :=
  default db.fresh (users !! id).

(** The accounts after [ensureUser id]. *)
Definition touch (id : string) (users : gmap string User) : gmap string User :=
  match users !! id with
  | Some _ => users
  | None => <[id := db.fresh]> users
  end.

(** An account after one balance change was written. *)
Definition posted (u : User) (g now c : Z) : User :=
  {| gold := g;
     cooldowns := cooldowns u;
     history := history u ++ [{| time := now; change := c |}] |}.

(** An account after one cooldown was written. *)
Definition stamped (u : User) (key : string) (timestamp : Z) : User :=
  {| gold := gold u;
     cooldowns := <[key := timestamp]> (cooldowns u);
     history := history u |}.

(** The world with another file, after one more reading of the clock, and
    after one more draw. *)
Definition with_disk (f : File) (w : World) : World :=
  {| disk := f; ticks := ticks w; draws := draws w |}.

Definition ticked (w : World) : World :=
  {| disk := disk w; ticks := S (ticks w); draws := draws w |}.

Definition drawn (w : World) : World :=
  {| disk := disk w; ticks := ticks w; draws := S (draws w) |}.

(** The sum of the recorded changes of a history. *)
Definition replay (h : list Entry) : Z := fold_right (fun e s => change e + s) 0 h.

(** ** Invariants of the accounts and triples on the store view *)

(** [Math.random()] returns a number in [[0, 1)]. *)
Definition unit_draws (env : Env) : Prop :=
  ∀ n, (0 <= random env n)%Q ∧ (random env n < 1)%Q.

(** A property of every stored account. *)
Definition Inv (I : User → Prop) (users : gmap string User) : Prop :=
  ∀ id u, users !! id = Some u → I u.

(** Properties of one account that each write of the ledger keeps: account
    creation, a credit of a non-negative amount, a debit of a non-negative
    amount that the balance covers, and a cooldown stamp. *)
Class AccountInv (I : User → Prop) : Prop := {
  inv_fresh : I db.fresh;
  inv_credit u a t : I u → 0 <= a → I (posted u (gold u + a) t a);
  inv_debit u a t : I u → 0 <= a <= gold u → I (posted u (Z.max 0 (gold u - a)) t (- a));
  inv_stamp u key t : I u → I (stamped u key t)
}.

(** The balance is not negative. *)
Definition solvent (u : User) : Prop := 0 <= gold u.

(** The history replays to the balance. *)
Definition balanced (u : User) : Prop := replay (history u) = gold u.

(** The triple of a computation on the accounts that [load] sees: from a
    world whose accounts satisfy [P], the result and the accounts of the
    world that [m] leaves satisfy [Q]. *)
Definition hoare {A} (P : gmap string User → Prop) (m : M A)
    (Q : A → gmap string User → Prop) : Prop :=
  ∀ w, P (users_of (disk w)) → Q (m w).1 (users_of (disk (m w).2)).

(** After an accepted check the stake is positive and covered. *)
Definition staked (I : User → Prop) (id : string) (bet : Z) (users : gmap string User) : Prop :=
  Inv I users ∧ 0 < bet ∧ bet <= gold (acct users id).

(** ** Sequences of operations *)

(** A call of one function of the store, as [module.exports] offers them. *)
Inductive Call :=
| CallGetUser (userId : string)
| CallEnsureUser (userId : string)
| CallAdd (userId : string) (amount : Z)
| CallRemove (userId : string) (amount : Z)
| CallSetCooldown (userId key : string) (timestamp : Z)
| CallGetCooldown (userId key : string)
| CallCanClaim (userId key : string) (ms : Z).

(** What a call returns. *)
Inductive Value :=
| VUndefined
| VUser (u : option User)
| VNumber (n : Z)
| VBool (b : bool)
| VOutcome (o : Outcome).

Definition call (env : Env) (c : Call) : M Value :=
  match c with
  | CallGetUser id => let* u := db.getUser id in ret (VUser u)
  | CallEnsureUser id => let* u := db.ensureUser id in ret (VUser (Some u))
  | CallAdd id amount => let* g := db.add env id amount in ret (VNumber g)
  | CallRemove id amount => let* g := db.remove env id amount in ret (VNumber g)
  | CallSetCooldown id key t => db.setCooldown id key t ;; ret VUndefined
  | CallGetCooldown id key => let* t := db.getCooldown id key in ret (VNumber t)
  | CallCanClaim id key ms => let* b := db.canClaim env id key ms in ret (VBool b)
  end.

(** One operation on the ledger: a direct call of the store, or one message
    handled to its end. *)
Inductive Op :=
| Direct (c : Call)
| Command (messageText userId : string).

Definition perform (env : Env) (op : Op) : M Value :=
  match op with
  | Direct c => call env c
  | Command messageText userId =>
      let* o := complete (handler env messageText userId) in ret (VOutcome o)
  end.

(** The world after a sequence of operations. *)
Fixpoint perform_all (env : Env) (ops : list Op) (w : World) : World :=
  match ops with
  | [] => w
  | op :: ops' => perform_all env ops' (perform env op w).2
  end.

(** The account a call works on, when it writes the store. *)
Definition target (c : Call) : option string :=
  match c with
  | CallGetUser _ => None
  | CallEnsureUser id | CallAdd id _ | CallRemove id _
  | CallSetCooldown id _ _ | CallGetCooldown id _ | CallCanClaim id _ _ => Some id
  end.

(** The user id and the cooldown key of a call name no member of
    [Object.prototype]. *)
Definition ordinary (c : Call) : Prop :=
  match c with
  | CallGetUser id | CallEnsureUser id | CallAdd id _ | CallRemove id _ =>
      JS.inherited id = false
  | CallSetCooldown id key _ | CallGetCooldown id key | CallCanClaim id key _ =>
      JS.inherited id = false ∧ JS.inherited key = false
  end.

(** The direct credits and debits of a sequence ask for amounts that are
    not negative. *)
Definition plain_amount (op : Op) : Prop :=
  match op with
  | Direct (CallAdd _ amount) | Direct (CallRemove _ amount) => 0 <= amount
  | _ => True
  end.

(** No direct debit of the sequence asks for more than the balance holds
    when it runs. *)
Fixpoint covered (env : Env) (ops : list Op) (w : World) : Prop :=
  match ops with
  | [] => True
  | op :: ops' =>
      match op with
      | Direct (CallRemove id amount) => amount <= gold (acct (users_of (disk w)) id)
      | _ => True
      end ∧ covered env ops' (perform env op w).2
  end.

(** The file could not be loaded. *)
Definition failed (f : File) : bool :=
  match f with
  | Stored _ => false
  | _ => true
  end.

(** A clock that starts at a positive time and advances by one millisecond
    per reading, a constant random source and one owner: an environment for
    the worked examples. *)
Definition sample_env (x : Q) : Env :=
  {| clock := fun n => 1700000000000 + Z.of_nat n;
     random := fun _ => x;
     OWNER_LIST := ["15550001111"%string] |}.

Definition new_world : World := {| disk := Absent; ticks := 0; draws := 0 |}.

(** A world whose store holds one account, of [id], with [g] gold. *)
Definition world_with (id : string) (g : Z) : World :=
  {| disk := Stored {[ id := {| gold := g; cooldowns := ∅; history := [] |} ]};
     ticks := 0; draws := 0 |}.

(** What one operation needs to keep an invariant of the accounts. *)
Definition admissible (op : Op) (users : gmap string User) : Prop :=
  match op with
  | Direct (CallAdd _ amount) => 0 <= amount
  | Direct (CallRemove id amount) => 0 <= amount <= gold (acct users id)
  | _ => True
  end.

(** ** One message handled alone *)

(** The command word and the arguments the handler reads from a message. *)
Definition command_of (messageText : string) : string * list string :=
  let parts := JS.trim_split messageText in
  (JS.toLowerCase (JS.strip_dots (hd EmptyString parts)), tl parts).

(** The replies that decline a wager. *)
Definition is_decline (txt : Reply) : bool :=
  match txt with
  | MsgSpecifyBet | MsgInsufficient _ => true
  | _ => false
  end.

Definition wagers : list string := ["spin"; "slots"; "roulette"; "casino"]%string.

(** The replies that report a lost wager of [bet]. *)
Definition lost (bet : Z) (txt : Reply) : bool :=
  match txt with
  | MsgSpinLost b | MsgSlotsNoWin _ _ _ b | MsgRouletteNoPick _ _ b
  | MsgRouletteMissed _ _ b | MsgRouletteLost _ _ b | MsgHouseWins b => b =? bet
  | _ => false
  end.

(** The last stretch of a wager, from the passed check to the return: it
    ends with one reply and has written one change of the balance.  Either
    the reply reports the lost bet, and the bet was debited with the balance
    clamped at zero; or the reply reports no loss, and an amount that is not
    negative was credited. *)
Definition finished (env : Env) (id : string) (bet : Z) (w : World)
    (res : Async Outcome * World) : Prop :=
  let u := acct (users_of (disk w)) id in
  ∃ txt,
    res.1 = Return (Sent txt) ∧
    ((lost bet txt = true ∧
      users_of (disk res.2)
      = <[id := posted u (Z.max 0 (gold u - bet)) (clock env (ticks w)) (- bet)]>
          (users_of (disk w))) ∨
     (lost bet txt = false ∧
      ∃ win, 0 <= win ∧
        users_of (disk res.2)
        = <[id := posted u (gold u + win) (clock env (ticks w)) win]> (users_of (disk w)))).

(** A wager was settled against the account of [id]: one reply that is
    not a decline, and one change [d] of the balance, recorded as such:
    the bet lost, or a multiple of the bet won. *)
Definition settles (env : Env) (id : string) (bet : Z) (w : World) (res : Outcome * World) : Prop :=
  let u := acct (users_of (disk w)) id in
  ∃ txt d,
    res.1 = Sent txt ∧ is_decline txt = false ∧
    (d = - bet ∨ ∃ mult, 2 <= mult ∧ d = bet * mult) ∧
    users_of (disk res.2)
    = <[id := posted u (gold u + d) (clock env (ticks w)) d]> (users_of (disk w)).

(** The period of each earning command and the unit its remaining wait is
    reported in, both in milliseconds: [dig] and [fish] 30 minutes and [work]
    one hour, in minutes; [daily] one day, in hours; [weekly] one week, in
    days. *)
Definition cooldown_of (cmd : string) : option (Z * Z) :=
  if String.eqb cmd "dig" || String.eqb cmd "fish" then Some (30 * 60 * 1000, 60000)
  else if String.eqb cmd "work" then Some (60 * 60 * 1000, 60000)
  else if String.eqb cmd "daily" then Some (MS_DAY, 3600 * 1000)
  else if String.eqb cmd "weekly" then Some (MS_WEEK, MS_DAY)
  else None.

(** The reply that reports the remaining wait of a command. *)
Definition wait_reply (cmd : string) (wait : Z) : Reply :=
  if String.eqb cmd "work" then MsgWorkAgain wait
  else if String.eqb cmd "daily" then MsgDailyClaimed wait
  else if String.eqb cmd "weekly" then MsgWeeklyClaimed wait
  else MsgTryAgain wait.

(** The replies that grant an earning. *)
Definition is_grant (txt : Reply) : bool :=
  match txt with
  | MsgEarned _ _ | MsgWorked _ _ | MsgDaily _ | MsgWeekly _ => true
  | _ => false
  end.

(** A claim was granted to the account of [id]: one granting reply, a
    positive reward credited and recorded, and the cooldown of [key]
    stamped with a reading of the clock. *)
Definition granted (env : Env) (id key : string) (users : gmap string User) (res : Outcome * World) : Prop :=
  let u := acct users id in
  ∃ reward txt i j,
    res.1 = Sent txt ∧ is_grant txt = true ∧ 0 < reward ∧
    users_of (disk res.2)
    = <[id := stamped (posted u (gold u + reward) (clock env i) reward)
                key (clock env j)]> users.

(** The number [parseBet] reads in the bet argument: the integer that
    [parseInt] finds in its digits and minus signs; [None] when the
    argument is missing or holds no such integer. *)
Definition bet_number (a : option string) : option Z :=
  match a with
  | None => None
  | Some s =>
      if JS.falsy s then None
      else JS.parseInt (JS.filter (fun c => JS.is_digit c || Ascii.eqb c "-") s)
  end.

(** ** Calls in flight together *)

(** The calls in flight share the world.  Resuming call [i] runs it up to
    its next [await] or to its return; a call that has returned, or an index
    without a call, changes nothing. *)
Definition resume_one {R} (i : nat) (st : list (Async R) * World) : list (Async R) * World :=
  match st.1 !! i with
  | Some (Suspend k) => let (t, w') := k st.2 in (<[i := t]> st.1, w')
  | _ => st
  end.

(** The calls and the world after the calls were resumed in the order of a
    schedule. *)
Definition interleave {R} (sched : list nat) (st : list (Async R) * World)
    : list (Async R) * World :=
  foldl (fun st i => resume_one i st) st sched.

Definition returned {R} (t : Async R) : bool :=
  match t with
  | Return _ => true
  | Suspend _ => false
  end.

Definition all_returned {R} (pool : list (Async R)) : bool := forallb returned pool.

(** A call that was made and has not run yet. *)
Definition called {R} (m : M (Async R)) : Async R := Suspend m.

(** The wagers that one draw below 45 loses. *)
Definition one_draw_wagers : list string := ["spin"; "casino"]%string.

(** A call that has returned with the report of a lost wager of [bet]. *)
Definition lost_call (bet : Z) (t : Async Outcome) : bool :=
  match t with
  | Return (Sent txt) => lost bet txt
  | _ => false
  end.

(** How far the call of a wager of [b] by [userId] has come, and the change
    that it has made to the balance.  The phases are 0 called, 1 after
    [ensureUser], 2 after the check, 3 returned.  The change is 0 until the
    call returns and when the bet was refused, [- b] when the bet was lost,
    and the amount won otherwise. *)
Inductive stage (env : Env) (userId : string) (b : Z) : Z → nat → Async Outcome → Prop :=
| stage_called messageText :
    In (command_of messageText).1 wagers →
    parseBet (arg (command_of messageText).2 0) = b →
    stage env userId b 0 0 (Suspend (handler env messageText userId))
| stage_ensured cmd args :
    In cmd wagers → parseBet (arg args 0) = b →
    stage env userId b 0 1 (Suspend (dispatch env userId cmd args))
| stage_refused msg :
    lost b msg = false →
    stage env userId b 0 2 (Suspend (send msg))
| stage_accepted (k : M (Async Outcome)) :
    0 < b → (∀ w, finished env userId b w (k w)) →
    stage env userId b 0 2 (Suspend k)
| stage_lost txt :
    0 < b → lost b txt = true →
    stage env userId b (- b) 3 (Return (Sent txt))
| stage_won txt win :
    lost b txt = false → 0 <= win →
    stage env userId b win 3 (Return (Sent txt)).

(** The phases after call [i] was resumed. *)
Definition advance (i : nat) (phs : list nat) : list nat :=
  match phs !! i with
  | Some n => <[i := Nat.min 3 (S n)]> phs
  | None => phs
  end.

(** The number of calls that have returned. *)
Fixpoint done_count (phs : list nat) : Z :=
  match phs with
  | [] => 0
  | n :: phs' => (if Nat.eqb n 3 then 1 else 0) + done_count phs'
  end.

(** The sum of the changes that the calls have made. *)
Definition total (info : list (Z * nat)) : Z := fold_right (fun x s => x.1 + s) 0 info.

(** [N] calls of wagers of [b] by [userId] in flight on a balance that was
    [B]: each call is at the stage that [info] gives for it, the balance is
    [B] and the changes made, and each call that has returned has taken
    [b] at most. *)
Definition tally (env : Env) (userId : string) (b B : Z) (N : nat)
    (info : list (Z * nat)) (st : list (Async Outcome) * World) : Prop :=
  Forall2 (fun x t => stage env userId b x.1 x.2 t) info st.1 ∧
  length info = N ∧
  gold (acct (users_of (disk st.2)) userId) = B + total info ∧
  (0 < b → - b * done_count info.*2 <= total info).


(** ** Further definitions for the statements *)

(** One message changed the balance of [id] by [d], recorded the change in
    the history at the clock's reading, and was answered with [txt]. *)
Definition applied (env : Env) (id : string) (w : World) (res : Outcome * World)
    (d : Z) (txt : Reply) : Prop :=
  let u := acct (users_of (disk w)) id in
  res.1 = Sent txt ∧
  users_of (disk res.2)
  = <[id := posted u (gold u + d) (clock env (ticks w)) d]> (users_of (disk w)).

(** The command words the handler acts on. *)
Definition known_commands : list string :=
  ["balance"; "bal"; "give"; "grant"; "dig"; "fish"; "work"; "daily"; "weekly";
   "spin"; "slots"; "roulette"; "casino"]%string.

(** The symbol a draw of the slot machine shows. *)
Definition slot (x : Q) : option Symbol := index symbols (Qfloor (JS.times x 5) + 0).

(** A character that is no white space, and one that is no [@]. *)
Definition not_space (c : ascii) : bool := negb (JS.is_space c).

Definition not_at (c : ascii) : bool := negb (Ascii.eqb c "@").

(** The parts of a message joined without a separator. *)
Definition joined (parts : list string) : string := fold_right String.append EmptyString parts.

(** ** The writes of the ledger *)

(** One write to the accounts, on an account that [W] allows: the account is
    created as [ensureUser] creates it; a non-negative amount is credited
    and recorded; a non-negative amount is debited, with the balance clamped
    at zero, and recorded; a cooldown is stamped. *)
Inductive write (W : string → Prop) : gmap string User → gmap string User → Prop :=
| write_touch id users :
    W id → write W users (touch id users)
| write_credit id amount now users :
    W id → 0 <= amount →
    write W users
      (<[id := posted (acct users id) (gold (acct users id) + amount) now amount]> users)
| write_debit id amount now users :
    W id → 0 <= amount →
    write W users
      (<[id := posted (acct users id) (Z.max 0 (gold (acct users id) - amount)) now
                 (- amount)]> users)
| write_stamp id key timestamp users :
    W id → write W users (<[id := stamped (acct users id) key timestamp]> users).

(** Any number of writes, one after the other. *)
Definition writes (W : string → Prop) : relation (gmap string User) := rtc (write W).

(** The balance after one recorded change was applied to it: a credit is
    added, a debit is taken with the balance clamped at zero. *)
Definition settle (g : Z) (e : Entry) : Z :=
  if change e <? 0 then Z.max 0 (g + change e) else g + change e.

(** The accounts [users'] continue the accounts [users]: every history is
    the old one followed by new entries, and every balance is the old one
    after the new entries were applied to it one after the other, in the
    order of the history. *)
Definition continues (users users' : gmap string User) : Prop :=
  ∀ id, ∃ new,
    history (acct users' id) = history (acct users id) ++ new ∧
    gold (acct users' id) = fold_left settle new (gold (acct users id)).

(** A computation that, run where [userId] has an account, changes the
    accounts by writes that [W] allows only, and returns a result in [Q]. *)
Definition acts {A} (W : string → Prop) (userId : string) (m : M A) (Q : A → Prop) : Prop :=
  ∀ w, is_Some (users_of (disk w) !! userId) →
       writes W (users_of (disk w)) (users_of (disk (m w).2)) ∧ Q (m w).1.

(** A suspended call all of whose remaining stretches act so, and which
    returns a result in [Phi]. *)
Fixpoint safe (W : string → Prop) (userId : string) (Phi : Outcome → Prop)
    (t : Async Outcome) : Prop :=
  match t with
  | Return r => Phi r
  | Suspend k =>
      ∀ w, is_Some (users_of (disk w) !! userId) →
           writes W (users_of (disk w)) (users_of (disk (k w).2)) ∧
           safe W userId Phi (k w).1
  end.

(** The call ended with a reply. *)
Definition replied (r : Outcome) : Prop := ∃ txt, r = Sent txt.

(** The accounts one message may write: the sender's, and for a grant sent
    by an owner the recipient's. *)
Definition footprint (env : Env) (messageText userId : string) (id : string) : Prop :=
  id = userId ∨
  (((command_of messageText).1 = "give"%string ∨ (command_of messageText).1 = "grant"%string) ∧
   isOwnerId env userId = true ∧
   parseUserArg (arg (command_of messageText).2 0) = Some id).

(** The history does not claim more than the balance holds. *)
Definition backed (u : User) : Prop := replay (history u) <= gold u.

(** The calls in flight for a list of messages, each with its sender, none
    of them started. *)
Definition calls_of (env : Env) (msgs : list (string * string)) : list (Async Outcome) :=
  map (fun c => called (handler env c.1 c.2)) msgs.

(** The accounts the messages of a list may write. *)
Definition footprints (env : Env) (msgs : list (string * string)) (id : string) : Prop :=
  ∃ c, In c msgs ∧ footprint env c.1 c.2 id.

(** A call of the list in flight: not started, returned without a reply on
    an empty message or sender, or safe with the sender's account present. *)
Definition thread_ok (env : Env) (W : string → Prop) (users : gmap string User)
    (c : string * string) (t : Async Outcome) : Prop :=
  t = called (handler env c.1 c.2) ∨
  t = Return Silent ∨
  (safe W c.2 replied t ∧ is_Some (users !! c.2)).

(** The accounts only grew: every account is still there, and its old
    history is the beginning of its new history. *)
Definition grows (users users' : gmap string User) : Prop :=
  ∀ id, (is_Some (users !! id) → is_Some (users' !! id)) ∧
        history (acct users id) `prefix_of` history (acct users' id).

(** The bounds that the source passes to [rand] for the reward of [dig],
    [fish], [daily] and [weekly]. *)
Definition reward_range (cmd : string) : option (Z * Z) :=
  if String.eqb cmd "dig" then Some (10, 60)
  else if String.eqb cmd "fish" then Some (8, 50)
  else if String.eqb cmd "daily" then Some (150, 400)
  else if String.eqb cmd "weekly" then Some (1000, 3000)
  else None.

(** The bounds that [work] passes to [rand] for a job, by the lower-cased
    name of the job. *)
Definition pay_range (job : string) : Z * Z :=
  if String.eqb job "developer" then (150, 350)
  else if String.eqb job "miner" then (100, 300)
  else if String.eqb job "chef" then (60, 200)
  else if String.eqb job "driver" then (50, 180)
  else if String.eqb job "artist" then (40, 150)
  else (50, 200).

(** The reply of a granted [dig], [fish], [daily] or [weekly]. *)
Definition grant_reply (cmd : string) (reward : Z) : Reply :=
  if String.eqb cmd "daily" then MsgDaily reward
  else if String.eqb cmd "weekly" then MsgWeekly reward
  else MsgEarned reward cmd.

(** A claim was paid to the account of [id]: the reply is [txt], [reward] is
    credited and recorded, and the cooldown of [key] is stamped, both with
    readings of the clock. *)
Definition paid (env : Env) (id key : string) (users : gmap string User)
    (res : Outcome * World) (reward : Z) (txt : Reply) : Prop :=
  let u := acct users id in
  res.1 = Sent txt ∧
  ∃ i j, users_of (disk res.2)
         = <[id := stamped (posted u (gold u + reward) (clock env i) reward)
                     key (clock env j)]> users.

(** * Properties *)

(** ** Rounding to Numbers *)

Section Rounding.

Local Open Scope Q_scope.

Lemma pow2_pos e : 0 < JS.pow2 e.
Proof. apply Qpower_0_lt. reflexivity. Qed.

Lemma pow2_plus a b : JS.pow2 (a + b) == JS.pow2 a * JS.pow2 b.
Proof. apply Qpower_plus. discriminate. Qed.

Lemma pow2_cancel e : JS.pow2 e * JS.pow2 (- e) == 1.
Proof.
  rewrite <- pow2_plus. replace (e + - e)%Z with 0%Z by lia. reflexivity.
Qed.

Lemma pow2_le a b : (a <= b)%Z -> JS.pow2 a <= JS.pow2 b.
Proof. intros H. apply Qpower_le_compat_l; [exact H|discriminate]. Qed.

Lemma pow2_lt a b : (a < b)%Z -> JS.pow2 a < JS.pow2 b.
Proof. intros H. apply Qpower_lt_compat_l; [exact H|reflexivity]. Qed.

Lemma pow2_Z n : (0 <= n)%Z -> JS.pow2 n == inject_Z (2 ^ n).
Proof. intros H. unfold JS.pow2. rewrite Zpower_Qpower by exact H. reflexivity. Qed.

(** Scaling by a power of two keeps the order. *)
Lemma scale_le e a b : a <= b -> a * JS.pow2 e <= b * JS.pow2 e.
Proof. intros H. apply Qmult_le_compat_r; [exact H|]. apply Qlt_le_weak, pow2_pos. Qed.

Lemma scale_lt e a b : a < b -> a * JS.pow2 e < b * JS.pow2 e.
Proof. intros H. apply Qmult_lt_compat_r; [apply pow2_pos|exact H]. Qed.

Lemma scale_back e q : q * JS.pow2 (- e) * JS.pow2 e == q.
Proof.
  rewrite <- Qmult_assoc, (Qmult_comm (JS.pow2 (- e))), pow2_cancel. ring.
Qed.

Lemma binade_spec q : 0 < q -> JS.pow2 (JS.binade q) <= q /\ q < JS.pow2 (JS.binade q + 1).
Proof.
  intros Hq. destruct q as [n d]. unfold JS.binade. cbn [Qnum Qden].
  assert (Hn : (0 < n)%Z) by (unfold Qlt in Hq; simpl in Hq; lia).
  set (a := Z.log2 n). set (b := Z.log2 (Z.pos d)).
  destruct (Z.log2_spec n Hn) as [Ha1 Ha2]. fold a in Ha1, Ha2.
  destruct (Z.log2_spec (Z.pos d) eq_refl) as [Hb1 Hb2]. fold b in Hb1, Hb2.
  assert (Ha0 : (0 <= a)%Z) by apply Z.log2_nonneg.
  assert (Hb0 : (0 <= b)%Z) by apply Z.log2_nonneg.
  (* n/d as a product *)
  assert (Hnd : n # d == inject_Z n * / inject_Z (Z.pos d)) by apply Qmake_Qdiv.
  assert (Hd : 0 < inject_Z (Z.pos d)) by reflexivity.
  assert (Hlow : JS.pow2 (a - b - 1) < n # d).
  { apply Qmult_lt_r with (z := inject_Z (Z.pos d)); [exact Hd|].
    rewrite Hnd, <- Qmult_assoc, (Qmult_comm (/ _)), Qmult_inv_r, Qmult_1_r by discriminate.
    apply Qlt_le_trans with (JS.pow2 (a - b - 1) * JS.pow2 (b + 1)).
    - apply Qmult_lt_l; [apply pow2_pos|]. rewrite pow2_Z by lia.
      rewrite <- Zlt_Qlt. exact Hb2.
    - rewrite <- pow2_plus. replace (a - b - 1 + (b + 1))%Z with a by lia.
      rewrite pow2_Z by lia. rewrite <- Zle_Qle. exact Ha1. }
  assert (Hhigh : n # d < JS.pow2 (a - b + 1)).
  { apply Qmult_lt_r with (z := inject_Z (Z.pos d)); [exact Hd|].
    rewrite Hnd, <- Qmult_assoc, (Qmult_comm (/ _)), Qmult_inv_r, Qmult_1_r by discriminate.
    apply Qlt_le_trans with (JS.pow2 (a - b + 1) * JS.pow2 b).
    - rewrite <- pow2_plus. replace (a - b + 1 + b)%Z with (a + 1)%Z by lia.
      rewrite pow2_Z by lia. rewrite <- Zlt_Qlt. replace (a + 1)%Z with (Z.succ a) by lia.
      exact Ha2.
    - apply Qmult_le_l; [apply pow2_pos|]. rewrite pow2_Z by lia.
      rewrite <- Zle_Qle. exact Hb1. }
  destruct (Qle_bool (JS.pow2 (a - b)) (n # d)) eqn:E.
  - apply Qle_bool_iff in E. split; [exact E|exact Hhigh].
  - split.
    + apply Qlt_le_weak. exact Hlow.
    + replace (a - b - 1 + 1)%Z with (a - b)%Z by lia.
      apply Qnot_le_lt. intros H. apply Qle_bool_iff in H. congruence.
Qed.

Lemma round_even_floor z : (Qfloor z <= JS.round_even z <= Qfloor z + 1)%Z.
Proof.
  unfold JS.round_even. cbv zeta. destruct (_ ?= _); [destruct (Z.even _)|..]; lia.
Qed.

Lemma round_even_upper z : inject_Z (JS.round_even z) <= z + (1 # 2).
Proof.
  unfold JS.round_even. cbv zeta. pose proof (Qfloor_le z) as Hf.
  destruct (Qcompare_spec (z - inject_Z (Qfloor z)) (1 # 2)) as [H|H|H];
    [destruct (Z.even _)|..]; rewrite ?inject_Z_plus; change (inject_Z 1) with 1;
    set (f := inject_Z (Qfloor z)) in *; clearbody f; lra.
Qed.

Lemma round_even_lower z : z - (1 # 2) <= inject_Z (JS.round_even z).
Proof.
  unfold JS.round_even. cbv zeta. pose proof (Qlt_floor z) as Hf. rewrite inject_Z_plus in Hf.
  destruct (Qcompare_spec (z - inject_Z (Qfloor z)) (1 # 2)) as [H|H|H];
    [destruct (Z.even _)|..]; rewrite ?inject_Z_plus; change (inject_Z 1) with 1 in *;
    set (f := inject_Z (Qfloor z)) in *; clearbody f; lra.
Qed.

Lemma round_even_Z m : JS.round_even (inject_Z m) = m.
Proof.
  unfold JS.round_even. cbv zeta. rewrite Qfloor_Z.
  destruct (Qcompare_spec (inject_Z m - inject_Z m) (1 # 2)) as [H|H|H]; [|done|];
    set (f := inject_Z m) in *; clearbody f; lra.
Qed.

Lemma round_even_mono z1 z2 : z1 <= z2 -> (JS.round_even z1 <= JS.round_even z2)%Z.
Proof.
  intros H. pose proof (Qfloor_resp_le _ _ H) as Hf.
  pose proof (round_even_floor z1) as H1. pose proof (round_even_floor z2) as H2.
  destruct (Z.eq_dec (Qfloor z1) (Qfloor z2)) as [E|E]; [|lia].
  unfold JS.round_even in *. cbv zeta in *. rewrite <- E in *.
  destruct (Qcompare_spec (z1 - inject_Z (Qfloor z1)) (1 # 2)) as [Ha|Ha|Ha];
    destruct (Qcompare_spec (z2 - inject_Z (Qfloor z1)) (1 # 2)) as [Hb|Hb|Hb];
    try destruct (Z.even _); try lia;
    set (f := inject_Z (Qfloor z1)) in *; clearbody f; lra.
Qed.

Lemma round_even_le_Z z m : z <= inject_Z m -> (JS.round_even z <= m)%Z.
Proof. intros H. rewrite <- (round_even_Z m). by apply round_even_mono. Qed.

Lemma round_even_ge_Z z m : inject_Z m <= z -> (m <= JS.round_even z)%Z.
Proof. intros H. rewrite <- (round_even_Z m). by apply round_even_mono. Qed.

(** The binade grows with the number. *)
Lemma binade_mono a b : 0 < a -> a <= b -> (JS.binade a <= JS.binade b)%Z.
Proof.
  intros Ha Hab. destruct (binade_spec a Ha) as [Ha1 _].
  destruct (binade_spec b) as [_ Hb2]; [lra|].
  destruct (Z.le_gt_cases (JS.binade a) (JS.binade b)) as [?|Hgt]; [done|].
  pose proof (pow2_le (JS.binade b + 1) (JS.binade a) ltac:(lia)) as H. lra.
Qed.

Lemma binade_unique q k : JS.pow2 k <= q -> q < JS.pow2 (k + 1) -> JS.binade q = k.
Proof.
  intros H1 H2. assert (Hq : 0 < q) by (pose proof (pow2_pos k); lra).
  destruct (binade_spec q Hq) as [H3 H4].
  destruct (Z.lt_trichotomy (JS.binade q) k) as [H|[H|H]]; [|done|].
  - pose proof (pow2_le (JS.binade q + 1) k ltac:(lia)). lra.
  - pose proof (pow2_le (k + 1) (JS.binade q) ltac:(lia)). lra.
Qed.

Lemma ulp_exp_mono a b : 0 < a -> a <= b -> (JS.ulp_exp a <= JS.ulp_exp b)%Z.
Proof. intros Ha Hab. pose proof (binade_mono a b Ha Hab). unfold JS.ulp_exp. lia. Qed.

(** A positive number scaled by its unit in the last place is below [2^53],
    and at least [2^52] when the number is not subnormal. *)
Lemma scaled_upper q : 0 < q -> q * JS.pow2 (- JS.ulp_exp q) < inject_Z (2 ^ 53).
Proof.
  intros Hq. destruct (binade_spec q Hq) as [_ H2].
  rewrite <- pow2_Z by lia.
  apply Qlt_le_trans with (JS.pow2 (JS.binade q + 1) * JS.pow2 (- JS.ulp_exp q)).
  - by apply scale_lt.
  - rewrite <- pow2_plus. apply pow2_le. unfold JS.ulp_exp. lia.
Qed.

Lemma scaled_lower q :
  0 < q -> (-1074 < JS.ulp_exp q)%Z -> inject_Z (2 ^ 52) <= q * JS.pow2 (- JS.ulp_exp q).
Proof.
  intros Hq He. destruct (binade_spec q Hq) as [H1 _].
  rewrite <- pow2_Z by lia.
  apply Qle_trans with (JS.pow2 (JS.binade q) * JS.pow2 (- JS.ulp_exp q)).
  - rewrite <- pow2_plus. apply pow2_le. unfold JS.ulp_exp in *. lia.
  - by apply scale_le.
Qed.

Lemma nearest_pos q :
  0 < q ->
  JS.nearest q = inject_Z (JS.round_even (q * JS.pow2 (- JS.ulp_exp q))) * JS.pow2 (JS.ulp_exp q).
Proof. intros Hq. unfold JS.nearest. apply Qgt_alt in Hq. by rewrite Hq. Qed.

Lemma below_pos q :
  0 < q ->
  JS.below q = inject_Z (Qfloor (q * JS.pow2 (- JS.ulp_exp q))) * JS.pow2 (JS.ulp_exp q).
Proof. intros Hq. unfold JS.below. apply Qgt_alt in Hq. by rewrite Hq. Qed.

Lemma nearest_nonneg q : 0 <= q -> 0 <= JS.nearest q.
Proof.
  intros Hq. destruct (Qle_lt_or_eq _ _ Hq) as [H|H].
  - rewrite nearest_pos by done. apply Qmult_le_0_compat; [|apply Qlt_le_weak, pow2_pos].
    change 0 with (inject_Z 0). rewrite <- Zle_Qle. apply round_even_ge_Z.
    apply Qmult_le_0_compat; [done|apply Qlt_le_weak, pow2_pos].
  - unfold JS.nearest. symmetry in H. apply Qeq_alt in H. rewrite H. lra.
Qed.

(** Rounding keeps the order. *)
Lemma nearest_mono a b : 0 <= a -> a <= b -> JS.nearest a <= JS.nearest b.
Proof.
  intros Ha Hab. destruct (Qle_lt_or_eq _ _ Ha) as [Ha'|Ha'].
  2:{ assert (JS.nearest a = 0) as ->.
      { unfold JS.nearest. symmetry in Ha'. apply Qeq_alt in Ha'. by rewrite Ha'. }
      apply nearest_nonneg. lra. }
  assert (Hb : 0 < b) by lra.
  rewrite (nearest_pos a), (nearest_pos b) by done.
  pose proof (ulp_exp_mono a b Ha' Hab) as He.
  destruct (Z.eq_dec (JS.ulp_exp a) (JS.ulp_exp b)) as [E|E].
  - rewrite E. apply scale_le. rewrite <- Zle_Qle. apply round_even_mono. by apply scale_le.
  - apply Qle_trans with (inject_Z (2 ^ 53) * JS.pow2 (JS.ulp_exp a)).
    { apply scale_le. rewrite <- Zle_Qle. apply round_even_le_Z.
      apply Qlt_le_weak. by apply scaled_upper. }
    apply Qle_trans with (inject_Z (2 ^ 52) * JS.pow2 (JS.ulp_exp b)).
    { rewrite <- !pow2_Z by lia. rewrite <- !pow2_plus. apply pow2_le. lia. }
    apply scale_le. rewrite <- Zle_Qle. apply round_even_ge_Z.
    apply scaled_lower; [done|]. unfold JS.ulp_exp in *. lia.
Qed.

Lemma below_le q : 0 <= q -> JS.below q <= q.
Proof.
  intros Hq. destruct (Qle_lt_or_eq _ _ Hq) as [H|H].
  - rewrite below_pos by done.
    apply Qle_trans with (q * JS.pow2 (- JS.ulp_exp q) * JS.pow2 (JS.ulp_exp q)).
    + apply scale_le. apply Qfloor_le.
    + rewrite scale_back. apply Qle_refl.
  - unfold JS.below. symmetry in H. apply Qeq_alt in H. rewrite H. lra.
Qed.

Lemma below_nonneg q : 0 <= JS.below q.
Proof.
  unfold JS.below. destruct (Qcompare_spec q 0) as [H|H|H]; try lra.
  apply Qmult_le_0_compat; [|apply Qlt_le_weak, pow2_pos].
  change 0 with (inject_Z 0). rewrite <- Zle_Qle. change 0%Z with (Qfloor 0).
  apply Qfloor_resp_le. apply Qmult_le_0_compat; [lra|apply Qlt_le_weak, pow2_pos].
Qed.

Lemma below_mono a b : a <= b -> JS.below a <= JS.below b.
Proof.
  intros Hab. destruct (Qlt_le_dec 0 a) as [Ha|Ha].
  2:{ assert (JS.below a = 0) as ->; [|apply below_nonneg].
      unfold JS.below. destruct (Qcompare_spec a 0); try done. lra. }
  assert (Hb : 0 < b) by lra.
  rewrite (below_pos a), (below_pos b) by done.
  pose proof (ulp_exp_mono a b Ha Hab) as He.
  destruct (Z.eq_dec (JS.ulp_exp a) (JS.ulp_exp b)) as [E|E].
  - rewrite E. apply scale_le. rewrite <- Zle_Qle. apply Qfloor_resp_le. by apply scale_le.
  - apply Qle_trans with (inject_Z (2 ^ 53) * JS.pow2 (JS.ulp_exp a)).
    { apply scale_le. apply Qle_trans with (a * JS.pow2 (- JS.ulp_exp a)); [apply Qfloor_le|].
      apply Qlt_le_weak. by apply scaled_upper. }
    apply Qle_trans with (inject_Z (2 ^ 52) * JS.pow2 (JS.ulp_exp b)).
    { rewrite <- !pow2_Z by lia. rewrite <- !pow2_plus. apply pow2_le. lia. }
    apply scale_le. rewrite <- Zle_Qle. rewrite <- (Qfloor_Z (2 ^ 52)).
    apply Qfloor_resp_le. apply scaled_lower; [done|]. unfold JS.ulp_exp in *. lia.
Qed.

(** The largest Number below a power of two. *)
Lemma below_pow2 k x :
  (-1021 <= k)%Z -> x < JS.pow2 k -> JS.below x <= JS.pow2 k - JS.pow2 (k - 53).
Proof.
  intros Hk H1.
  assert (Hsum : JS.pow2 (k - 1) + JS.pow2 (k - 53) <= JS.pow2 k).
  { assert (E : JS.pow2 k == JS.pow2 (k - 1) + JS.pow2 (k - 1)).
    { replace k with (1 + (k - 1))%Z at 1 by lia. rewrite pow2_plus.
      change (JS.pow2 1) with 2. ring. }
    pose proof (pow2_le (k - 53) (k - 1) ltac:(lia)). lra. }
  destruct (Qlt_le_dec x (JS.pow2 (k - 1))) as [Hh|Hh].
  - destruct (Qlt_le_dec 0 x) as [H0|H0].
    + pose proof (below_le x). lra.
    + pose proof (pow2_pos (k - 1)).
      unfold JS.below. destruct (Qcompare_spec x 0); lra.
  - assert (Hx : 0 < x) by (pose proof (pow2_pos (k - 1)); lra).
    assert (Hb : JS.binade x = (k - 1)%Z).
    { apply binade_unique; [done|]. by replace (k - 1 + 1)%Z with k by lia. }
    assert (He : JS.ulp_exp x = (k - 53)%Z) by (unfold JS.ulp_exp; lia).
    rewrite below_pos by done.
    assert (Hf : (Qfloor (x * JS.pow2 (- JS.ulp_exp x)) <= 2 ^ 53 - 1)%Z).
    { assert (Qfloor (x * JS.pow2 (- JS.ulp_exp x)) < 2 ^ 53)%Z; [|lia].
      rewrite Zlt_Qlt. eapply Qle_lt_trans; [apply Qfloor_le|]. by apply scaled_upper. }
    rewrite He in *.
    apply Qle_trans with (inject_Z (2 ^ 53 - 1) * JS.pow2 (k - 53)).
    + apply scale_le. by rewrite <- Zle_Qle.
    + assert (E : JS.pow2 k == JS.pow2 53 * JS.pow2 (k - 53)).
      { rewrite <- pow2_plus. by replace (53 + (k - 53))%Z with k by lia. }
      rewrite E. unfold Z.sub at 1. rewrite inject_Z_plus, <- (pow2_Z 53) by lia.
      change (inject_Z (- (1))) with (-1). apply Qle_lteq. right. ring.
Qed.

Lemma below_unit x : x < 1 -> JS.below x <= 1 - JS.pow2 (-53).
Proof. intros H. by apply (below_pow2 0). Qed.

(** A number with a 53-bit mantissa is a Number, and rounds to itself. *)
Lemma nearest_double m e :
  (2 ^ 52 <= m < 2 ^ 53)%Z -> (-1074 <= e)%Z ->
  JS.nearest (inject_Z m * JS.pow2 e) == inject_Z m * JS.pow2 e.
Proof.
  intros [Hm1 Hm2] He. set (q := inject_Z m * JS.pow2 e).
  assert (Hq : 0 < q).
  { apply Qmult_lt_0_compat; [|apply pow2_pos]. change 0 with (inject_Z 0).
    rewrite <- Zlt_Qlt. lia. }
  assert (Hb : JS.binade q = (e + 52)%Z).
  { apply binade_unique.
    - rewrite Z.add_comm, pow2_plus, pow2_Z by lia. apply scale_le. by rewrite <- Zle_Qle.
    - replace (e + 52 + 1)%Z with (53 + e)%Z by lia. rewrite pow2_plus, pow2_Z by lia.
      apply scale_lt. by rewrite <- Zlt_Qlt. }
  assert (Hu : JS.ulp_exp q = e) by (unfold JS.ulp_exp; lia).
  rewrite nearest_pos, Hu by done.
  assert (Hs : q * JS.pow2 (- e) == inject_Z m).
  { unfold q. rewrite <- Qmult_assoc, pow2_cancel. ring. }
  assert (JS.round_even (q * JS.pow2 (- e)) = m) as ->; [|reflexivity].
  apply Z.le_antisymm; [apply round_even_le_Z|apply round_even_ge_Z]; rewrite Hs; apply Qle_refl.
Qed.

Lemma binade_Z n : (0 < n)%Z -> (0 <= JS.binade (inject_Z n))%Z.
Proof.
  intros Hn. change 0%Z with (JS.binade 1) at 1.
  apply binade_mono; [reflexivity|]. change 1 with (inject_Z 1). rewrite <- Zle_Qle. lia.
Qed.

(** The product of a Number below 1 and a positive integer rounds to less
    than the integer. *)
Lemma times_below d n :
  0 <= d -> d <= 1 - JS.pow2 (-53) -> (0 < n)%Z -> JS.times d (inject_Z n) < inject_Z n.
Proof.
  intros Hd0 Hd1 Hn. unfold JS.times. set (y := d * inject_Z n).
  assert (HnQ : 0 < inject_Z n) by (change 0 with (inject_Z 0); by rewrite <- Zlt_Qlt).
  assert (Hy0 : 0 <= y) by (apply Qmult_le_0_compat; lra).
  assert (Hy1 : y <= inject_Z n - inject_Z n * JS.pow2 (-53)).
  { unfold y. apply Qle_trans with ((1 - JS.pow2 (-53)) * inject_Z n).
    - apply Qmult_le_compat_r; lra.
    - apply Qle_lteq. right. ring. }
  set (k := JS.binade (inject_Z n)).
  assert (Hk : (0 <= k)%Z) by by apply binade_Z.
  destruct (binade_spec (inject_Z n) HnQ) as [Hk1 Hk2]. fold k in Hk1, Hk2.
  assert (Hp53 : 0 < JS.pow2 (-53)) by apply pow2_pos.
  assert (Hyn : y < inject_Z n).
  { assert (0 < inject_Z n * JS.pow2 (-53)) by by apply Qmult_lt_0_compat. lra. }
  destruct (Qlt_le_dec y (JS.pow2 k)) as [Hlow|Hhigh].
  - (* below the binade of n *)
    assert (HP : JS.nearest (JS.pow2 k) == JS.pow2 k).
    { assert (E : JS.pow2 k == inject_Z (2 ^ 52) * JS.pow2 (k - 52)).
      { rewrite <- (pow2_Z 52) by lia. rewrite <- pow2_plus.
        by replace (52 + (k - 52))%Z with k by lia. }
      apply Qle_antisym.
      - rewrite E at 2. rewrite <- (nearest_double (2 ^ 52) (k - 52)) by lia.
        apply nearest_mono; [apply Qlt_le_weak, pow2_pos|]. rewrite E. apply Qle_refl.
      - rewrite E at 1. rewrite <- (nearest_double (2 ^ 52) (k - 52)) by lia.
        apply nearest_mono; [|rewrite E; apply Qle_refl].
        apply Qmult_le_0_compat; [done|apply Qlt_le_weak, pow2_pos]. }
    destruct (Qlt_le_dec (JS.pow2 k) (inject_Z n)) as [Hgt|Hle].
    + eapply Qle_lt_trans; [apply (nearest_mono y (JS.pow2 k)); lra|]. lra.
    + assert (Hn2 : inject_Z n == JS.pow2 k) by lra.
      assert (Hy2 : y <= inject_Z (2 ^ 53 - 1) * JS.pow2 (k - 53)).
      { eapply Qle_trans; [exact Hy1|]. rewrite Hn2.
        assert (E : inject_Z (2 ^ 53 - 1) * JS.pow2 (k - 53)
                    == JS.pow2 k - JS.pow2 k * JS.pow2 (-53)).
        { assert (E1 : JS.pow2 k == JS.pow2 53 * JS.pow2 (k - 53)).
          { rewrite <- pow2_plus. by replace (53 + (k - 53))%Z with k by lia. }
          assert (E2 : JS.pow2 k * JS.pow2 (-53) == JS.pow2 (k - 53)).
          { rewrite <- pow2_plus. by replace (k + -53)%Z with (k - 53)%Z by lia. }
          rewrite E2, E1. unfold Z.sub. rewrite inject_Z_plus, <- (pow2_Z 53) by lia.
          change (inject_Z (- (1))) with (-1). ring. }
        rewrite E. apply Qle_refl. }
      eapply Qle_lt_trans; [apply (nearest_mono y _ Hy0 Hy2)|].
      rewrite nearest_double by lia. rewrite Hn2.
      apply Qlt_le_trans with (inject_Z (2 ^ 53) * JS.pow2 (k - 53)).
      * apply scale_lt. rewrite <- Zlt_Qlt. lia.
      * rewrite <- (pow2_Z 53) by lia. rewrite <- pow2_plus.
        replace (53 + (k - 53))%Z with k by lia. apply Qle_refl.
  - (* in the binade of n *)
    assert (Hy : 0 < y) by (pose proof (pow2_pos k); lra).
    assert (Hb : JS.binade y = k) by (apply binade_unique; lra).
    assert (He : JS.ulp_exp y = (k - 52)%Z) by (unfold JS.ulp_exp; lia).
    rewrite nearest_pos, He by done.
    set (z := y * JS.pow2 (- (k - 52))).
    set (N := inject_Z n * JS.pow2 (- (k - 52))).
    assert (Hhalf : inject_Z n * JS.pow2 (-53) * JS.pow2 (- (k - 52)) > 1 # 2).
    { rewrite <- Qmult_assoc, <- pow2_plus.
      replace (-53 + - (k - 52))%Z with (- (k + 1))%Z by lia.
      assert (Hgt : JS.pow2 k < inject_Z n) by lra.
      apply Qle_lt_trans with (JS.pow2 k * JS.pow2 (- (k + 1))).
      - rewrite <- pow2_plus. replace (k + - (k + 1))%Z with (-1)%Z by lia. by vm_compute.
      - by apply scale_lt. }
    assert (Hz : z < N - (1 # 2)).
    { unfold z, N.
      apply Qle_lt_trans with ((inject_Z n - inject_Z n * JS.pow2 (-53)) * JS.pow2 (- (k - 52))).
      - by apply scale_le.
      - assert (E : (inject_Z n - inject_Z n * JS.pow2 (-53)) * JS.pow2 (- (k - 52))
                    == inject_Z n * JS.pow2 (- (k - 52))
                       - inject_Z n * JS.pow2 (-53) * JS.pow2 (- (k - 52))) by ring.
        rewrite E. lra. }
    pose proof (round_even_upper z) as Hr.
    apply Qlt_le_trans with (N * JS.pow2 (k - 52)).
    + apply scale_lt. set (r := inject_Z (JS.round_even z)) in *. clearbody r. lra.
    + unfold N. rewrite scale_back. apply Qle_refl.
Qed.

Lemma times_floor d n :
  0 <= d -> d <= 1 - JS.pow2 (-53) -> (0 < n)%Z ->
  (0 <= Qfloor (JS.times d (inject_Z n)) < n)%Z.
Proof.
  intros Hd0 Hd1 Hn. split.
  - change 0%Z with (Qfloor 0). apply Qfloor_resp_le. apply nearest_nonneg.
    apply Qmult_le_0_compat; [done|]. change 0 with (inject_Z 0). rewrite <- Zle_Qle. lia.
  - rewrite Zlt_Qlt. eapply Qle_lt_trans; [apply Qfloor_le|]. by apply times_below.
Qed.

End Rounding.

(** ** The values of [Math.random()] *)

Lemma draw_nonneg env i : (0 <= draw env i)%Q.
Proof. apply below_nonneg. Qed.

(** [Math.floor(Math.random() * n)] is one of [0 .. n - 1]. *)
Lemma draw_floor env i (n : Z) :
  (random env i < 1)%Q → 0 < n →
  0 <= Qfloor (JS.times (draw env i) (inject_Z n)) < n.
Proof.
  intros H1 Hn. apply times_floor; [apply below_nonneg|by apply below_unit|done].
Qed.

(** A draw whose real number is below 0.45 gives a product with 100 that is
    below 45, and likewise below 50. *)
Lemma draw_below_45 env i :
  (random env i * 100 < 45)%Q → (JS.times (draw env i) 100 < 45)%Q.
Proof.
  intros H. unfold JS.times, draw.
  eapply Qle_lt_trans.
  - apply (nearest_mono _ (JS.below (45 # 100) * 100)).
    + apply Qmult_le_0_compat; [apply below_nonneg|done].
    + apply Qmult_le_compat_r; [|done]. apply below_mono. lra.
  - by vm_compute.
Qed.

Lemma draw_below_50 env i :
  (random env i * 100 < 50)%Q → (JS.times (draw env i) 100 < 50)%Q.
Proof.
  intros H. unfold JS.times, draw.
  eapply Qle_lt_trans.
  - apply (nearest_mono _ ((JS.pow2 (-1) - JS.pow2 (-1 - 53)) * 100)).
    + apply Qmult_le_0_compat; [apply below_nonneg|done].
    + apply Qmult_le_compat_r; [|done]. apply below_pow2; [lia|].
      change (JS.pow2 (-1)) with (1 # 2)%Q. lra.
  - by vm_compute.
Qed.

(** ** The store functions as equations on the world *)

Section StoreEquations.

Variable env : Env.
Implicit Types (w : World) (id key : string) (u : User).

Lemma users_of_created f : users_of (created f) = users_of f.
Proof. by destruct f. Qed.

Lemma acct_touch id users : acct (touch id users) id = acct users id.
Proof.
  unfold acct, touch. destruct (users !! id) eqn:E; simpl.
  - by rewrite E.
  - by rewrite lookup_insert_eq.
Qed.

Lemma insert_touch id u users : <[id := u]> (touch id users) = <[id := u]> users.
Proof.
  unfold touch. destruct (users !! id); [done|]. by rewrite insert_insert_eq.
Qed.

Lemma lookup_touch id users : touch id users !! id = Some (acct users id).
Proof.
  unfold touch, acct. destruct (users !! id) eqn:E; simpl; [done|].
  by rewrite lookup_insert_eq.
Qed.

Lemma acct_insert id u users : acct (<[id := u]> users) id = u.
Proof. unfold acct. by rewrite lookup_insert_eq. Qed.

Lemma acct_insert_ne id id' u users :
  id ≠ id' → acct (<[id := u]> users) id' = acct users id'.
Proof. intros Hne. unfold acct. by rewrite lookup_insert_ne. Qed.

Lemma load_eq w : db.load w = (users_of (disk w), with_disk (created (disk w)) w).
Proof. destruct w as [[] ? ?]; reflexivity. Qed.

Lemma save_eq data w : db.save data w = (tt, with_disk (Stored data) w).
Proof. destruct w as [[] ? ?]; reflexivity. Qed.

Lemma getUser_eq id w :
  db.getUser id w = (users_of (disk w) !! id, with_disk (created (disk w)) w).
Proof. unfold db.getUser, bind. by rewrite load_eq. Qed.

Lemma ensureUser_eq id w :
  db.ensureUser id w
  = (acct (users_of (disk w)) id, with_disk (Stored (touch id (users_of (disk w)))) w).
Proof.
  unfold db.ensureUser, bind. rewrite load_eq. unfold acct, touch.
  destruct (users_of (disk w) !! id) eqn:E; simpl.
  - unfold ret. f_equal. destruct w as [[] ? ?]; simpl in *; try done.
  - by rewrite save_eq.
Qed.

Lemma set_eq id obj w :
  db.set id obj w = (tt, with_disk (Stored (<[id := obj]> (users_of (disk w)))) w).
Proof. unfold db.set, bind. rewrite load_eq, save_eq. reflexivity. Qed.

Lemma add_eq id amount w :
  let u := acct (users_of (disk w)) id in
  let now := clock env (ticks w) in
  db.add env id amount w
  = (gold u + amount,
     ticked (with_disk (Stored (<[id := posted u (gold u + amount) now amount]>
                                  (users_of (disk w)))) w)).
Proof.
  intros u now. unfold db.add, bind. rewrite ensureUser_eq.
  unfold Date_now. rewrite set_eq. cbn -[touch acct].
  rewrite insert_touch. reflexivity.
Qed.

Lemma remove_eq id amount w :
  let u := acct (users_of (disk w)) id in
  let now := clock env (ticks w) in
  db.remove env id amount w
  = (Z.max 0 (gold u - amount),
     ticked (with_disk (Stored (<[id := posted u (Z.max 0 (gold u - amount)) now (- amount)]>
                                  (users_of (disk w)))) w)).
Proof.
  intros u now. unfold db.remove, bind. rewrite ensureUser_eq.
  unfold Date_now. rewrite set_eq. cbn -[touch acct].
  rewrite insert_touch. reflexivity.
Qed.

Lemma setCooldown_eq id key timestamp w :
  db.setCooldown id key timestamp w
  = (tt, with_disk (Stored (<[id := stamped (acct (users_of (disk w)) id) key timestamp]>
                              (users_of (disk w)))) w).
Proof.
  unfold db.setCooldown, bind. rewrite ensureUser_eq, set_eq. cbn -[touch acct].
  rewrite insert_touch. reflexivity.
Qed.

Lemma getCooldown_eq id key w :
  db.getCooldown id key w
  = (default 0 (cooldowns (acct (users_of (disk w)) id) !! key),
     with_disk (Stored (touch id (users_of (disk w)))) w).
Proof. unfold db.getCooldown, bind. by rewrite ensureUser_eq. Qed.

Lemma canClaim_eq id key ms w :
  let last := default 0 (cooldowns (acct (users_of (disk w)) id) !! key) in
  let w' := with_disk (Stored (touch id (users_of (disk w)))) w in
  db.canClaim env id key ms w
  = if last =? 0 then (true, w')
    else (ms <=? clock env (ticks w) - last, ticked w').
Proof.
  intros last w'. unfold db.canClaim, bind. rewrite getCooldown_eq.
  fold last. destruct (last =? 0); reflexivity.
Qed.

End StoreEquations.

(** ** The rules of the triples *)

Lemma replay_app h e : replay (h ++ [e]) = replay h + change e.
Proof.
  induction h as [|x h IH]; simpl.
  - lia.
  - rewrite IH. lia.
Qed.

#[export] Instance solvent_inv : AccountInv solvent.
Proof.
  split; unfold solvent; simpl; intros; lia.
Qed.

#[export] Instance balanced_inv : AccountInv balanced.
Proof.
  split; unfold balanced; simpl; intros; rewrite ?replay_app; simpl; lia.
Qed.

Section Hoare.

Variable env : Env.
Context (I : User → Prop) `{!AccountInv I}.
Implicit Types (P : gmap string User → Prop) (id key : string).

Lemma Inv_acct users id : Inv I users → I (acct users id).
Proof.
  intros H. unfold acct. destruct (users !! id) eqn:E; simpl.
  - by eapply H.
  - apply inv_fresh.
Qed.

Lemma Inv_insert users id u : Inv I users → I u → Inv I (<[id := u]> users).
Proof.
  intros H Hu id' u'. rewrite lookup_insert. case_decide; [|by apply H].
  by intros [= <-].
Qed.

Lemma Inv_touch users id : Inv I users → Inv I (touch id users).
Proof.
  intros H. unfold touch. destruct (users !! id); [done|].
  apply Inv_insert; [done|apply inv_fresh].
Qed.

Lemma Inv_empty : Inv I ∅.
Proof. intros id u. by rewrite lookup_empty. Qed.

Lemma hoare_ret {A} P (a : A) (Q : A → gmap string User → Prop) :
  (∀ users, P users → Q a users) → hoare P (ret a) Q.
Proof. intros H w Hw. by apply H. Qed.

Lemma hoare_bind {A B} P (m : M A) (k : A → M B) R Q :
  hoare P m R → (∀ a, hoare (R a) (k a) Q) → hoare P (bind m k) Q.
Proof.
  intros Hm Hk w Hw. unfold bind. specialize (Hm w Hw).
  destruct (m w) as [a w1]. by apply Hk.
Qed.

Lemma hoare_pre {A} P P' (m : M A) Q :
  (∀ users, P users → P' users) → hoare P' m Q → hoare P m Q.
Proof. intros HP Hm w Hw. apply Hm. by apply HP. Qed.

Lemma hoare_post {A} P (m : M A) Q Q' :
  (∀ a users, Q a users → Q' a users) → hoare P m Q → hoare P m Q'.
Proof. intros HQ Hm w Hw. apply HQ. by apply Hm. Qed.

(** Suspension does not matter to a call that runs alone. *)
Lemma hoare_complete_bind {A R} P (m : M A) (k : A → M (Async R)) S Q :
  hoare P m S → (∀ a, hoare (S a) (complete (k a)) Q) →
  hoare P (complete (bind m k)) Q.
Proof.
  intros Hm Hk w Hw. unfold complete, bind. specialize (Hm w Hw).
  destruct (m w) as [a w1]. by apply Hk.
Qed.

Lemma hoare_complete_return {R} P (r : R) Q :
  (∀ users, P users → Q r users) → hoare P (complete (ret (Return r))) Q.
Proof. intros H w Hw. by apply H. Qed.

Lemma hoare_complete_suspend {R} P (k : M (Async R)) Q :
  hoare P (complete k) Q → hoare P (complete (ret (Suspend k))) Q.
Proof. intros H w Hw. by apply H. Qed.

(** The clock and the random source do not touch the store. *)
Lemma hoare_Date_now P : hoare P (Date_now env) (fun _ => P).
Proof. by intros w Hw. Qed.

Lemma hoare_Math_random P : hoare P (Math_random env) (fun _ => P).
Proof. by intros w Hw. Qed.

Lemma rand_range (i : nat) (min max : Z) :
  min <= max → min <= Qfloor (JS.times (draw env i) (inject_Z (max - min + 1))) + min.
Proof.
  intros Hm.
  assert (0 <= Qfloor (JS.times (draw env i) (inject_Z (max - min + 1)))); [|lia].
  change 0 with (Qfloor 0). apply Qfloor_resp_le. apply nearest_nonneg.
  apply Qmult_le_0_compat; [apply draw_nonneg|].
  change 0%Q with (inject_Z 0). rewrite <- Zle_Qle. lia.
Qed.

Lemma hoare_rand P min max :
  unit_draws env → min <= max →
  hoare P (rand env min max) (fun r users => P users ∧ min <= r).
Proof.
  intros Hd Hm w Hw. cbn [rand bind Math_random ret fst snd]. split; [done|].
  by apply rand_range.
Qed.

Lemma hoare_getUser P id :
  hoare P (db.getUser id) (fun r users => P users ∧ r = users !! id).
Proof.
  intros w Hw. rewrite getUser_eq. simpl. by rewrite users_of_created.
Qed.

Lemma hoare_ensureUser id :
  hoare (Inv I) (db.ensureUser id) (fun _ => Inv I).
Proof.
  intros w Hw. rewrite ensureUser_eq. simpl. by apply Inv_touch.
Qed.

Lemma hoare_add id amount :
  0 <= amount → hoare (Inv I) (db.add env id amount) (fun _ => Inv I).
Proof.
  intros Ha w Hw. rewrite add_eq. simpl.
  apply Inv_insert; [done|]. apply inv_credit; [by apply Inv_acct|done].
Qed.

Lemma hoare_remove id amount :
  hoare (fun users => Inv I users ∧ 0 <= amount <= gold (acct users id))
        (db.remove env id amount) (fun _ => Inv I).
Proof.
  intros w [Hw Ha]. rewrite remove_eq. simpl.
  apply Inv_insert; [done|]. apply inv_debit; [by apply Inv_acct|done].
Qed.

Lemma hoare_setCooldown id key timestamp :
  hoare (Inv I) (db.setCooldown id key timestamp) (fun _ => Inv I).
Proof.
  intros w Hw. rewrite setCooldown_eq. simpl.
  apply Inv_insert; [done|]. apply inv_stamp. by apply Inv_acct.
Qed.

Lemma hoare_getCooldown id key :
  hoare (Inv I) (db.getCooldown id key) (fun _ => Inv I).
Proof.
  intros w Hw. rewrite getCooldown_eq. simpl. by apply Inv_touch.
Qed.

Lemma hoare_canClaim id key ms :
  hoare (Inv I) (db.canClaim env id key ms) (fun _ => Inv I).
Proof.
  intros w Hw. rewrite canClaim_eq.
  destruct (_ =? 0); simpl; by apply Inv_touch.
Qed.

Lemma hoare_stakeAndCheck id bet :
  hoare (Inv I) (stakeAndCheck id bet)
    (fun chk users =>
       Inv I users ∧
       match chk with
       | Ok bal => 0 < bet ∧ bet <= gold (acct users id)
       | NotOk _ => True
       end).
Proof.
  intros w Hw. unfold stakeAndCheck, bind. rewrite getUser_eq.
  cbn [fst snd]. unfold acct.
  destruct (users_of (disk w) !! id) as [u|] eqn:E; simpl;
    destruct (bet <=? 0) eqn:E1; simpl; rewrite ?users_of_created; try done.
  - destruct (gold u <? bet) eqn:E2; simpl; rewrite ?users_of_created; [done|].
    rewrite E. simpl. split; [done|lia].
  - destruct (0 <? bet) eqn:E2; simpl; rewrite ?users_of_created; [done|]. lia.
Qed.

End Hoare.

(** ** Every command keeps the invariants of the accounts *)

Section CommandsKeep.

Variable env : Env.
Context (I : User → Prop) `{!AccountInv I}.
Hypothesis draws_ok : unit_draws env.

Lemma hoare_exploit {A} P (φ : Prop) (m : M A) Q :
  (∀ users : gmap string User, P users → φ) → (φ → hoare P m Q) → hoare P m Q.
Proof. intros Hφ H w Hw. apply H; [by eapply Hφ|done]. Qed.

Lemma hoare_weaken_Inv {A} (P : gmap string User → Prop) (m : M A) Q :
  (∀ users, P users → Inv I users) → hoare (Inv I) m Q → hoare P m Q.
Proof. apply hoare_pre. Qed.

Ltac step tac := eapply hoare_complete_bind; [tac|intros ?].
Ltac finish := unfold send; apply hoare_complete_return; intros ? H; try apply H; done.

(** The tail shared by the earning commands: credit, then stamp. *)
Lemma keep_earn id key reward (msg : Reply) P :
  (∀ users, P users → Inv I users ∧ 0 <= reward) →
  hoare P
    (complete (db.add env id reward ;;
               let* now := Date_now env in
               db.setCooldown id key now ;;
               send msg))
    (fun _ => Inv I).
Proof.
  intros HP.
  apply (hoare_exploit _ (0 <= reward)); [intros ? H; by destruct (HP _ H)|intros Hr].
  apply hoare_weaken_Inv; [intros ? H; by destruct (HP _ H)|].
  step ltac:(by apply (hoare_add env I)).
  step ltac:(apply hoare_Date_now).
  step ltac:(apply (hoare_setCooldown I)).
  finish.
Qed.

Lemma keep_wait id key (f : Z → Z → Reply) :
  hoare (Inv I)
    (complete (let* last := db.getCooldown id key in
               let* now := Date_now env in
               send (f last now)))
    (fun _ => Inv I).
Proof.
  step ltac:(apply (hoare_getCooldown I)).
  step ltac:(apply hoare_Date_now).
  finish.
Qed.

Lemma keep_balance id : hoare (Inv I) (complete (on_balance id)) (fun _ => Inv I).
Proof.
  unfold on_balance.
  step ltac:(apply hoare_getUser).
  destruct a; finish.
Qed.

Lemma keep_give id args : hoare (Inv I) (complete (on_give env id args)) (fun _ => Inv I).
Proof.
  unfold on_give.
  destruct (negb _); [finish|].
  destruct (_ || _); [finish|].
  destruct (parseUserArg _) as [recipient|]; [|finish].
  destruct (JS.parseInt _) as [amount|]; [|finish].
  destruct (_ || _) eqn:E; [finish|].
  step ltac:(apply (hoare_ensureUser I)).
  apply hoare_complete_suspend.
  step ltac:(apply (hoare_add env I); lia).
  finish.
Qed.

Lemma keep_dig_fish id cmd :
  hoare (Inv I) (complete (on_dig_fish env id cmd)) (fun _ => Inv I).
Proof.
  unfold on_dig_fish.
  step ltac:(apply (hoare_canClaim env I)).
  destruct a; simpl.
  - destruct (String.eqb cmd "dig").
    + step ltac:(by apply hoare_rand).
      apply keep_earn. intros ? [? ?]. split; [done|lia].
    + step ltac:(by apply hoare_rand).
      apply keep_earn. intros ? [? ?]. split; [done|lia].
  - apply (keep_wait _ _ (fun last now => MsgTryAgain _)).
Qed.

Lemma keep_work id args :
  hoare (Inv I) (complete (on_work env id args)) (fun _ => Inv I).
Proof.
  unfold on_work.
  step ltac:(apply (hoare_canClaim env I)).
  destruct a; simpl.
  - eapply hoare_complete_bind with (S := fun _ => Inv I).
    { destruct (missing _).
      - eapply hoare_bind; [by apply (hoare_rand env)|intros ?].
        apply hoare_ret. by intros ? [? _].
      - by apply hoare_ret. }
    intros [job|]; [|finish].
    repeat (destruct (String.eqb _ _);
            [step ltac:(by apply hoare_rand);
             apply keep_earn; intros ? [? ?]; split; [done|lia]|]).
    step ltac:(by apply hoare_rand).
    apply keep_earn. intros ? [? ?]. split; [done|lia].
  - apply (keep_wait _ _ (fun last now => MsgWorkAgain _)).
Qed.

Lemma keep_daily id : hoare (Inv I) (complete (on_daily env id)) (fun _ => Inv I).
Proof.
  unfold on_daily.
  step ltac:(apply (hoare_canClaim env I)).
  destruct a; simpl.
  - step ltac:(by apply hoare_rand).
    apply keep_earn. intros ? [? ?]. split; [done|lia].
  - apply (keep_wait _ _ (fun last now => MsgDailyClaimed _)).
Qed.

Lemma keep_weekly id : hoare (Inv I) (complete (on_weekly env id)) (fun _ => Inv I).
Proof.
  unfold on_weekly.
  step ltac:(apply (hoare_canClaim env I)).
  destruct a; simpl.
  - step ltac:(by apply hoare_rand).
    apply keep_earn. intros ? [? ?]. split; [done|lia].
  - apply (keep_wait _ _ (fun last now => MsgWeeklyClaimed _)).
Qed.

Lemma hoare_rand_any P min max : hoare P (rand env min max) (fun _ => P).
Proof. by intros w Hw. Qed.

Lemma keep_win id bet mult (msg : Reply) :
  0 <= mult →
  hoare (staked I id bet) (complete (db.add env id (bet * mult) ;; send msg)) (fun _ => Inv I).
Proof.
  intros Hm.
  apply (hoare_exploit _ (0 < bet)); [by intros ? (_ & ? & _)|intros Hb].
  apply hoare_weaken_Inv; [by intros ? (? & _)|].
  step ltac:(apply (hoare_add env I); nia).
  finish.
Qed.

Lemma keep_lose id bet (msg : Reply) :
  hoare (staked I id bet) (complete (db.remove env id bet ;; send msg)) (fun _ => Inv I).
Proof.
  eapply hoare_complete_bind with (S := fun _ => Inv I).
  - eapply hoare_pre; [|apply (hoare_remove env I)].
    intros ? (? & ? & ?). split; [done|lia].
  - intros _. finish.
Qed.

Lemma keep_check id bet (k : Check → M (Async Outcome)) :
  (∀ bal, hoare (staked I id bet) (complete (k (Ok bal))) (fun _ => Inv I)) →
  (∀ msg, hoare (Inv I) (complete (k (NotOk msg))) (fun _ => Inv I)) →
  hoare (Inv I) (complete (await chk := stakeAndCheck id bet in k chk)) (fun _ => Inv I).
Proof.
  intros Hok Hno.
  step ltac:(apply (hoare_stakeAndCheck I)).
  apply hoare_complete_suspend. destruct a as [msg|bal].
  - eapply hoare_pre; [|apply Hno]. by intros ? [? _].
  - eapply hoare_pre; [|apply Hok]. by intros ? [? ?].
Qed.

Lemma keep_spin id args : hoare (Inv I) (complete (on_spin env id args)) (fun _ => Inv I).
Proof.
  unfold on_spin. apply keep_check; [intros bal|intros msg; finish].
  step ltac:(apply hoare_Math_random). cbv zeta.
  repeat destruct (Qltb _ _); simpl;
    first [apply keep_lose | by apply keep_win].
Qed.

Lemma keep_casino id args : hoare (Inv I) (complete (on_casino env id args)) (fun _ => Inv I).
Proof.
  unfold on_casino. apply keep_check; [intros bal|intros msg; finish].
  step ltac:(apply hoare_Math_random). cbv zeta.
  repeat destruct (Qltb _ _); simpl;
    first [apply keep_lose | by apply keep_win].
Qed.

Lemma keep_slots id args : hoare (Inv I) (complete (on_slots env id args)) (fun _ => Inv I).
Proof.
  unfold on_slots. apply keep_check; [intros bal|intros msg; finish].
  do 3 step ltac:(apply hoare_rand_any). cbv zeta.
  destruct (_ && _).
  - destruct (Symbol_eqb _ _); by apply keep_win.
  - destruct (_ || _); [by apply keep_win|apply keep_lose].
Qed.

Lemma keep_roulette id args :
  hoare (Inv I) (complete (on_roulette env id args)) (fun _ => Inv I).
Proof.
  unfold on_roulette. apply keep_check; [intros bal|intros msg; finish].
  step ltac:(apply hoare_rand_any). cbv zeta.
  destruct (JS.falsy _); [apply keep_lose|].
  destruct (JS.all_digits _).
  - destruct (match JS.parseInt _ with Some _ => _ | None => _ end);
      [by apply keep_win|apply keep_lose].
  - destruct (String.eqb _ (wheel_color _)); [|apply keep_lose].
    destruct (String.eqb _ _); by apply keep_win.
Qed.

Lemma keep_dispatch id cmd args :
  hoare (Inv I) (complete (dispatch env id cmd args)) (fun _ => Inv I).
Proof.
  unfold dispatch.
  repeat match goal with
         | |- context [if ?b then _ else _] => destruct b
         end;
    first [ apply keep_balance | apply keep_give | apply keep_dig_fish
          | apply keep_work | apply keep_daily | apply keep_weekly
          | apply keep_spin | apply keep_slots | apply keep_roulette
          | apply keep_casino | finish ].
Qed.

(** One call of the handler, run alone. *)
Lemma keep_handler messageText userId :
  hoare (Inv I) (complete (handler env messageText userId)) (fun _ => Inv I).
Proof.
  unfold handler. destruct (_ || _).
  - by apply hoare_complete_return.
  - step ltac:(apply (hoare_ensureUser I)).
    apply hoare_complete_suspend. apply keep_dispatch.
Qed.

End CommandsKeep.

(** ** The store: creation, load failures, history and solvency *)

Lemma perform_keeps env (I : User → Prop) `{!AccountInv I} op :
  unit_draws env →
  hoare (fun users => Inv I users ∧ admissible op users) (perform env op) (fun _ => Inv I).
Proof.
  intros Hd. destruct op as [c|messageText userId]; simpl.
  - destruct c; simpl;
      (eapply hoare_bind; [|intros ?; apply hoare_ret; intros ? H; exact H]).
    + eapply hoare_post; [|apply hoare_getUser]. by intros ? ? [[? _] _].
    + eapply hoare_pre; [|apply (hoare_ensureUser I)]. by intros ? [? _].
    + apply (hoare_exploit _ (0 <= amount)); [by intros ? [_ ?]|intros Ha].
      eapply hoare_pre; [|by apply (hoare_add env I)]. by intros ? [? _].
    + apply (hoare_remove env I).
    + eapply hoare_pre; [|apply (hoare_setCooldown I)]. by intros ? [? _].
    + eapply hoare_pre; [|apply (hoare_getCooldown I)]. by intros ? [? _].
    + eapply hoare_pre; [|apply (hoare_canClaim env I)]. by intros ? [? _].
  - eapply hoare_bind; [|intros ?; apply hoare_ret; intros ? H; exact H].
    eapply hoare_pre; [|by apply (keep_handler env I)]. by intros ? [? _].
Qed.

Lemma balanced_credit u a t : balanced u → balanced (posted u (gold u + a) t a).
Proof. unfold balanced. simpl. rewrite replay_app. simpl. lia. Qed.

Lemma balanced_debit u a t :
  balanced u → a <= gold u → balanced (posted u (Z.max 0 (gold u - a)) t (- a)).
Proof. unfold balanced. simpl. rewrite replay_app. simpl. lia. Qed.

Lemma perform_balanced env op :
  unit_draws env →
  hoare (fun users =>
           Inv balanced users ∧
           match op with
           | Direct (CallRemove id amount) => amount <= gold (acct users id)
           | _ => True
           end)
        (perform env op) (fun _ => Inv balanced).
Proof.
  intros Hd.
  destruct op as [[id|id|id amount|id amount|id key t|id key|id key ms]|messageText userId];
    try (eapply hoare_pre; [|by apply (perform_keeps env balanced)];
         by intros ? [? _]).
  - intros w [Hw _]. simpl. unfold bind. rewrite add_eq. simpl.
    apply Inv_insert; [done|]. apply balanced_credit. by apply (Inv_acct balanced).
  - intros w [Hw Ha]. simpl. unfold bind. rewrite remove_eq. simpl.
    apply Inv_insert; [done|]. apply balanced_debit; [by apply (Inv_acct balanced)|done].
Qed.

Lemma unit_draws_sample x : (0 <= x)%Q → (x < 1)%Q → unit_draws (sample_env x).
Proof. intros H0 H1 n. by split. Qed.

(** On the names that are no members of [Object.prototype] the lookups
    of JavaScript are the lookups of the finite map. *)
Lemma get_ordinary {A} (o : gmap string A) name :
  JS.inherited name = false →
  obj.get o name = match o !! name with Some a => obj.Own a | None => obj.Missing end.
Proof. intros H. unfold obj.get. by rewrite H. Qed.

Lemma obj_getUser_eq id w :
  JS.inherited id = false →
  obj.getUser id w
  = (match (db.getUser id w).1 with Some u => obj.Own u | None => obj.Missing end,
     (db.getUser id w).2).
Proof.
  intros H. unfold obj.getUser, db.getUser, bind. rewrite load_eq. cbn [ret fst snd].
  by rewrite get_ordinary.
Qed.

Lemma obj_ensureUser_eq id w :
  JS.inherited id = false →
  obj.ensureUser id w = (obj.Own (db.ensureUser id w).1, (db.ensureUser id w).2).
Proof.
  intros H. unfold obj.ensureUser, db.ensureUser, bind. rewrite load_eq.
  rewrite get_ordinary by done.
  destruct (users_of (disk w) !! id); [done|]. by rewrite save_eq.
Qed.

Lemma obj_getCooldown_eq id key w :
  JS.inherited id = false → JS.inherited key = false →
  obj.getCooldown id key w = (obj.Own (db.getCooldown id key w).1, (db.getCooldown id key w).2).
Proof.
  intros Hi Hk. unfold obj.getCooldown, db.getCooldown, bind.
  rewrite obj_ensureUser_eq by done. destruct (db.ensureUser id w) as [u w1].
  cbn [fst snd]. rewrite get_ordinary by done. by destruct (cooldowns u !! key).
Qed.

(** An id that names a member of [Object.prototype] and has no account:
    the guard [!db.users[userId]] finds the member, so no account is
    created, and the member is what [ensureUser] returns, not a record with
    balance 0. *)
Lemma ensureUser_finds_prototype_member :
  let w := {| disk := Stored ∅; ticks := 0; draws := 0 |} in
  let r := obj.ensureUser "constructor" w in
  users_of (disk w) !! "constructor"%string = None ∧
  r.1 = obj.Member "constructor" ∧
  r.1 ≠ obj.Own {| gold := 0; cooldowns := ∅; history := [] |} ∧
  users_of (disk r.2) !! "constructor"%string = None.
Proof. cbv zeta. split; [done|]. split; [done|]. split; [|done]. by vm_compute. Qed.

(** C9, as the code has it.  For an id that names no member of
    [Object.prototype], [ensureUser] is idempotent: a second call returns
    the same record and leaves the world as the first call left it; on an id
    without an account the first call adds exactly one account, with balance
    0, no cooldowns and no history, and on an id with an account it returns
    that account and changes nothing. *)
Theorem ensureUser_idempotent (id : string) (w : World) :
  JS.inherited id = false →
  let r1 := obj.ensureUser id w in
  let r2 := obj.ensureUser id r1.2 in
  r2 = r1 ∧
  (users_of (disk w) !! id = None →
     r1.1 = obj.Own {| gold := 0; cooldowns := ∅; history := [] |} ∧
     users_of (disk r1.2) = <[id := db.fresh]> (users_of (disk w)) ∧
     size (users_of (disk r1.2)) = S (size (users_of (disk w)))) ∧
  (∀ u, users_of (disk w) !! id = Some u → r1 = (obj.Own u, w)).
Proof.
  intros Hid. cbv zeta. rewrite !obj_ensureUser_eq by done. rewrite !ensureUser_eq.
  cbn [fst snd disk with_disk users_of ticks draws].
  split; [|split].
  - rewrite acct_touch. unfold with_disk. cbn [disk ticks draws]. do 3 f_equal.
    unfold touch at 1. by rewrite lookup_touch.
  - intros Hnone. unfold acct, touch. rewrite Hnone. simpl.
    split; [done|]. split; [done|]. by apply map_size_insert_None.
  - intros u Hu. unfold acct, touch. rewrite Hu. simpl.
    destruct w as [[] ? ?]; simpl in *; try done.
Qed.

Lemma ensureUser_idempotent_witness :
  let r1 := obj.ensureUser "15550002222" new_world in
  let r2 := obj.ensureUser "15550002222" r1.2 in
  r2 = r1 ∧ r1.1 = obj.Own {| gold := 0; cooldowns := ∅; history := [] |}.
Proof.
  destruct (ensureUser_idempotent "15550002222" new_world eq_refl) as (H1 & H2 & _).
  split; [exact H1|]. by apply H2.
Defined.

(** On a store that failed to load, [getUser] and [getCooldown] find the
    members of [Object.prototype]: for the id [constructor] the one returns
    the member and not [null], and for the key [toString] the other returns
    the member and not 0. *)
Lemma failed_load_finds_prototype_members :
  let w := {| disk := Unparsable; ticks := 0; draws := 0 |} in
  failed (disk w) = true ∧
  (obj.getUser "constructor" w).1 = obj.Member "constructor" ∧
  (obj.getUser "constructor" w).1 ≠ obj.Missing ∧
  (obj.getCooldown "15550002222" "toString" w).1 = obj.Member "toString" ∧
  (obj.getCooldown "15550002222" "toString" w).1 ≠ obj.Own 0.
Proof. cbv zeta. repeat split; by vm_compute. Qed.

(** C10, as the code has it.  When the store file is absent, unreadable
    or not JSON, and can be written, the store behaves as on an empty
    collection for the ids and keys that name no member of
    [Object.prototype]: [getUser] returns null and [getCooldown] returns 0,
    every call returns what it returns on the empty store and leaves the
    same accounts, and a call that writes persists a store that holds its
    own account only. *)
Theorem load_failure_is_empty_store (env : Env) (w : World) :
  failed (disk w) = true →
  (∀ id, JS.inherited id = false → (obj.getUser id w).1 = obj.Missing) ∧
  (∀ id key, JS.inherited id = false → JS.inherited key = false →
     (obj.getCooldown id key w).1 = obj.Own 0) ∧
  (∀ c, ordinary c →
        (call env c w).1 = (call env c (with_disk (Stored ∅) w)).1 ∧
        users_of (disk (call env c w).2)
        = users_of (disk (call env c (with_disk (Stored ∅) w)).2)) ∧
  (∀ c id, ordinary c → target c = Some id →
           ∃ u, disk (call env c w).2 = Stored {[ id := u ]}).
Proof.
  intros Hf.
  assert (Hu : users_of (disk w) = ∅) by (by destruct (disk w)).
  split; [|split; [|split]].
  - intros id Hid. rewrite obj_getUser_eq by done. rewrite getUser_eq. simpl. by rewrite Hu.
  - intros id key Hid Hkey. rewrite obj_getCooldown_eq by done.
    rewrite getCooldown_eq. simpl. by rewrite Hu.
  - intros c _. destruct c; simpl; unfold bind;
      rewrite ?getUser_eq, ?ensureUser_eq, ?add_eq, ?remove_eq, ?setCooldown_eq,
        ?getCooldown_eq, ?canClaim_eq; unfold ret;
      cbn [fst snd disk with_disk ticked users_of ticks draws];
      rewrite ?Hu, ?users_of_created, ?Hu; try done;
      by destruct (_ =? 0).
  - intros c id _ Ht. destruct c; simpl in Ht; simplify_eq; simpl; unfold bind;
      rewrite ?ensureUser_eq, ?add_eq, ?remove_eq, ?setCooldown_eq,
        ?getCooldown_eq, ?canClaim_eq; unfold ret;
      cbn [fst snd disk with_disk ticked users_of ticks draws];
      rewrite ?Hu; unfold touch; rewrite ?lookup_empty; simpl; eauto.
Qed.

Lemma load_failure_is_empty_store_witness :
  let w := {| disk := Unparsable; ticks := 0; draws := 0 |} in
  failed (disk w) = true ∧
  (obj.getUser "15550002222" w).1 = obj.Missing ∧
  (obj.getCooldown "15550002222" "daily" w).1 = obj.Own 0.
Proof.
  pose proof (load_failure_is_empty_store (sample_env 0)
                {| disk := Unparsable; ticks := 0; draws := 0 |} eq_refl) as (H1 & H2 & _).
  split; [reflexivity|]. split; [by apply H1|by apply H2].
Defined.

Lemma perform_solvent env op :
  unit_draws env → plain_amount op →
  hoare (Inv solvent) (perform env op) (fun _ => Inv solvent).
Proof.
  intros Hd Hop.
  destruct op as [[id|id|id amount|id amount|id key t|id key|id key ms]|messageText userId];
    try (eapply hoare_pre; [|by apply (perform_keeps env solvent)];
         by intros ? ?).
  intros w Hw. simpl. unfold bind. rewrite remove_eq. simpl.
  apply Inv_insert; [done|]. unfold solvent. simpl. lia.
Qed.

(** C3. Starting from a store whose balances are not negative (the empty
    store is one), after every operation of every sequence of handled
    messages and direct store calls whose credit and debit amounts are not
    negative, every balance is [>= 0]; a debit that asks for more than the
    balance leaves the balance at zero. *)
Theorem balance_never_negative (env : Env) (ops : list Op) (w : World) :
  unit_draws env →
  Forall plain_amount ops →
  Inv solvent (users_of (disk w)) →
  (∀ n, Inv solvent (users_of (disk (perform_all env (take n ops) w)))) ∧
  (∀ id amount w',
     gold (acct (users_of (disk w')) id) < amount →
     (db.remove env id amount w').1 = 0 ∧
     gold (acct (users_of (disk (db.remove env id amount w').2)) id) = 0).
Proof.
  intros Hd Hops Hw. split.
  - intros n. revert w Hw n. induction Hops as [|op ops Hop Hops IH]; intros w Hw n.
    + by rewrite take_nil.
    + destruct n as [|n]; [done|]. simpl. apply IH.
      by apply (perform_solvent env op Hd Hop w).
  - intros id amount w' Hlt. rewrite remove_eq.
    cbn [fst snd disk ticked with_disk users_of]. split; [lia|].
    unfold acct at 1. rewrite lookup_insert_eq. simpl. lia.
Qed.

Lemma balance_never_negative_witness :
  let env := sample_env (6 # 10) in
  let ops := [Command ".daily" "15550002222";
              Command ".spin 100" "15550002222";
              Direct (CallRemove "15550002222" 5000)] in
  gold (acct (users_of (disk (perform_all env ops new_world))) "15550002222") = 0 ∧
  Inv solvent (users_of (disk (perform_all env ops new_world))).
Proof.
  split; [vm_compute; reflexivity|].
  refine (proj1 (balance_never_negative (sample_env (6 # 10))
                   [Command ".daily" "15550002222";
                    Command ".spin 100" "15550002222";
                    Direct (CallRemove "15550002222" 5000)] new_world _ _ _) 3%nat).
  - apply unit_draws_sample; vm_compute; congruence.
  - repeat constructor. simpl. lia.
  - simpl. apply (Inv_empty solvent).
Defined.




(** ** One message handled alone: what each command does *)

Section Alone.

Variable env : Env.
Implicit Types (w : World) (id key : string).

Lemma complete_bind_eq {A R} (m : M A) (k : A → M (Async R)) w :
  complete (bind m k) w = complete (k (m w).1) (m w).2.
Proof. unfold complete, bind. by destruct (m w). Qed.

Lemma complete_suspend_eq {R} (k : M (Async R)) w :
  complete (ret (Suspend k)) w = complete k w.
Proof. reflexivity. Qed.

Lemma complete_send_eq txt w : complete (send txt) w = (Sent txt, w).
Proof. reflexivity. Qed.

Lemma handler_eq messageText userId cmd args w :
  JS.falsy messageText = false → JS.falsy userId = false →
  command_of messageText = (cmd, args) →
  complete (handler env messageText userId) w
  = complete (dispatch env userId cmd args)
      (with_disk (Stored (touch userId (users_of (disk w)))) w).
Proof.
  intros Hm Hu [= <- <-]. unfold handler. rewrite Hm, Hu. simpl.
  rewrite complete_bind_eq, ensureUser_eq. reflexivity.
Qed.

Lemma stakeAndCheck_eq id bet w :
  let bal := gold (acct (users_of (disk w)) id) in
  stakeAndCheck id bet w
  = (if bet <=? 0 then NotOk MsgSpecifyBet
     else if bal <? bet then NotOk (MsgInsufficient bal)
     else Ok bal,
     with_disk (created (disk w)) w).
Proof.
  intros bal. unfold stakeAndCheck, bind. rewrite getUser_eq.
  subst bal. unfold acct. destruct (users_of (disk w) !! id); simpl;
    repeat destruct (_ <=? _); repeat destruct (_ <? _); reflexivity.
Qed.

(** A debit followed by its reply. *)
Lemma lose_eq id bet txt w :
  let u := acct (users_of (disk w)) id in
  complete (db.remove env id bet ;; send txt) w
  = (Sent txt,
     ticked (with_disk (Stored (<[id := posted u (Z.max 0 (gold u - bet))
                                           (clock env (ticks w)) (- bet)]>
                                  (users_of (disk w)))) w)).
Proof. intros u. rewrite complete_bind_eq, remove_eq. reflexivity. Qed.

(** A credit followed by its reply. *)
Lemma win_eq id amount txt w :
  let u := acct (users_of (disk w)) id in
  complete (db.add env id amount ;; send txt) w
  = (Sent txt,
     ticked (with_disk (Stored (<[id := posted u (gold u + amount)
                                           (clock env (ticks w)) amount]>
                                  (users_of (disk w)))) w)).
Proof. intros u. rewrite complete_bind_eq, add_eq. reflexivity. Qed.

Lemma settles_lose id bet txt w :
  is_decline txt = false → bet <= gold (acct (users_of (disk w)) id) →
  settles env id bet w (complete (db.remove env id bet ;; send txt) w).
Proof.
  intros Htxt Hle. rewrite lose_eq. exists txt, (- bet). simpl.
  split; [done|]. split; [done|]. split; [by left|].
  do 2 f_equal. lia.
Qed.

Lemma settles_win id bet mult txt w :
  is_decline txt = false → 2 <= mult →
  settles env id bet w (complete (db.add env id (bet * mult) ;; send txt) w).
Proof.
  intros Htxt Hm. rewrite win_eq. exists txt, (bet * mult). simpl.
  split; [done|]. split; [done|]. split; [right; by exists mult|done].
Qed.

(** Drawing does not change the account or the clock. *)
Lemma settles_drawn id bet w res : settles env id bet (drawn w) res → settles env id bet w res.
Proof. done. Qed.

Ltac settle :=
  lazymatch goal with
  | |- context [db.remove] => apply settles_lose; [reflexivity|assumption]
  | |- _ => apply settles_win; [reflexivity|lia]
  end.

(** The four wagers start alike: the bet is parsed and checked, and the
    call is suspended; a failed check is answered with its message, and
    after a passed check over a covered bet the wager is settled. *)
Lemma wager_check cmd id args :
  In cmd wagers →
  ∃ k : Check → M (Async Outcome),
    dispatch env id cmd args
    = (await chk := stakeAndCheck id (parseBet (arg args 0)) in k chk) ∧
    (∀ msg, k (NotOk msg) = send msg) ∧
    (∀ bal w, parseBet (arg args 0) <= gold (acct (users_of (disk w)) id) →
              settles env id (parseBet (arg args 0)) w (complete (k (Ok bal)) w)).
Proof.
  intros Hin. simpl in Hin.
  destruct Hin as [<-|[<-|[<-|[<-|[]]]]]; eexists; (split; [reflexivity|]);
    (split; [reflexivity|]); intros bal w Hle; cbv beta iota zeta.
  - rewrite complete_bind_eq. apply settles_drawn. cbn [fst snd Math_random].
    repeat destruct (Qltb _ _); simpl; settle.
  - rewrite !complete_bind_eq. do 3 apply settles_drawn. cbn [fst snd rand Math_random bind ret].
    destruct (_ && _).
    + destruct (Symbol_eqb _ (Some Seven)); settle.
    + destruct (_ || _); settle.
  - rewrite complete_bind_eq. apply settles_drawn. cbn [fst snd rand Math_random bind ret].
    destruct (JS.falsy _); [settle|].
    destruct (JS.all_digits _).
    + destruct (match JS.parseInt _ with Some _ => _ | None => _ end); settle.
    + destruct (String.eqb _ (wheel_color _)); [|settle].
      destruct (String.eqb _ _); settle.
  - rewrite complete_bind_eq. apply settles_drawn. cbn [fst snd Math_random].
    repeat destruct (Qltb _ _); simpl; settle.
Qed.

End Alone.

(** One wager handled alone, whatever the bet: a bet of 0 or less is
    answered with the request for a bet, a positive bet above the balance
    with the report of insufficient funds, both without a write besides the
    first [ensureUser]; a positive bet that the balance covers is settled. *)
Lemma wager_alone (env : Env) (messageText userId cmd : string)
    (args : list string) (w : World) :
  JS.falsy messageText = false → JS.falsy userId = false →
  command_of messageText = (cmd, args) →
  In cmd wagers →
  let bet := parseBet (arg args 0) in
  let bal := gold (acct (users_of (disk w)) userId) in
  let res := complete (handler env messageText userId) w in
  (bet <= 0 → res = (Sent MsgSpecifyBet, (db.ensureUser userId w).2)) ∧
  (0 < bet → bal < bet → res = (Sent (MsgInsufficient bal), (db.ensureUser userId w).2)) ∧
  (0 < bet → bet <= bal → settles env userId bet w res) ∧
  (is_Some (users_of (disk w) !! userId) → (db.ensureUser userId w).2 = w).
Proof.
  intros Hm Hu Hc Hin bet bal res. subst res.
  rewrite (handler_eq env _ _ _ _ _ Hm Hu Hc).
  destruct (wager_check env cmd userId args Hin) as (k & -> & Hno & Hok).
  rewrite complete_bind_eq, stakeAndCheck_eq.
  cbn [fst snd disk with_disk created users_of ticks draws].
  rewrite acct_touch. fold bet bal.
  assert (Hacc : bet <= bal →
            settles env userId bet w
              (complete (k (Ok bal))
                 (with_disk (Stored (touch userId (users_of (disk w)))) w))).
  { intros Hle.
    specialize (Hok bal (with_disk (Stored (touch userId (users_of (disk w)))) w)).
    cbn [disk with_disk users_of] in Hok. rewrite acct_touch in Hok.
    destruct (Hok Hle) as (txt & d & H1 & H2 & H3 & H4).
    exists txt, d. repeat (split; [done|]).
    rewrite H4. cbn [disk with_disk users_of ticks]. rewrite acct_touch.
    by rewrite insert_touch. }
  rewrite complete_suspend_eq, ensureUser_eq. cbn [snd].
  split; [|split; [|split]].
  - intros H0. destruct (bet <=? 0) eqn:E0; [|lia]. by rewrite Hno, complete_send_eq.
  - intros H0 H1. destruct (bet <=? 0) eqn:E0; [lia|].
    destruct (bal <? bet) eqn:E1; [|lia]. by rewrite Hno, complete_send_eq.
  - intros H0 H1. destruct (bet <=? 0) eqn:E0; [lia|].
    destruct (bal <? bet) eqn:E1; [lia|]. by apply Hacc.
  - intros [u Hu']. unfold touch. rewrite Hu'. destruct w as [[] ? ?]; simpl in *; done.
Qed.




Lemma Qltb_true x y : Qltb x y = true ↔ (x < y)%Q.
Proof.
  unfold Qltb. rewrite negb_true_iff, <- not_true_iff_false, Qle_bool_iff.
  split; [apply Qnot_le_lt|apply Qlt_not_le].
Qed.

Lemma Qltb_false x y : Qltb x y = false ↔ (y <= x)%Q.
Proof. unfold Qltb. by rewrite negb_false_iff, Qle_bool_iff. Qed.

(** After the handler's first [ensureUser], an accepted check leaves the
    world as it is. *)
Lemma accepted_check_eq id bet w :
  0 < bet → bet <= gold (acct (users_of (disk w)) id) →
  stakeAndCheck id bet (with_disk (Stored (touch id (users_of (disk w)))) w)
  = (Ok (gold (acct (users_of (disk w)) id)),
     with_disk (Stored (touch id (users_of (disk w)))) w).
Proof.
  intros Hpos Hle. rewrite stakeAndCheck_eq.
  cbn [disk with_disk created users_of ticks draws]. rewrite acct_touch.
  destruct (bet <=? 0) eqn:E0; [lia|]. destruct (_ <? bet) eqn:E1; [lia|]. done.
Qed.



Lemma floor_range (env : Env) (i : nat) (n : Z) :
  (0 <= random env i)%Q → (random env i < 1)%Q → 0 < n →
  0 <= Qfloor (JS.times (draw env i) (inject_Z n)) < n.
Proof. intros _ H1 Hn. by apply draw_floor. Qed.

Lemma wheel_color_green n : wheel_color n = "green"%string ↔ n = 0.
Proof.
  unfold wheel_color. destruct (n =? 0) eqn:E.
  - split; [lia|done].
  - split; [|lia]. by destruct (_ mod 2 =? 0).
Qed.



(** *** Earning commands and their cooldowns *)

Lemma ceil_div_pos a b : 0 < a → 0 < b → 0 < JS.ceil_div a b.
Proof.
  intros Ha Hb. unfold JS.ceil_div.
  assert ((- a) / b < 0); [|lia]. apply Z.div_lt_upper_bound; lia.
Qed.

Lemma ceil_div_mono a a' b : 0 < b → a <= a' → JS.ceil_div a b <= JS.ceil_div a' b.
Proof.
  intros Hb Ha. unfold JS.ceil_div.
  assert ((- a') / b <= (- a) / b); [|lia]. apply Z.div_le_mono; lia.
Qed.

Lemma touch_touch id users : touch id (touch id users) = touch id users.
Proof. unfold touch at 1. by rewrite lookup_touch. Qed.

Section Earning.

Variable env : Env.
Implicit Types (w : World) (id key : string).

(** The reply of a command that is still cooling down. *)
Lemma wait_eq id key (f : Z → Z → Reply) w :
  complete (let* last := db.getCooldown id key in
            let* now := Date_now env in
            send (f last now)) w
  = (Sent (f (default 0 (cooldowns (acct (users_of (disk w)) id) !! key))
             (clock env (ticks w))),
     ticked (with_disk (Stored (touch id (users_of (disk w)))) w)).
Proof. rewrite complete_bind_eq, getCooldown_eq. reflexivity. Qed.

(** The credit and the stamp of a granted command. *)
Lemma earn_eq id key reward txt w :
  let u := acct (users_of (disk w)) id in
  complete (db.add env id reward ;;
            let* now := Date_now env in
            db.setCooldown id key now ;;
            send txt) w
  = (Sent txt,
     ticked (ticked
       (with_disk
          (Stored (<[id := stamped (posted u (gold u + reward) (clock env (ticks w)) reward)
                             key (clock env (S (ticks w)))]> (users_of (disk w)))) w))).
Proof.
  intros u. rewrite complete_bind_eq, add_eq. cbn [fst snd].
  rewrite complete_bind_eq. cbn [fst snd Date_now ticked with_disk disk ticks draws].
  rewrite complete_bind_eq, setCooldown_eq.
  cbn [fst snd ticked with_disk disk ticks draws users_of].
  unfold acct at 1. rewrite lookup_insert_eq, insert_insert_eq. reflexivity.
Qed.

End Earning.

Section Gate.

Variable env : Env.
Hypothesis draws_ok : unit_draws env.
Implicit Types (w : World) (id key : string).

Lemma granted_earn id key reward txt users w :
  users_of (disk w) = touch id users → is_grant txt = true → 0 < reward →
  granted env id key users
    (complete (db.add env id reward ;;
               let* now := Date_now env in
               db.setCooldown id key now ;;
               send txt) w).
Proof.
  intros Hw Htxt Hr. rewrite earn_eq.
  exists reward, txt, (ticks w), (S (ticks w)).
  cbn [fst snd ticked with_disk disk users_of]. rewrite Hw, acct_touch, insert_touch.
  done.
Qed.

Lemma granted_rand id key min max (txt : Z → Reply) users w :
  users_of (disk w) = touch id users → (∀ r, is_grant (txt r) = true) →
  0 < min <= max →
  granted env id key users
    (complete (let* reward := rand env min max in
               db.add env id reward ;;
               let* now := Date_now env in
               db.setCooldown id key now ;;
               send (txt reward)) w).
Proof.
  intros Hw Htxt Hm. rewrite complete_bind_eq. apply granted_earn; [done|done|].
  pose proof (rand_range env (draws w) min max) as H.
  cbn [fst rand Math_random bind ret]. lia.
Qed.

(** The gate in front of every earning command, after the handler's first
    [ensureUser]. *)
Lemma gate_eq id key ms (k : bool → M (Async Outcome)) w :
  let last := default 0 (cooldowns (acct (users_of (disk w)) id) !! key) in
  let w1 := with_disk (Stored (touch id (users_of (disk w)))) w in
  complete (let* ok := db.canClaim env id key ms in k ok) w1
  = if last =? 0 then complete (k true) w1
    else complete (k (ms <=? clock env (ticks w) - last)) (ticked w1).
Proof.
  intros last w1. rewrite complete_bind_eq, canClaim_eq.
  cbn [disk with_disk users_of ticks w1]. rewrite acct_touch, touch_touch.
  fold last w1. by destruct (last =? 0).
Qed.

Lemma index_jobs (n : nat) :
  is_Some (index jobs (Qfloor (JS.times (draw env n)
                                 (inject_Z (Z.of_nat (length jobs) - 1 - 0 + 1))) + 0)).
Proof.
  destruct (draws_ok n) as [H0 H1].
  pose proof (floor_range env n 5 H0 H1 eq_refl) as H.
  change (Z.of_nat (length jobs) - 1 - 0 + 1) with 5.
  set (i := Qfloor (JS.times (draw env n) (inject_Z 5))) in *. rewrite Z.add_0_r.
  assert (Hi : i = 0 ∨ i = 1 ∨ i = 2 ∨ i = 3 ∨ i = 4) by lia.
  destruct Hi as [->|[->|[->|[->| ->]]]]; by eexists.
Qed.

Lemma granted_work id args users w :
  users_of (disk w) = touch id users →
  granted env id "work" users
    (complete
       (let* job :=
          if missing (arg args 0)
          then (let* i := rand env 0 (Z.of_nat (length jobs) - 1) in
                ret (index jobs i))
          else ret (arg args 0) in
        match job with
        | None => ret (Return Threw)
        | Some job =>
            let job' := JS.toLowerCase job in
            let* reward :=
              if String.eqb job' "developer" then rand env 150 350
              else if String.eqb job' "miner" then rand env 100 300
              else if String.eqb job' "chef" then rand env 60 200
              else if String.eqb job' "driver" then rand env 50 180
              else if String.eqb job' "artist" then rand env 40 150
              else rand env 50 200 in
            db.add env id reward ;;
            let* now := Date_now env in
            db.setCooldown id "work" now ;;
            send (MsgWorked job reward)
        end) w).
Proof.
  intros Hw. rewrite complete_bind_eq.
  assert (∃ job w', users_of (disk w') = touch id users ∧
            ((if missing (arg args 0)
              then (let* i := rand env 0 (Z.of_nat (length jobs) - 1) in
                    ret (index jobs i))
              else ret (arg args 0)) w) = (Some job, w')) as (job & w' & Hw' & ->).
  { destruct (arg args 0) as [a|] eqn:Ea; simpl.
    - destruct (JS.falsy a) eqn:Ef.
      + destruct (index_jobs (draws w)) as [job Hj].
        exists job, (drawn w). split; [done|].
        unfold rand, Math_random, bind, ret. cbv beta iota. f_equal. exact Hj.
      + by exists a, w.
    - destruct (index_jobs (draws w)) as [job Hj].
      exists job, (drawn w). split; [done|].
      unfold rand, Math_random, bind, ret. cbv beta iota. f_equal. exact Hj. }
  cbn [fst snd]. cbv zeta.
  repeat match goal with
         | |- context [String.eqb ?a ?b] => destruct (String.eqb a b)
         end;
    apply (granted_rand id "work" _ _ (fun r => MsgWorked job r)); done.
Qed.

End Gate.

Lemma touch_claimed id key users :
  default 0 (cooldowns (acct users id) !! key) ≠ 0 → touch id users = users.
Proof.
  unfold acct, touch. destruct (users !! id); [done|]. simpl.
  rewrite lookup_empty. simpl. lia.
Qed.

Lemma cooldown_cases cmd P unit :
  cooldown_of cmd = Some (P, unit) →
  (cmd = "dig" ∧ P = 30 * 60 * 1000 ∧ unit = 60000) ∨
  (cmd = "fish" ∧ P = 30 * 60 * 1000 ∧ unit = 60000) ∨
  (cmd = "work" ∧ P = 60 * 60 * 1000 ∧ unit = 60000) ∨
  (cmd = "daily" ∧ P = MS_DAY ∧ unit = 3600 * 1000) ∨
  (cmd = "weekly" ∧ P = MS_WEEK ∧ unit = MS_DAY).
Proof.
  unfold cooldown_of.
  destruct (String.eqb cmd "dig") eqn:E1; [apply String.eqb_eq in E1; intros [= <- <-]; tauto|].
  destruct (String.eqb cmd "fish") eqn:E2; [apply String.eqb_eq in E2; intros [= <- <-]; tauto|].
  destruct (String.eqb cmd "work") eqn:E3; [apply String.eqb_eq in E3; intros [= <- <-]; tauto|].
  destruct (String.eqb cmd "daily") eqn:E4; [apply String.eqb_eq in E4; intros [= <- <-]; tauto|].
  destruct (String.eqb cmd "weekly") eqn:E5; [apply String.eqb_eq in E5; intros [= <- <-]; tauto|].
  done.
Qed.

Section GateOutcome.

Variable env : Env.
Implicit Types (w : World) (id key : string).

(** What a gated command does, after the handler's first [ensureUser]:
    [pay] runs when the claim is granted. *)
Lemma gate_outcome id key P unit (fwait : Z → Reply) (pay : M (Async Outcome)) w :
  0 < unit →
  (∀ w2, users_of (disk w2) = touch id (users_of (disk w)) →
         granted env id key (users_of (disk w)) (complete pay w2)) →
  let users := users_of (disk w) in
  let t0 := default 0 (cooldowns (acct users id) !! key) in
  let t := clock env (ticks w) in
  let t' := clock env (S (ticks w)) in
  let wait := JS.ceil_div (P - (t' - t0)) unit in
  let res :=
    complete
      (let* ok := db.canClaim env id key P in
       if negb ok then
         let* last := db.getCooldown id key in
         let* now := Date_now env in
         send (fwait (JS.ceil_div (P - (now - last)) unit))
       else pay)
      (with_disk (Stored (touch id users)) w) in
  (t0 ≠ 0 → t - t0 < P →
     res.1 = Sent (fwait wait) ∧ users_of (disk res.2) = users ∧
     (t0 <= t' → t' - t0 < P → 0 < wait <= JS.ceil_div P unit) ∧
     (P <= t' - t0 → wait <= 0)) ∧
  ((t0 = 0 ∨ P <= t - t0) → granted env id key users res).
Proof.
  intros Hunit Hpay. cbv zeta. rewrite gate_eq.
  set (users := users_of (disk w)).
  set (t0 := default 0 (cooldowns (acct users id) !! key)).
  set (t := clock env (ticks w)).
  set (t' := clock env (S (ticks w))).
  set (wait := JS.ceil_div (P - (t' - t0)) unit).
  destruct (t0 =? 0) eqn:E0.
  - split; [lia|]. intros _. cbn [negb]. by apply Hpay.
  - destruct (P <=? t - t0) eqn:E1.
    + split; [lia|]. intros _. cbn [negb]. by apply Hpay.
    + split; [|lia]. intros _ _. cbn [negb].
      rewrite (wait_eq env id key (fun last now => fwait (JS.ceil_div (P - (now - last)) unit))).
      cbn [fst snd disk ticked with_disk users_of ticks].
      rewrite acct_touch, touch_touch. fold users t0 t' wait.
      split; [done|]. split; [apply (touch_claimed id key); fold t0; lia|].
      split.
      * intros H1 H2. split; [apply ceil_div_pos; lia|apply ceil_div_mono; lia].
      * intros H1. apply (Z.le_trans _ (JS.ceil_div 0 unit)); [apply ceil_div_mono; lia|done].
Qed.

End GateOutcome.




(** *** Bets that are not positive numbers *)

Lemma parseBet_number a :
  parseBet a = match bet_number a with
               | None => 0
               | Some num => Z.max 1 num
               end.
Proof.
  destruct a as [s|]; simpl; [|done]. by destruct (JS.falsy s).
Qed.




(** ** Calls that run together *)

Lemma done_count_bound phs : 0 <= done_count phs <= Z.of_nat (length phs).
Proof.
  induction phs as [|n phs IH]; simpl; [lia|]. destruct (Nat.eqb n 3); lia.
Qed.

Lemma done_count_pending phs i n :
  phs !! i = Some n → n ≠ 3%nat → done_count phs <= Z.of_nat (length phs) - 1.
Proof.
  revert i. induction phs as [|m phs IH]; intros [|i] H Hn; simpl in *; try done.
  - injection H as ->. destruct (Nat.eqb_spec n 3); [done|].
    pose proof (done_count_bound phs). lia.
  - specialize (IH i H Hn). destruct (Nat.eqb m 3); lia.
Qed.

Lemma done_count_insert phs i n m :
  phs !! i = Some n →
  done_count (<[i := m]> phs)
  = done_count phs - (if Nat.eqb n 3 then 1 else 0) + (if Nat.eqb m 3 then 1 else 0).
Proof.
  revert i. induction phs as [|p phs IH]; intros [|i] H; simpl in *; try done.
  - injection H as ->. lia.
  - rewrite (IH i H). lia.
Qed.

Lemma done_count_all phs :
  Forall (fun n => n = 3%nat) phs → done_count phs = Z.of_nat (length phs).
Proof.
  induction 1 as [|n phs -> _ IH]; simpl; lia.
Qed.

Lemma done_count_replicate n : done_count (replicate n 0%nat) = 0.
Proof. induction n as [|n IH]; simpl; [done|]. by rewrite IH. Qed.

Lemma advance_lookup i j phs :
  advance i phs !! j
  = (fun n => if decide (i = j) then Nat.min 3 (S n) else n) <$> phs !! j.
Proof.
  unfold advance. destruct (phs !! i) as [n|] eqn:E.
  - destruct (decide (i = j)) as [<-|Hne].
    + rewrite list_lookup_insert_eq by (by eapply lookup_lt_Some). by rewrite E.
    + rewrite list_lookup_insert_ne by done. by destruct (phs !! j).
  - destruct (decide (i = j)) as [<-|Hne]; [by rewrite E|]. by destruct (phs !! j).
Qed.

Lemma phases_lookup sched phs j :
  (∀ n, phs !! j = Some n → (n <= 3)%nat) →
  foldl (fun phs i => advance i phs) phs sched !! j
  = (fun n => Nat.min 3 (n + count_occ Nat.eq_dec sched j)) <$> phs !! j.
Proof.
  revert phs. induction sched as [|i sched IH]; intros phs Hle; cbn [foldl].
  - change (count_occ Nat.eq_dec [] j) with 0%nat.
    destruct (phs !! j) as [n|] eqn:E; [|done].
    cbn [fmap option_fmap option_map]. f_equal. specialize (Hle n eq_refl). lia.
  - rewrite IH, advance_lookup.
    + destruct (phs !! j) as [n|]; [|done].
      cbn [fmap option_fmap option_map]. f_equal. specialize (Hle n eq_refl).
      destruct (decide (i = j)) as [->|Hne].
      * rewrite count_occ_cons_eq by done. lia.
      * rewrite count_occ_cons_neq by done. lia.
    + intros n. rewrite advance_lookup. destruct (phs !! j) as [m|]; [|done].
      cbn [fmap option_fmap option_map].
      intros Heq. apply (inj Some) in Heq. subst n.
      specialize (Hle m eq_refl). destruct (decide (i = j)); lia.
Qed.

Lemma handler_first env messageText userId cmd args :
  JS.falsy messageText = false → JS.falsy userId = false →
  command_of messageText = (cmd, args) →
  ∀ w, handler env messageText userId w
       = (Suspend (dispatch env userId cmd args),
          with_disk (Stored (touch userId (users_of (disk w)))) w).
Proof.
  intros Hm Hu Hc w. unfold handler. rewrite Hm, Hu. cbn [orb]. unfold bind.
  rewrite ensureUser_eq. unfold command_of in Hc. by injection Hc as -> ->.
Qed.

(** ** Further properties of the store *)

(** X1. A cooldown that was set is the cooldown that is read, for user ids
    and keys that name no member of [Object.prototype]: after
    [setCooldown id key t], [getCooldown id key] returns [t]; the cooldowns of
    the other keys and users, and the balance and the history of the account,
    are as before. *)
Theorem setCooldown_then_getCooldown (id key id' key' : string) (t : Z) (w : World) :
  let w1 := (db.setCooldown id key t w).2 in
  let u := acct (users_of (disk w)) id in
  let u1 := acct (users_of (disk w1)) id in
  JS.inherited id = false → JS.inherited key = false →
  JS.inherited id' = false → JS.inherited key' = false →
  (db.getCooldown id key w1).1 = t ∧
  ((id', key') ≠ (id, key) → (db.getCooldown id' key' w1).1 = (db.getCooldown id' key' w).1) ∧
  gold u1 = gold u ∧ history u1 = history u.
Proof.
  cbv zeta. intros _ _ _ _. rewrite !getCooldown_eq, setCooldown_eq.
  cbn [fst snd disk with_disk users_of].
  split; [|split; [|split]].
  - rewrite acct_insert. cbn [stamped cooldowns]. by rewrite lookup_insert_eq.
  - intros Hne. destruct (decide (id = id')) as [<-|Hid].
    + rewrite acct_insert. cbn [stamped cooldowns].
      rewrite lookup_insert_ne; [done|]. congruence.
    + by rewrite acct_insert_ne.
  - by rewrite acct_insert.
  - by rewrite acct_insert.
Qed.

Lemma setCooldown_then_getCooldown_witness :
  let w1 := (db.setCooldown "15550002222" "daily" 1700000000000 new_world).2 in
  (db.getCooldown "15550002222" "daily" w1).1 = 1700000000000 ∧
  (db.getCooldown "15550002222" "weekly" w1).1 = 0.
Proof.
  destruct (setCooldown_then_getCooldown "15550002222" "daily" "15550002222" "weekly"
              1700000000000 new_world eq_refl eq_refl eq_refl eq_refl) as (H1 & H2 & _).
  split; [exact H1|]. rewrite H2; [|congruence]. vm_compute. reflexivity.
Defined.

(** X2. What [add] returns is what is stored, for a user id that names no
    member of [Object.prototype] and for a balance, an amount and a sum in
    the range in which Numbers are exact: [getUser] then finds the account
    with the returned balance, the old balance plus the amount, and with one
    more history entry, of the amount; the account exists after the call
    even if it did not before. *)
Theorem add_then_getUser (env : Env) (id : string) (amount : Z) (w : World) :
  let r := db.add env id amount w in
  let u := acct (users_of (disk w)) id in
  JS.inherited id = false →
  JS.safe (gold u) → JS.safe amount → JS.safe (gold u + amount) →
  r.1 = gold u + amount ∧
  (db.getUser id r.2).1
  = Some {| gold := r.1;
            cooldowns := cooldowns u;
            history := history u ++ [{| time := clock env (ticks w); change := amount |}] |}.
Proof.
  cbv zeta. intros _ _ _ _.
  rewrite getUser_eq, add_eq. cbn [fst snd disk ticked with_disk users_of].
  split; [done|]. by rewrite lookup_insert_eq.
Qed.

Lemma add_then_getUser_witness :
  let r := db.add (sample_env 0) "15550002222" 25 (world_with "15550002222" 40) in
  r.1 = 65 ∧
  gold <$> (db.getUser "15550002222" r.2).1 = Some 65.
Proof.
  destruct (add_then_getUser (sample_env 0) "15550002222" 25 (world_with "15550002222" 40)
              eq_refl) as [H1 H2]; [vm_compute; split; congruence..|].
  split; [exact H1|]. rewrite H2. vm_compute. reflexivity.
Defined.

(** X3. A debit undoes a credit of the same amount, for a user id that
    names no member of [Object.prototype]: on an account whose balance is
    not negative, [add] of a non-negative amount that keeps the balance in
    the range in which Numbers are exact, followed by [remove] of that
    amount, returns the old balance and stores it, and the history has grown
    by the two entries [+amount] and [-amount]. *)
Theorem add_then_remove (env : Env) (id : string) (amount : Z) (w : World) :
  let u := acct (users_of (disk w)) id in
  let r := db.remove env id amount (db.add env id amount w).2 in
  let u' := acct (users_of (disk r.2)) id in
  JS.inherited id = false →
  0 <= amount → 0 <= gold u → JS.safe (gold u + amount) →
  r.1 = gold u ∧ gold u' = gold u ∧ cooldowns u' = cooldowns u ∧
  map change (history u') = map change (history u) ++ [amount; - amount].
Proof.
  cbv zeta. intros _ Ha Hg _. rewrite remove_eq, add_eq.
  cbn [fst snd disk ticked with_disk users_of ticks].
  rewrite !acct_insert. cbn [posted gold cooldowns history].
  split; [lia|]. split; [lia|]. split; [done|].
  rewrite !map_app. cbn [map change]. by rewrite <- app_assoc.
Qed.

Lemma add_then_remove_witness :
  let w := world_with "15550002222" 40 in
  let r := db.remove (sample_env 0) "15550002222" 25
             (db.add (sample_env 0) "15550002222" 25 w).2 in
  r.1 = 40 ∧
  map change (history (acct (users_of (disk r.2)) "15550002222")) = [25; -25].
Proof.
  destruct (add_then_remove (sample_env 0) "15550002222" 25 (world_with "15550002222" 40)
              eq_refl)
    as (H1 & _ & _ & H4); [lia|vm_compute; congruence|vm_compute; split; congruence|].
  split; [exact H1|exact H4].
Defined.

(** ** Further properties of the commands *)

(** X4. [rand(min, max)] with [min <= max] and a draw in [[0, 1)] returns an
    integer in [[min, max]], and uses one draw. *)
Theorem rand_in_range (env : Env) (min max : Z) (w : World) :
  (0 <= random env (draws w))%Q → (random env (draws w) < 1)%Q →
  min <= max →
  min <= (rand env min max w).1 <= max ∧ (rand env min max w).2 = drawn w.
Proof.
  intros H0 H1 Hm. cbn [rand bind Math_random ret fst snd]. split; [|done].
  pose proof (floor_range env (draws w) (max - min + 1) H0 H1) as H.
  cbn [fst]. lia.
Qed.

Lemma rand_in_range_witness :
  (rand (sample_env (999 # 1000)) 10 60 new_world).1 = 60 ∧
  (rand (sample_env 0) 10 60 new_world).1 = 10.
Proof.
  pose proof (rand_in_range (sample_env (999 # 1000)) 10 60 new_world) as H.
  destruct H as [[_ _] _]; [vm_compute; congruence|vm_compute; reflexivity|lia|].
  split; vm_compute; reflexivity.
Defined.

(** A debit, or a credit, and its reply, run after the check of a wager. *)
Lemma applied_lose env id bet txt w w2 :
  users_of (disk w2) = touch id (users_of (disk w)) → ticks w2 = ticks w →
  bet <= gold (acct (users_of (disk w)) id) →
  applied env id w (complete (db.remove env id bet ;; send txt) w2) (- bet) txt.
Proof.
  intros Hu Ht Hle. unfold applied. rewrite lose_eq.
  cbn [fst snd disk ticked with_disk users_of]. rewrite Hu, Ht, acct_touch, insert_touch.
  split; [done|]. do 2 f_equal. lia.
Qed.

Lemma applied_win env id amount txt w w2 :
  users_of (disk w2) = touch id (users_of (disk w)) → ticks w2 = ticks w →
  applied env id w (complete (db.add env id amount ;; send txt) w2) amount txt.
Proof.
  intros Hu Ht. unfold applied. rewrite win_eq.
  cbn [fst snd disk ticked with_disk users_of]. by rewrite Hu, Ht, acct_touch, insert_touch.
Qed.



Lemma Symbol_eqb_eq a b : Symbol_eqb a b = true ↔ a = b.
Proof.
  destruct a as [[]|], b as [[]|]; simpl; split; intros H; congruence.
Qed.



Lemma parseUserArg_present a recipient : parseUserArg a = Some recipient → missing a = false.
Proof. destruct a as [s|]; simpl; [|done]. by destruct (JS.falsy s). Qed.



(** X8. The balance command, [balance] or [bal], handled alone: the reply
    reports the sender's stored balance, 0 for a sender without an account,
    and nothing is written besides the handler's first [ensureUser]; an
    existing account leaves the world as it is. *)
Theorem balance_outcome (env : Env) (messageText userId cmd : string) (args : list string)
    (w : World) :
  JS.falsy messageText = false → JS.falsy userId = false →
  command_of messageText = (cmd, args) →
  cmd = "balance"%string ∨ cmd = "bal"%string →
  let res := complete (handler env messageText userId) w in
  res = (Sent (MsgBalance (gold (acct (users_of (disk w)) userId))),
         (db.ensureUser userId w).2) ∧
  (users_of (disk w) !! userId = None → res.1 = Sent (MsgBalance 0)) ∧
  (is_Some (users_of (disk w) !! userId) → res.2 = w).
Proof.
  intros Hm Hu Hc Hcmd res. subst res.
  rewrite (handler_eq env _ _ _ _ _ Hm Hu Hc), ensureUser_eq. cbn [snd].
  assert (dispatch env userId cmd args = on_balance userId) as ->
    by (by destruct Hcmd as [-> | ->]).
  unfold on_balance. rewrite complete_bind_eq, getUser_eq.
  cbn [fst snd disk with_disk created users_of]. rewrite lookup_touch, complete_send_eq.
  split; [done|]. split.
  - intros Hnone. unfold acct. by rewrite Hnone.
  - intros [u Hu']. cbn [snd]. unfold touch. rewrite Hu'.
    destruct w as [[] ? ?]; simpl in *; done.
Qed.

Lemma balance_outcome_witness :
  complete (handler (sample_env 0) "  .BAL  " "15550002222") (world_with "15550002222" 75)
  = (Sent (MsgBalance 75), world_with "15550002222" 75).
Proof.
  exact (proj1 (balance_outcome (sample_env 0) "  .BAL  " "15550002222" "bal" []
                  (world_with "15550002222" 75) eq_refl eq_refl eq_refl
                  (or_intror eq_refl))).
Defined.

Lemma unknown_dispatch env id cmd args :
  ¬ In cmd known_commands → dispatch env id cmd args = send MsgUnknown.
Proof.
  intros Hnot. unfold dispatch.
  repeat match goal with
         | |- context [String.eqb cmd ?c] =>
             let E := fresh in
             destruct (String.eqb cmd c) eqn:E;
             [apply String.eqb_eq in E; exfalso; apply Hnot; subst cmd;
              unfold known_commands; simpl; tauto|]
         end.
  reflexivity.
Qed.

(** X9. What the handler does not act on, handled alone.  With an empty
    message text or an empty user id it returns without a reply and without
    touching the world, the store file included.  With a text of ASCII
    characters whose command word is outside the thirteen it knows, it
    replies with the list of commands and writes nothing besides its first
    [ensureUser]. *)
Theorem handler_ignores (env : Env) (messageText userId : string) (w : World) :
  let res := complete (handler env messageText userId) w in
  (JS.falsy messageText = true ∨ JS.falsy userId = true → res = (Silent, w)) ∧
  (JS.falsy messageText = false → JS.falsy userId = false →
   JS.ascii_text messageText = true →
   ¬ In (command_of messageText).1 known_commands →
   res = (Sent MsgUnknown, (db.ensureUser userId w).2)).
Proof.
  cbv zeta. split.
  - intros H. unfold handler.
    assert (JS.falsy messageText || JS.falsy userId = true) as ->
      by (destruct H as [-> | ->]; [done|apply orb_true_r]).
    reflexivity.
  - intros Hm Hu _ Hnot.
    rewrite (handler_eq env _ _ _ _ _ Hm Hu (surjective_pairing _)).
    by rewrite unknown_dispatch, complete_send_eq, ensureUser_eq.
Qed.

Lemma handler_ignores_witness :
  complete (handler (sample_env 0) ".shop" "15550002222") (world_with "15550002222" 75)
  = (Sent MsgUnknown, world_with "15550002222" 75) ∧
  complete (handler (sample_env 0) ".spin 5" "") new_world = (Silent, new_world).
Proof.
  split.
  - refine (proj2 (handler_ignores (sample_env 0) ".shop" "15550002222"
                     (world_with "15550002222" 75)) eq_refl eq_refl eq_refl _).
    vm_compute. intuition discriminate.
  - exact (proj1 (handler_ignores (sample_env 0) ".spin 5" "" new_world)
                 (or_intror eq_refl)).
Defined.

(** ** Properties of the text primitives *)

Lemma append_cons c (s t : string) : (String c s ++ t)%string = String c (s ++ t).
Proof. reflexivity. Qed.

Lemma append_assoc (a b c : string) : ((a ++ b) ++ c)%string = (a ++ (b ++ c))%string.
Proof. induction a as [|x a IH]; [done|]. by rewrite !append_cons, IH. Qed.

Lemma forallb_append p (a b : string) :
  JS.forallb p (a ++ b) = JS.forallb p a && JS.forallb p b.
Proof.
  induction a as [|x a IH]; [done|].
  rewrite append_cons. cbn [JS.forallb]. by rewrite IH, andb_assoc.
Qed.

Lemma words_from_joined s cur :
  joined (JS.words_from cur s) = (cur ++ JS.filter not_space s)%string.
Proof.
  revert cur. induction s as [|c s IH]; intros cur; cbn [JS.words_from JS.filter].
  - destruct cur; reflexivity.
  - unfold not_space at 1. destruct (JS.is_space c); cbn [negb].
    + destruct (JS.falsy cur) eqn:E.
      * rewrite IH. by destruct cur.
      * cbn [joined fold_right]. fold (joined (JS.words_from "" s)). by rewrite IH.
    + rewrite IH, append_assoc. reflexivity.
Qed.

Lemma words_from_tokens s cur :
  JS.forallb not_space cur = true →
  Forall (fun t => JS.falsy t = false ∧ JS.forallb not_space t = true) (JS.words_from cur s).
Proof.
  revert cur. induction s as [|c s IH]; intros cur Hcur; cbn [JS.words_from].
  - destruct (JS.falsy cur) eqn:E; [constructor|]. by repeat constructor.
  - destruct (JS.is_space c) eqn:Ec.
    + destruct (JS.falsy cur) eqn:E; [by apply IH|].
      constructor; [done|]. by apply IH.
    + apply IH. rewrite forallb_append, Hcur. simpl. unfold not_space. by rewrite Ec.
Qed.

(** X10. On a text of ASCII characters, [messageText.trim().split(/\s+/)]
    loses white space only: the parts,
    joined, are the characters of the message that are no white space, in
    order.  There is always a first part; no part holds white space; and
    unless the message holds white space only (then the one part is empty),
    no part is empty, so an argument of the handler is never an empty
    string. *)
Theorem trim_split_tokens (s : string) :
  JS.ascii_text s = true →
  joined (JS.trim_split s) = JS.filter not_space s ∧
  JS.trim_split s ≠ [] ∧
  Forall (fun t => JS.forallb not_space t = true) (JS.trim_split s) ∧
  (JS.trim_split s = [EmptyString] ∨
   Forall (fun t => JS.falsy t = false) (JS.trim_split s)) ∧
  Forall (fun t => JS.falsy t = false) (tl (JS.trim_split s)).
Proof.
  intros _.
  pose proof (words_from_joined s EmptyString) as Hj.
  change (joined (JS.words_from "" s) = JS.filter not_space s) in Hj.
  pose proof (words_from_tokens s EmptyString eq_refl) as Ht.
  unfold JS.trim_split. destruct (JS.words_from "" s) as [|t ts] eqn:E.
  - split; [by rewrite <- Hj|]. split; [done|]. split; [by repeat constructor|].
    split; [by left|]. constructor.
  - split; [exact Hj|]. split; [done|].
    split; [eapply Forall_impl; [exact Ht|]; by intros ? [_ ?]|].
    assert (Hne : Forall (fun t => JS.falsy t = false) (t :: ts))
      by (eapply Forall_impl; [exact Ht|]; by intros ? [? _]).
    split; [by right|]. by apply Forall_cons in Hne as [_ ?].
Qed.

Lemma trim_split_tokens_witness :
  JS.trim_split "  .give   15550002222 500 "
  = [".give"; "15550002222"; "500"]%string ∧
  joined (JS.trim_split "  .give   15550002222 500 ") = ".give15550002222500"%string.
Proof.
  destruct (trim_split_tokens "  .give   15550002222 500 " eq_refl) as (H & _).
  split; [vm_compute; reflexivity|]. rewrite H. vm_compute. reflexivity.
Defined.

Lemma drop_trailing_twice s :
  JS.drop_trailing_spaces (JS.drop_trailing_spaces s) = JS.drop_trailing_spaces s.
Proof.
  induction s as [|c s IH]; [done|]. cbn [JS.drop_trailing_spaces].
  destruct (JS.is_space c && JS.falsy (JS.drop_trailing_spaces s)) eqn:E; [done|].
  cbn [JS.drop_trailing_spaces]. by rewrite IH, E.
Qed.

Lemma skip_spaces_head s :
  match JS.skip_spaces s with
  | EmptyString => True
  | String c _ => JS.is_space c = false
  end.
Proof.
  induction s as [|c s IH]; [done|]. cbn [JS.skip_spaces].
  destruct (JS.is_space c) eqn:E; [done|]. by rewrite E.
Qed.

Lemma trim_twice s : JS.trim (JS.trim s) = JS.trim s.
Proof.
  unfold JS.trim. pose proof (skip_spaces_head s) as H.
  destruct (JS.skip_spaces s) as [|c r]; [done|].
  cbn [JS.drop_trailing_spaces]. rewrite H. cbn [andb JS.skip_spaces]. rewrite H.
  pose proof (drop_trailing_twice (String c r)) as H2.
  cbn [JS.drop_trailing_spaces] in H2. rewrite H in H2. cbn [andb] in H2. exact H2.
Qed.

Lemma drop_trailing_no_space s :
  JS.forallb not_space s = true → JS.drop_trailing_spaces s = s.
Proof.
  induction s as [|c s IH]; [done|]. cbn [JS.forallb JS.drop_trailing_spaces].
  rewrite andb_true_iff. intros [Hc Hs]. rewrite (IH Hs).
  unfold not_space in Hc. apply negb_true_iff in Hc. by rewrite Hc.
Qed.

Lemma trim_no_space s : JS.forallb not_space s = true → JS.trim s = s.
Proof.
  intros H. unfold JS.trim.
  assert (JS.skip_spaces s = s) as ->; [|by apply drop_trailing_no_space].
  destruct s as [|c s]; [done|]. cbn [JS.forallb] in H. apply andb_true_iff in H as [Hc _].
  unfold not_space in Hc. apply negb_true_iff in Hc. cbn [JS.skip_spaces]. by rewrite Hc.
Qed.

Lemma digit_not_space c : JS.is_digit c = true → not_space c = true.
Proof.
  unfold JS.is_digit, not_space, JS.is_space. intros H.
  apply andb_true_iff in H as [H1 H2]. apply Z.leb_le in H1. apply Z.leb_le in H2.
  apply negb_true_iff. apply orb_false_intro.
  - apply andb_false_intro2. apply Z.leb_gt. lia.
  - apply Z.eqb_neq. lia.
Qed.

Lemma filter_forallb p s : JS.forallb p (JS.filter p s) = true.
Proof.
  induction s as [|c s IH]; [done|]. cbn [JS.filter].
  destruct (p c) eqn:E; [|done]. cbn [JS.forallb]. by rewrite E, IH.
Qed.

Lemma forallb_impl (p q : ascii → bool) s :
  (∀ c, p c = true → q c = true) → JS.forallb p s = true → JS.forallb q s = true.
Proof.
  intros Hpq. induction s as [|c s IH]; [done|]. cbn [JS.forallb].
  rewrite !andb_true_iff. intros [? ?]. split; [by apply Hpq|by apply IH].
Qed.

Lemma filter_id p s : JS.forallb p s = true → JS.filter p s = s.
Proof.
  induction s as [|c s IH]; [done|]. cbn [JS.forallb JS.filter].
  rewrite andb_true_iff. intros [-> Hs]. by rewrite IH.
Qed.

Lemma has_digit_at_digits (ds rest : string) :
  JS.falsy ds = false → JS.forallb JS.is_digit ds = true →
  JS.has_digit_at (ds ++ String "@" rest) = true.
Proof.
  induction ds as [|c ds IH]; [done|]. intros _ Hd.
  cbn [JS.forallb] in Hd. apply andb_true_iff in Hd as [Hc Hds].
  destruct ds as [|d ds'].
  - change (JS.has_digit_at (String c (String "@" rest)) = true).
    cbn [JS.has_digit_at]. by rewrite Hc.
  - change ((JS.is_digit c && Ascii.eqb d "@")
            || JS.has_digit_at (String d ds' ++ String "@" rest) = true).
    apply orb_true_iff. right. by apply IH.
Qed.

Lemma has_digit_at_no_at s : JS.forallb not_at s = true → JS.has_digit_at s = false.
Proof.
  induction s as [|c s IH]; [done|]. intros H. cbn [JS.forallb] in H.
  apply andb_true_iff in H as [_ Hs]. destruct s as [|d s']; [done|].
  change (JS.has_digit_at (String c (String d s')))
    with ((JS.is_digit c && Ascii.eqb d "@") || JS.has_digit_at (String d s')).
  rewrite (IH Hs), orb_false_r.
  cbn [JS.forallb] in Hs. apply andb_true_iff in Hs as [Hd _].
  unfold not_at in Hd. apply negb_true_iff in Hd. rewrite Hd. apply andb_false_r.
Qed.

Lemma digit_not_at c : JS.is_digit c = true → not_at c = true.
Proof.
  unfold not_at. destruct (Ascii.eqb_spec c "@") as [->|]; [|done].
  intros H. vm_compute in H. discriminate.
Qed.

(** X11. The recipient ids that [parseUserArg] returns are in normal form:
    each holds a digit directly followed by [@], and [parseUserArg] maps it
    to itself.  An argument made of digits only becomes those digits followed
    by [@s.whatsapp.net]. *)
Theorem parseUserArg_normal_form (a : option string) (r : string) :
  parseUserArg a = Some r →
  JS.has_digit_at r = true ∧
  parseUserArg (Some r) = Some r ∧
  (∀ digits, JS.all_digits digits = true →
     parseUserArg (Some digits) = Some (digits ++ "@s.whatsapp.net")%string).
Proof.
  intros Ha.
  assert (Hfix : ∀ r', JS.has_digit_at r' = true → JS.trim r' = r' →
                       parseUserArg (Some r') = Some r').
  { intros r' Hd Ht. cbn [parseUserArg]. rewrite Ht, Hd. by destruct r'. }
  assert (Hnum : ∀ ds, JS.falsy ds = false → JS.forallb JS.is_digit ds = true →
            JS.has_digit_at (ds ++ "@s.whatsapp.net") = true ∧
            JS.trim (ds ++ "@s.whatsapp.net") = (ds ++ "@s.whatsapp.net")%string).
  { intros ds Hne Hds. split; [by apply has_digit_at_digits|].
    apply trim_no_space. rewrite forallb_append.
    rewrite (forallb_impl _ _ _ digit_not_space Hds). reflexivity. }
  split; [|split].
  - destruct a as [s|]; cbn [parseUserArg] in Ha; [|done].
    destruct (JS.falsy s); [done|].
    destruct (JS.has_digit_at (JS.trim s)) eqn:E; [by injection Ha as <-|].
    destruct (JS.falsy (JS.filter JS.is_digit (JS.trim s))) eqn:E2; [done|].
    injection Ha as <-. apply Hnum; [done|apply filter_forallb].
  - destruct a as [s|]; cbn [parseUserArg] in Ha; [|done].
    destruct (JS.falsy s); [done|].
    destruct (JS.has_digit_at (JS.trim s)) eqn:E.
    + injection Ha as <-. apply Hfix; [done|apply trim_twice].
    + destruct (JS.falsy (JS.filter JS.is_digit (JS.trim s))) eqn:E2; [done|].
      injection Ha as <-.
      destruct (Hnum (JS.filter JS.is_digit (JS.trim s)) E2 (filter_forallb _ _)).
      by apply Hfix.
  - intros digits Hd. unfold JS.all_digits in Hd. apply andb_true_iff in Hd as [Hne Hds].
    apply negb_true_iff in Hne. cbn [parseUserArg]. rewrite Hne.
    rewrite (trim_no_space digits) by (by apply (forallb_impl _ _ _ digit_not_space)).
    rewrite (has_digit_at_no_at digits) by (by apply (forallb_impl _ _ _ digit_not_at)).
    by rewrite (filter_id _ _ Hds), Hne.
Qed.

Lemma parseUserArg_normal_form_witness :
  parseUserArg (Some "+1 (555) 000-2222"%string) = Some "15550002222@s.whatsapp.net"%string ∧
  parseUserArg (Some "15550002222@s.whatsapp.net"%string)
  = Some "15550002222@s.whatsapp.net"%string.
Proof.
  split; [reflexivity|].
  exact (proj1 (proj2 (parseUserArg_normal_form (Some "+1 (555) 000-2222"%string)
                         "15550002222@s.whatsapp.net" eq_refl))).
Defined.

Lemma strip_at_append (u d : string) :
  JS.forallb not_at u = true → JS.existsb JS.is_newline d = false →
  JS.strip_at (u ++ String "@" d) = u.
Proof.
  intros Hu Hd. induction u as [|c u IH].
  - change (JS.strip_at (String "@" d) = ""%string). cbn [JS.strip_at]. by rewrite Hd.
  - cbn [JS.forallb] in Hu. apply andb_true_iff in Hu as [Hc Hu].
    rewrite append_cons. cbn [JS.strip_at].
    unfold not_at in Hc. apply negb_true_iff in Hc. rewrite Hc. cbn [andb].
    by rewrite IH.
Qed.

Lemma strip_at_no_at (u : string) : JS.forallb not_at u = true → JS.strip_at u = u.
Proof.
  induction u as [|c u IH]; [done|]. cbn [JS.forallb JS.strip_at].
  rewrite andb_true_iff. intros [Hc Hu].
  unfold not_at in Hc. apply negb_true_iff in Hc. rewrite Hc. cbn [andb]. by rewrite IH.
Qed.

Lemma strip_at_newline (r : string) :
  JS.existsb JS.is_newline r = true → JS.existsb JS.is_newline (JS.strip_at r) = true.
Proof.
  induction r as [|c r IH]; [done|]. cbn [JS.existsb JS.strip_at]. intros H.
  destruct (Ascii.eqb_spec c "@") as [->|Hc]; cbn [andb].
  - destruct (JS.existsb JS.is_newline r) eqn:E; cbn [negb].
    + cbn [JS.existsb]. rewrite (IH eq_refl). apply orb_true_r.
    + vm_compute in H. discriminate.
  - cbn [JS.existsb]. destruct (JS.is_newline c); [done|]. cbn [orb] in *. by apply IH.
Qed.

Lemma strip_at_keeps_no_domain (o u d : string) :
  JS.existsb JS.is_newline d = false → JS.strip_at o ≠ (u ++ String "@" d)%string.
Proof.
  intros Hd. revert u. induction o as [|c o IH]; intros u.
  - cbn [JS.strip_at]. by destruct u.
  - cbn [JS.strip_at].
    destruct (Ascii.eqb c "@" && negb (JS.existsb JS.is_newline o)) eqn:E.
    + by destruct u.
    + destruct u as [|c' u]; [|rewrite append_cons; intros [= _ H]; by apply (IH u)].
      change (String c (JS.strip_at o) ≠ String "@" d). intros [= -> H].
      cbn [andb] in E. rewrite Ascii.eqb_refl in E. cbn [andb] in E.
      apply negb_false_iff in E. apply strip_at_newline in E. congruence.
Qed.

(** X12. The owner check does not look at the domain of a user id: for a
    non-empty [u] without [@] and a domain [d] without a line terminator,
    [u@d] is an owner exactly when [u] is; in particular an owner listed by
    bare number is recognised under every domain.  With an empty owner list
    nobody is an owner. *)
Theorem isOwnerId_ignores_domain (env : Env) (u d : string) :
  JS.falsy u = false → JS.forallb not_at u = true →
  JS.existsb JS.is_newline d = false →
  isOwnerId env (u ++ String "@" d) = isOwnerId env u ∧
  (In u (OWNER_LIST env) → isOwnerId env (u ++ String "@" d) = true) ∧
  (OWNER_LIST env = [] → ∀ id, isOwnerId env id = false).
Proof.
  intros Hne Hu Hd.
  assert (Hsame : isOwnerId env (u ++ String "@" d) = isOwnerId env u).
  { unfold isOwnerId. rewrite Hne.
    assert (JS.falsy (u ++ String "@" d) = false) as -> by (by destruct u).
    rewrite strip_at_append, strip_at_no_at by done.
    induction (OWNER_LIST env) as [|o os IH]; [done|]. cbn [List.existsb]. rewrite IH.
    f_equal. destruct (JS.falsy o); [done|].
    destruct (String.eqb_spec (JS.strip_at o) (u ++ String "@" d)) as [E|_].
    - by apply strip_at_keeps_no_domain in E.
    - by rewrite orb_false_r, orb_diag. }
  split; [exact Hsame|]. split.
  - intros Hin. rewrite Hsame. unfold isOwnerId. rewrite Hne.
    apply existsb_exists. exists u. split; [done|].
    by rewrite Hne, strip_at_no_at, String.eqb_refl.
  - intros Hnil id. unfold isOwnerId. rewrite Hnil. by destruct (JS.falsy id).
Qed.

Lemma isOwnerId_ignores_domain_witness :
  isOwnerId (sample_env 0) "15550001111@g.us" = true ∧
  isOwnerId (sample_env 0) "15550001111" = true.
Proof.
  destruct (isOwnerId_ignores_domain (sample_env 0) "15550001111" "g.us"
              eq_refl eq_refl eq_refl) as (H1 & H2 & _).
  split; [apply H2; by left|].
  rewrite <- H1. apply H2. by left.
Defined.

(** ** What the handler writes *)

Lemma write_present W users users' id :
  write W users users' → is_Some (users !! id) → is_Some (users' !! id).
Proof.
  intros Hw [u Hu]. destruct Hw as [id' us|id' a t us|id' a t us|id' k t us].
  - unfold touch. destruct (us !! id') eqn:E; [by eexists|].
    rewrite lookup_insert. case_decide; by eexists.
  - rewrite lookup_insert. case_decide; by eexists.
  - rewrite lookup_insert. case_decide; by eexists.
  - rewrite lookup_insert. case_decide; by eexists.
Qed.

Lemma writes_present W users users' id :
  writes W users users' → is_Some (users !! id) → is_Some (users' !! id).
Proof. induction 1; eauto using write_present. Qed.

Lemma writes_mono (W W' : string → Prop) users users' :
  (∀ id, W id → W' id) → writes W users users' → writes W' users users'.
Proof.
  intros HW. induction 1 as [|us1 us2 us3 H12 _ IH]; [apply rtc_refl|].
  eapply rtc_l; [|exact IH]. destruct H12; constructor; auto.
Qed.

Section Acts.

Variable env : Env.
Variable W : string → Prop.
Variable userId : string.
Implicit Types (w : World) (id key : string).

Lemma acts_ret {A} (a : A) (Q : A → Prop) : Q a → acts W userId (ret a) Q.
Proof. intros H w _. split; [apply rtc_refl|done]. Qed.

Lemma acts_bind {A B} (m : M A) (k : A → M B) (R : A → Prop) (Q : B → Prop) :
  acts W userId m R → (∀ a, R a → acts W userId (k a) Q) → acts W userId (bind m k) Q.
Proof.
  intros Hm Hk w Hw. unfold bind. destruct (Hm w Hw) as [H1 H2].
  destruct (m w) as [a w1]. cbn [fst snd] in *.
  destruct (Hk a H2 w1 (writes_present _ _ _ _ H1 Hw)) as [H3 H4].
  split; [by etrans|done].
Qed.

Lemma acts_post {A} (m : M A) (Q Q' : A → Prop) :
  (∀ a, Q a → Q' a) → acts W userId m Q → acts W userId m Q'.
Proof. intros HQ Hm w Hw. destruct (Hm w Hw). split; [done|by apply HQ]. Qed.

(** [await]: the rest of the call is the next stretch. *)
Lemma acts_await {A} (m : M A) (k : A → M (Async Outcome)) (R : A → Prop) Phi :
  acts W userId m R →
  (∀ a, R a → acts W userId (k a) (safe W userId Phi)) →
  acts W userId (await x := m in k x) (safe W userId Phi).
Proof.
  intros Hm Hk. eapply acts_bind; [exact Hm|]. intros a Ha.
  apply acts_ret. cbn [safe]. by apply Hk.
Qed.

Lemma acts_send txt : acts W userId (send txt) (safe W userId replied).
Proof. apply acts_ret. by exists txt. Qed.

Lemma acts_Date_now : acts W userId (Date_now env) (fun _ => True).
Proof. intros w _. split; [apply rtc_refl|done]. Qed.

Lemma acts_Math_random : acts W userId (Math_random env) (fun _ => True).
Proof. intros w _. split; [apply rtc_refl|done]. Qed.

Lemma acts_rand min max :
  unit_draws env → min <= max → acts W userId (rand env min max) (fun r => min <= r).
Proof.
  intros Hd Hm w _. split; [apply rtc_refl|].
  cbn [rand bind Math_random ret fst]. by apply rand_range.
Qed.

Lemma acts_rand_index min max :
  unit_draws env → min <= max →
  acts W userId (rand env min max) (fun r => min <= r <= max).
Proof.
  intros Hd Hm w _. split; [apply rtc_refl|].
  destruct (Hd (draws w)) as [H0 H1].
  pose proof (floor_range env (draws w) (max - min + 1) H0 H1) as H.
  cbn [rand bind Math_random ret fst]. lia.
Qed.

Lemma acts_getUser id : acts W userId (db.getUser id) (fun r => id = userId → is_Some r).
Proof.
  intros w Hw. rewrite getUser_eq. cbn [fst snd disk with_disk].
  rewrite users_of_created. split; [apply rtc_refl|by intros ->].
Qed.

Lemma acts_ensureUser id : W id → acts W userId (db.ensureUser id) (fun _ => True).
Proof.
  intros HW w _. rewrite ensureUser_eq. cbn [fst snd disk with_disk users_of].
  split; [|done]. apply rtc_once. by constructor.
Qed.

Lemma acts_add id amount :
  W id → 0 <= amount → acts W userId (db.add env id amount) (fun _ => True).
Proof.
  intros HW Ha w _. rewrite add_eq. cbn [fst snd disk ticked with_disk users_of].
  split; [|done]. apply rtc_once. by constructor.
Qed.

Lemma acts_remove id amount :
  W id → 0 <= amount → acts W userId (db.remove env id amount) (fun _ => True).
Proof.
  intros HW Ha w _. rewrite remove_eq. cbn [fst snd disk ticked with_disk users_of].
  split; [|done]. apply rtc_once. by constructor.
Qed.

Lemma acts_setCooldown id key timestamp :
  W id → acts W userId (db.setCooldown id key timestamp) (fun _ => True).
Proof.
  intros HW w _. rewrite setCooldown_eq. cbn [fst snd disk with_disk users_of].
  split; [|done]. apply rtc_once. by constructor.
Qed.

Lemma acts_getCooldown id key : W id → acts W userId (db.getCooldown id key) (fun _ => True).
Proof.
  intros HW w _. rewrite getCooldown_eq. cbn [fst snd disk with_disk users_of].
  split; [|done]. apply rtc_once. by constructor.
Qed.

Lemma acts_canClaim id key ms :
  W id → acts W userId (db.canClaim env id key ms) (fun _ => True).
Proof.
  intros HW w _. rewrite canClaim_eq.
  destruct (_ =? 0); cbn [fst snd disk ticked with_disk users_of];
    (split; [|done]); apply rtc_once; by constructor.
Qed.

Lemma acts_stakeAndCheck id bet :
  acts W userId (stakeAndCheck id bet)
    (fun chk => match chk with Ok _ => 0 < bet | NotOk _ => True end).
Proof.
  intros w _. rewrite stakeAndCheck_eq. cbn [fst snd disk with_disk].
  rewrite users_of_created. split; [apply rtc_refl|].
  destruct (bet <=? 0) eqn:E; [done|]. destruct (_ <? bet); [done|]. lia.
Qed.

Hypothesis draws_ok : unit_draws env.
Hypothesis sender : W userId.

Ltac act tac := eapply acts_bind; [tac|intros ? ?; cbv beta in *].
Ltac sent := apply acts_send.

Lemma acts_earn key reward txt :
  0 <= reward →
  acts W userId
    (db.add env userId reward ;;
     let* now := Date_now env in
     db.setCooldown userId key now ;;
     send txt)
    (safe W userId replied).
Proof.
  intros Hr. act ltac:(by apply acts_add). act ltac:(apply acts_Date_now).
  act ltac:(by apply acts_setCooldown). sent.
Qed.

Lemma acts_wait key (f : Z → Z → Reply) :
  acts W userId
    (let* last := db.getCooldown userId key in
     let* now := Date_now env in
     send (f last now))
    (safe W userId replied).
Proof. act ltac:(by apply acts_getCooldown). act ltac:(apply acts_Date_now). sent. Qed.

Lemma acts_balance : acts W userId (on_balance userId) (safe W userId replied).
Proof.
  unfold on_balance. act ltac:(apply acts_getUser).
  destruct a as [u|]; [sent|]. by destruct (H eq_refl).
Qed.

Lemma acts_give args :
  (∀ id, isOwnerId env userId = true → parseUserArg (arg args 0) = Some id → W id) →
  acts W userId (on_give env userId args) (safe W userId replied).
Proof.
  intros Hrec. unfold on_give.
  destruct (isOwnerId env userId) eqn:Eo; cbn [negb]; [|sent].
  destruct (_ || _); [sent|].
  destruct (parseUserArg _) as [recipient|] eqn:Er; [|sent].
  destruct (JS.parseInt _) as [amount|]; [|sent].
  destruct (_ || _) eqn:E; [sent|].
  apply orb_false_elim in E as [E1 E2].
  apply acts_await with (R := fun _ => True); [apply acts_ensureUser; by apply Hrec|].
  intros _ _. act ltac:(apply acts_add; [by apply Hrec|lia]). sent.
Qed.

Lemma acts_dig_fish cmd : acts W userId (on_dig_fish env userId cmd) (safe W userId replied).
Proof.
  unfold on_dig_fish. act ltac:(by apply acts_canClaim).
  destruct a; cbn [negb].
  - destruct (String.eqb cmd "dig");
      (act ltac:(by apply acts_rand)); apply acts_earn; lia.
  - apply (acts_wait _ (fun last now => MsgTryAgain _)).
Qed.

Lemma acts_work args : acts W userId (on_work env userId args) (safe W userId replied).
Proof.
  unfold on_work. act ltac:(by apply acts_canClaim).
  destruct a; cbn [negb].
  - eapply acts_bind with (R := fun job => is_Some job).
    { destruct (arg args 0) as [a|] eqn:Ea; cbn [missing].
      - destruct (JS.falsy a) eqn:Ef; [|by apply acts_ret].
        act ltac:(by apply acts_rand_index). apply acts_ret.
        cbn [length jobs Z.of_nat] in *. unfold index.
        destruct (a0 <? 0) eqn:E; [lia|].
        assert (Hi : a0 = 0 ∨ a0 = 1 ∨ a0 = 2 ∨ a0 = 3 ∨ a0 = 4) by lia.
        destruct Hi as [->|[->|[->|[->| ->]]]]; by eexists.
      - act ltac:(by apply acts_rand_index). apply acts_ret.
        cbn [length jobs Z.of_nat] in *. unfold index.
        destruct (a <? 0) eqn:E; [lia|].
        assert (Hi : a = 0 ∨ a = 1 ∨ a = 2 ∨ a = 3 ∨ a = 4) by lia.
        destruct Hi as [->|[->|[->|[->| ->]]]]; by eexists. }
    intros [job|] Hjob; [|by destruct Hjob]. cbv zeta.
    repeat (destruct (String.eqb _ _);
            [act ltac:(by apply acts_rand); apply acts_earn; lia|]).
    act ltac:(by apply acts_rand). apply acts_earn. lia.
  - apply (acts_wait _ (fun last now => MsgWorkAgain _)).
Qed.

Lemma acts_daily : acts W userId (on_daily env userId) (safe W userId replied).
Proof.
  unfold on_daily. act ltac:(by apply acts_canClaim).
  destruct a; cbn [negb].
  - act ltac:(by apply acts_rand). apply acts_earn. lia.
  - apply (acts_wait _ (fun last now => MsgDailyClaimed _)).
Qed.

Lemma acts_weekly : acts W userId (on_weekly env userId) (safe W userId replied).
Proof.
  unfold on_weekly. act ltac:(by apply acts_canClaim).
  destruct a; cbn [negb].
  - act ltac:(by apply acts_rand). apply acts_earn. lia.
  - apply (acts_wait _ (fun last now => MsgWeeklyClaimed _)).
Qed.

Lemma acts_win bet mult txt :
  0 < bet → 0 <= mult →
  acts W userId (db.add env userId (bet * mult) ;; send txt) (safe W userId replied).
Proof. intros Hb Hm. act ltac:(apply acts_add; [done|nia]). sent. Qed.

Lemma acts_lose bet txt :
  0 < bet →
  acts W userId (db.remove env userId bet ;; send txt) (safe W userId replied).
Proof. intros Hb. act ltac:(apply acts_remove; [done|lia]). sent. Qed.

Lemma acts_check bet (k : Check → M (Async Outcome)) :
  (∀ bal, 0 < bet → acts W userId (k (Ok bal)) (safe W userId replied)) →
  (∀ msg, acts W userId (k (NotOk msg)) (safe W userId replied)) →
  acts W userId (await chk := stakeAndCheck userId bet in k chk) (safe W userId replied).
Proof.
  intros Hok Hno. eapply acts_await; [apply acts_stakeAndCheck|].
  intros [msg|bal] H; [apply Hno|by apply Hok].
Qed.

Lemma acts_spin args : acts W userId (on_spin env userId args) (safe W userId replied).
Proof.
  unfold on_spin. apply acts_check; [intros bal Hb|intros msg; sent].
  act ltac:(apply acts_Math_random). cbv zeta.
  repeat destruct (Qltb _ _); cbn [Z.eqb];
    lazymatch goal with
    | |- context [db.remove] => by apply acts_lose
    | |- _ => by apply acts_win
    end.
Qed.

Lemma acts_casino args : acts W userId (on_casino env userId args) (safe W userId replied).
Proof.
  unfold on_casino. apply acts_check; [intros bal Hb|intros msg; sent].
  act ltac:(apply acts_Math_random). cbv zeta.
  repeat destruct (Qltb _ _); lazymatch goal with
    | |- context [db.remove] => by apply acts_lose
    | |- _ => by apply acts_win
    end.
Qed.

Lemma acts_rand_any min max : acts W userId (rand env min max) (fun _ => True).
Proof. intros w _. split; [apply rtc_refl|done]. Qed.

Lemma acts_slots args : acts W userId (on_slots env userId args) (safe W userId replied).
Proof.
  unfold on_slots. apply acts_check; [intros bal Hb|intros msg; sent].
  do 3 act ltac:(apply acts_rand_any). cbv zeta.
  destruct (_ && _).
  - destruct (Symbol_eqb _ _); by apply acts_win.
  - destruct (_ || _); [by apply acts_win|by apply acts_lose].
Qed.

Lemma acts_roulette args : acts W userId (on_roulette env userId args) (safe W userId replied).
Proof.
  unfold on_roulette. apply acts_check; [intros bal Hb|intros msg; sent].
  act ltac:(apply acts_rand_any). cbv zeta.
  destruct (JS.falsy _); [by apply acts_lose|].
  destruct (JS.all_digits _).
  - destruct (match JS.parseInt _ with Some _ => _ | None => _ end);
      [by apply acts_win|by apply acts_lose].
  - destruct (String.eqb _ (wheel_color _)); [|by apply acts_lose].
    destruct (String.eqb _ _); by apply acts_win.
Qed.

Lemma acts_dispatch cmd args :
  (∀ id, (cmd = "give"%string ∨ cmd = "grant"%string) →
         isOwnerId env userId = true → parseUserArg (arg args 0) = Some id → W id) →
  acts W userId (dispatch env userId cmd args) (safe W userId replied).
Proof.
  intros Hrec. unfold dispatch.
  destruct (String.eqb cmd "balance" || String.eqb cmd "bal"); [apply acts_balance|].
  destruct (String.eqb cmd "give" || String.eqb cmd "grant") eqn:Eg.
  { apply acts_give. intros id. apply Hrec.
    apply orb_true_iff in Eg as [E|E]; apply String.eqb_eq in E; auto. }
  repeat match goal with
         | |- context [if ?b then _ else _] => destruct b
         end;
    first [ apply acts_dig_fish | apply acts_work | apply acts_daily | apply acts_weekly
          | apply acts_spin | apply acts_slots | apply acts_roulette
          | apply acts_casino | sent ].
Qed.

End Acts.

(** The first stretch of a call: the sender's account is ensured, and the
    rest of the call is safe. *)
Lemma handler_first_stretch env (W : string → Prop) messageText userId w :
  unit_draws env →
  (∀ id, footprint env messageText userId id → W id) →
  JS.falsy messageText = false → JS.falsy userId = false →
  writes W (users_of (disk w)) (users_of (disk (handler env messageText userId w).2)) ∧
  is_Some (users_of (disk (handler env messageText userId w).2) !! userId) ∧
  safe W userId replied (handler env messageText userId w).1.
Proof.
  intros Hd HW Hm Hu.
  rewrite (handler_first env messageText userId _ _ Hm Hu (surjective_pairing _)).
  cbn [fst snd disk with_disk users_of].
  split; [|split].
  - apply rtc_once. constructor. apply HW. by left.
  - rewrite lookup_touch. by eexists.
  - cbn [safe]. apply acts_dispatch; [done|apply HW; by left|].
    intros id Hcmd Ho Hr. apply HW. right. by repeat split.
Qed.

Lemma handler_empty env messageText userId w :
  JS.falsy messageText = true ∨ JS.falsy userId = true →
  handler env messageText userId w = (Return Silent, w).
Proof.
  intros H. unfold handler.
  assert (JS.falsy messageText || JS.falsy userId = true) as ->
    by (destruct H as [-> | ->]; [done|apply orb_true_r]).
  reflexivity.
Qed.

(** A safe call that nobody interrupts. *)
Fixpoint resume_safe (W : string → Prop) (userId : string) (Phi : Outcome → Prop)
    (t : Async Outcome) (w : World) {struct t} :
  safe W userId Phi t → is_Some (users_of (disk w) !! userId) →
  writes W (users_of (disk w)) (users_of (disk (resume t w).2)) ∧ Phi (resume t w).1.
Proof.
  destruct t as [r|k]; cbn [safe resume].
  - intros Hr _. split; [apply rtc_refl|done].
  - intros Hk Hw. destruct (Hk w Hw) as [H1 H2].
    pose proof (resume_safe W userId Phi (k w).1 (k w).2 H2
                  (writes_present _ _ _ _ H1 Hw)) as [H3 H4].
    destruct (k w) as [t' w']. cbn [fst snd] in *. split; [by etrans|done].
Qed.

(** One message handled alone: the accounts change by writes within the
    footprint of the message, and a message with a text and a sender is
    answered. *)
Lemma handler_alone_writes env messageText userId w :
  unit_draws env →
  let res := complete (handler env messageText userId) w in
  writes (footprint env messageText userId) (users_of (disk w)) (users_of (disk res.2)) ∧
  (JS.falsy messageText = false → JS.falsy userId = false → replied res.1) ∧
  (JS.falsy messageText = true ∨ JS.falsy userId = true → res = (Silent, w)).
Proof.
  intros Hd res. subst res. unfold complete.
  destruct (JS.falsy messageText) eqn:Hm.
  { rewrite handler_empty by (by left). cbn [resume fst snd].
    split; [apply rtc_refl|]. split; [done|done]. }
  destruct (JS.falsy userId) eqn:Hu.
  { rewrite handler_empty by (by right). cbn [resume fst snd].
    split; [apply rtc_refl|]. split; [done|done]. }
  destruct (handler_first_stretch env (footprint env messageText userId)
              messageText userId w Hd (fun _ H => H) Hm Hu) as (H1 & H2 & H3).
  destruct (handler env messageText userId w) as [t w1]. cbn [fst snd] in *.
  destruct (resume_safe _ _ _ t w1 H3 H2) as [H4 H5].
  split; [by etrans|]. split; [done|]. by intros [|].
Qed.

(** ** What follows from the writes *)

Lemma write_frame W users users' id :
  write W users users' → ¬ W id → users' !! id = users !! id.
Proof.
  intros Hw Hn. destruct Hw as [id' us HW|id' a t us HW _|id' a t us HW _|id' k t us HW];
    assert (id' ≠ id) by (by intros ->).
  - unfold touch. destruct (us !! id'); [done|]. by rewrite lookup_insert_ne.
  - by rewrite lookup_insert_ne.
  - by rewrite lookup_insert_ne.
  - by rewrite lookup_insert_ne.
Qed.

Lemma writes_frame W users users' id :
  writes W users users' → ¬ W id → users' !! id = users !! id.
Proof.
  intros Hw Hn. induction Hw as [|us1 us2 us3 H12 _ IH]; [done|].
  by rewrite IH, (write_frame _ _ _ _ H12 Hn).
Qed.

Lemma grows_refl users : grows users users.
Proof. by intros id. Qed.

Lemma grows_trans us1 us2 us3 : grows us1 us2 → grows us2 us3 → grows us1 us3.
Proof.
  intros H12 H23 id. destruct (H12 id) as [H1 H2], (H23 id) as [H3 H4].
  split; [auto|]. by etrans.
Qed.

Lemma grows_touch id users : grows users (touch id users).
Proof.
  intros id'. split.
  - intros [u Hu]. unfold touch. destruct (users !! id) eqn:E; [by eexists|].
    rewrite lookup_insert. case_decide; by eexists.
  - destruct (decide (id = id')) as [<-|Hne]; [by rewrite acct_touch|].
    unfold touch. destruct (users !! id); [done|]. by rewrite acct_insert_ne.
Qed.

Lemma grows_insert id u users :
  history (acct users id) `prefix_of` history u → grows users (<[id := u]> users).
Proof.
  intros Hp id'. split.
  - intros [u' Hu]. rewrite lookup_insert. case_decide; by eexists.
  - destruct (decide (id = id')) as [<-|Hne]; [by rewrite acct_insert|].
    by rewrite acct_insert_ne.
Qed.

Lemma write_grows W users users' : write W users users' → grows users users'.
Proof.
  intros [id us _|id a t us _ _|id a t us _ _|id k t us _].
  - apply grows_touch.
  - apply grows_insert. by apply prefix_app_r.
  - apply grows_insert. by apply prefix_app_r.
  - by apply grows_insert.
Qed.

Lemma writes_grows W users users' : writes W users users' → grows users users'.
Proof.
  induction 1 as [|us1 us2 us3 H12 _ IH]; [apply grows_refl|].
  eapply grows_trans; [by eapply write_grows|done].
Qed.

Lemma write_solvent W users users' :
  write W users users' → Inv solvent users → Inv solvent users'.
Proof.
  intros [id us _|id a t us _ Ha|id a t us _ Ha|id k t us _] HI.
  - by apply (Inv_touch solvent).
  - apply (Inv_insert solvent); [done|]. pose proof (Inv_acct solvent us id HI).
    unfold solvent in *. simpl. lia.
  - apply (Inv_insert solvent); [done|]. unfold solvent. simpl. lia.
  - apply (Inv_insert solvent); [done|]. by apply (Inv_acct solvent).
Qed.

Lemma write_backed W users users' :
  write W users users' → Inv backed users → Inv backed users'.
Proof.
  assert (Hacct : ∀ us id, Inv backed us → backed (acct us id)).
  { intros us id HI. unfold acct. destruct (us !! id) eqn:E; [by eapply HI|].
    unfold backed. simpl. lia. }
  assert (Hins : ∀ us id u, Inv backed us → backed u → Inv backed (<[id := u]> us)).
  { intros us id u HI Hu id' u'. rewrite lookup_insert. case_decide; [|by apply HI].
    by intros [= <-]. }
  intros [id us _|id a t us _ Ha|id a t us _ Ha|id k t us _] HI.
  - unfold touch. destruct (us !! id); [done|]. apply Hins; [done|].
    unfold backed. simpl. lia.
  - apply Hins; [done|]. pose proof (Hacct us id HI) as H.
    unfold backed in *. cbn [posted history gold]. rewrite replay_app. simpl. lia.
  - apply Hins; [done|]. pose proof (Hacct us id HI) as H.
    unfold backed in *. cbn [posted history gold]. rewrite replay_app. simpl. lia.
  - apply Hins; [done|]. by apply Hacct.
Qed.

Lemma writes_solvent_backed W users users' :
  writes W users users' →
  (Inv solvent users → Inv solvent users') ∧ (Inv backed users → Inv backed users').
Proof.
  induction 1 as [|us1 us2 us3 H12 _ [IH1 IH2]]; [done|].
  split; intros H.
  - apply IH1. by eapply write_solvent.
  - apply IH2. by eapply write_backed.
Qed.



(** X14. One message handled alone, with a text and a sender, always ends
    with exactly one reply, never with a [TypeError]; it ends without a reply
    exactly when the text or the sender is empty. *)
Theorem handler_always_replies (env : Env) (messageText userId : string) (w : World) :
  unit_draws env →
  let out := (complete (handler env messageText userId) w).1 in
  (JS.falsy messageText = false → JS.falsy userId = false → ∃ txt, out = Sent txt) ∧
  (out = Silent ↔ JS.falsy messageText = true ∨ JS.falsy userId = true) ∧
  out ≠ Threw.
Proof.
  intros Hd out. subst out.
  pose proof (handler_alone_writes env messageText userId w Hd) as H.
  cbv zeta in H. destruct H as (_ & Hrep & Hsil).
  split; [exact Hrep|].
  assert (Hcases : (JS.falsy messageText = true ∨ JS.falsy userId = true) ∨
                   (JS.falsy messageText = false ∧ JS.falsy userId = false)).
  { destruct (JS.falsy messageText), (JS.falsy userId); auto. }
  destruct Hcases as [He|[Hm Hu]].
  - rewrite (Hsil He). cbn [fst]. by split.
  - destruct (Hrep Hm Hu) as [txt ->]. split; [|done].
    split; [done|]. rewrite Hm, Hu. by intros [|].
Qed.

Lemma handler_always_replies_witness :
  ∃ txt, (complete (handler (sample_env (6 # 10)) ".work" "15550002222") new_world).1
         = Sent txt.
Proof.
  refine (proj1 (handler_always_replies (sample_env (6 # 10)) ".work" "15550002222"
                   new_world _) eq_refl eq_refl).
  apply unit_draws_sample; vm_compute; congruence.
Defined.

Lemma call_grows env c w : grows (users_of (disk w)) (users_of (disk (call env c w).2)).
Proof.
  destruct c; cbn [call]; unfold bind;
    rewrite ?getUser_eq, ?ensureUser_eq, ?add_eq, ?remove_eq, ?setCooldown_eq,
      ?getCooldown_eq, ?canClaim_eq; unfold ret;
    cbn [fst snd disk with_disk ticked users_of].
  - rewrite users_of_created. apply grows_refl.
  - apply grows_touch.
  - apply grows_insert. by apply prefix_app_r.
  - apply grows_insert. by apply prefix_app_r.
  - by apply grows_insert.
  - apply grows_touch.
  - destruct (_ =? 0); cbn [fst snd disk with_disk ticked users_of]; apply grows_touch.
Qed.

(** X15. Histories are append-only and accounts are never removed: after
    every sequence of handled messages and direct store calls, every account
    that existed still exists, and the history it had is the beginning of
    the history it has. *)
Theorem histories_only_grow (env : Env) (ops : list Op) (w : World) :
  unit_draws env →
  ∀ id,
    (is_Some (users_of (disk w) !! id) →
     is_Some (users_of (disk (perform_all env ops w)) !! id)) ∧
    history (acct (users_of (disk w)) id)
      `prefix_of` history (acct (users_of (disk (perform_all env ops w))) id).
Proof.
  intros Hd. change (grows (users_of (disk w)) (users_of (disk (perform_all env ops w)))).
  revert w. induction ops as [|op ops IH]; intros w; [apply grows_refl|].
  cbn [perform_all]. eapply grows_trans; [|apply IH].
  destruct op as [c|messageText userId]; cbn [perform]; [apply call_grows|].
  unfold bind. pose proof (handler_alone_writes env messageText userId w Hd) as H.
  cbv zeta in H. destruct H as [H _].
  destruct (complete (handler env messageText userId) w) as [o w1].
  cbn [fst snd ret] in *. by eapply writes_grows.
Qed.

Lemma histories_only_grow_witness :
  let env := sample_env (3 # 10) in
  let w := (db.add env "15550002222" 300 new_world).2 in
  let w' := perform_all env [Command ".spin 100" "15550002222";
                             Direct (CallRemove "15550002222" 500)] w in
  map change (history (acct (users_of (disk w)) "15550002222")) = [300] ∧
  map change (history (acct (users_of (disk w')) "15550002222")) = [300; -100; -500] ∧
  history (acct (users_of (disk w)) "15550002222")
    `prefix_of` history (acct (users_of (disk w')) "15550002222").
Proof.
  split; [vm_compute; reflexivity|]. split; [vm_compute; reflexivity|].
  refine (proj2 (histories_only_grow (sample_env (3 # 10))
                   [Command ".spin 100" "15550002222";
                    Direct (CallRemove "15550002222" 500)]
                   (db.add (sample_env (3 # 10)) "15550002222" 300 new_world).2 _
                   "15550002222")).
  apply unit_draws_sample; vm_compute; congruence.
Defined.

(** ** Any calls, in any order *)

Lemma thread_ok_writes env (W : string → Prop) users users' c t :
  writes W users users' → thread_ok env W users c t → thread_ok env W users' c t.
Proof.
  intros Hw [H|[H|[H1 H2]]]; [by left|by right; left|].
  right; right. split; [done|]. by eapply writes_present.
Qed.

Lemma pool_resume env (W : string → Prop) msgs j pool w :
  unit_draws env →
  (∀ id, footprints env msgs id → W id) →
  Forall2 (thread_ok env W (users_of (disk w))) msgs pool →
  writes W (users_of (disk w)) (users_of (disk (resume_one j (pool, w)).2)) ∧
  Forall2 (thread_ok env W (users_of (disk (resume_one j (pool, w)).2))) msgs
    (resume_one j (pool, w)).1.
Proof.
  intros Hd HW HF. unfold resume_one. cbn [fst snd].
  destruct (pool !! j) as [[r|k]|] eqn:Ej; cbn [fst snd];
    try (split; [apply rtc_refl|done]).
  destruct (Forall2_lookup_r _ _ _ _ _ HF Ej) as (c & Hc & Hok).
  assert (HWc : ∀ id, footprint env c.1 c.2 id → W id).
  { intros id Hid. apply HW. exists c. split; [|done].
    apply list_elem_of_In. by eapply list_elem_of_lookup_2. }
  assert (Hstep : writes W (users_of (disk w)) (users_of (disk (k w).2)) ∧
                  thread_ok env W (users_of (disk (k w).2)) c (k w).1).
  { destruct Hok as [Heq|[Heq|[Hsafe Hpres]]]; [|done|].
    - injection Heq as ->.
      destruct (JS.falsy c.1) eqn:Hm;
        [rewrite handler_empty by (by left); split; [apply rtc_refl|by right; left]|].
      destruct (JS.falsy c.2) eqn:Hu;
        [rewrite handler_empty by (by right); split; [apply rtc_refl|by right; left]|].
      destruct (handler_first_stretch env W c.1 c.2 w Hd HWc Hm Hu) as (H1 & H2 & H3).
      split; [done|]. right; right. by split.
    - cbn [safe] in Hsafe. destruct (Hsafe w Hpres) as [H1 H2].
      split; [done|]. right; right. split; [done|]. by eapply writes_present. }
  destruct Hstep as [H1 H2]. destruct (k w) as [t w1]. cbn [fst snd] in *.
  split; [done|].
  rewrite <- (list_insert_id msgs j c Hc). apply Forall2_insert; [|done].
  eapply Forall2_impl; [exact HF|]. intros ? ? ?. by eapply thread_ok_writes.
Qed.

Lemma pool_run env (W : string → Prop) msgs sched pool w :
  unit_draws env →
  (∀ id, footprints env msgs id → W id) →
  Forall2 (thread_ok env W (users_of (disk w))) msgs pool →
  writes W (users_of (disk w)) (users_of (disk (interleave sched (pool, w)).2)) ∧
  Forall2 (thread_ok env W (users_of (disk (interleave sched (pool, w)).2))) msgs
    (interleave sched (pool, w)).1.
Proof.
  intros Hd HW. revert pool w. induction sched as [|j sched IH]; intros pool w HF.
  - split; [apply rtc_refl|done].
  - cbn [interleave foldl]. fold (interleave sched (resume_one j (pool, w))).
    destruct (pool_resume env W msgs j pool w Hd HW HF) as [H1 H2].
    destruct (resume_one j (pool, w)) as [pool1 w1]. cbn [fst snd] in *.
    destruct (IH pool1 w1 H2) as [H3 H4]. split; [by etrans|done].
Qed.

Lemma pool_start env (W : string → Prop) users msgs :
  Forall2 (thread_ok env W users) msgs (calls_of env msgs).
Proof.
  induction msgs as [|c msgs IH]; [constructor|].
  cbn [calls_of map]. constructor; [by left|exact IH].
Qed.

Lemma thread_ok_not_threw env W users c t : thread_ok env W users c t → t ≠ Return Threw.
Proof.
  intros [->|[->|[H _]]]; [done|done|]. intros ->. cbn [safe] in H. by destruct H.
Qed.



(** ** Wagers in flight together *)

Lemma wager_not_empty m : In (command_of m).1 wagers → JS.falsy m = false.
Proof.
  destruct m; [|done]. vm_compute. intros [H|[H|[H|[H|[]]]]]; discriminate.
Qed.

Lemma decline_not_lost b msg : is_decline msg = true → lost b msg = false.
Proof. by destruct msg. Qed.

Lemma finished_lose env id bet txt w :
  lost bet txt = true →
  finished env id bet w ((db.remove env id bet ;; send txt) w).
Proof.
  intros Hl. unfold bind. rewrite remove_eq. exists txt. split; [done|]. left. by split.
Qed.

Lemma finished_win env id bet win txt w :
  lost bet txt = false → 0 <= win →
  finished env id bet w ((db.add env id win ;; send txt) w).
Proof.
  intros Hl Hw. unfold bind. rewrite add_eq. exists txt. split; [done|]. right.
  split; [done|]. by exists win.
Qed.

(** Drawing does not change the account or the clock. *)
Lemma finished_drawn env id bet w res :
  finished env id bet (drawn w) res → finished env id bet w res.
Proof. done. Qed.

Ltac finish :=
  lazymatch goal with
  | |- context [db.remove] => apply finished_lose; cbn [lost]; apply Z.eqb_refl
  | |- _ => apply finished_win; [reflexivity|lia]
  end.

(** The four wagers end alike: after a passed check over a positive bet one
    stretch returns, having debited the lost bet or credited the win. *)
Lemma wager_finishes env cmd id args :
  In cmd wagers →
  ∃ k : Check → M (Async Outcome),
    dispatch env id cmd args
    = (await chk := stakeAndCheck id (parseBet (arg args 0)) in k chk) ∧
    (∀ msg, k (NotOk msg) = send msg) ∧
    (∀ bal w, 0 < parseBet (arg args 0) →
              finished env id (parseBet (arg args 0)) w (k (Ok bal) w)).
Proof.
  intros Hin. simpl in Hin.
  destruct Hin as [<-|[<-|[<-|[<-|[]]]]]; eexists; (split; [reflexivity|]);
    (split; [reflexivity|]); intros bal w Hpos; cbv beta iota zeta;
    set (bet := parseBet (arg args 0)) in *; clearbody bet.
  - unfold bind at 1. cbn [Math_random]. apply finished_drawn.
    repeat destruct (Qltb _ _); simpl; finish.
  - unfold bind at 1. cbn [rand Math_random bind ret]. do 3 apply finished_drawn.
    destruct (_ && _).
    + destruct (Symbol_eqb _ (Some Seven)); finish.
    + destruct (_ || _); finish.
  - unfold bind at 1. cbn [rand Math_random bind ret]. apply finished_drawn.
    destruct (JS.falsy _); [finish|].
    destruct (JS.all_digits _).
    + destruct (match JS.parseInt _ with Some _ => _ | None => _ end); finish.
    + destruct (String.eqb _ (wheel_color _)); [|finish].
      destruct (String.eqb _ _); finish.
  - unfold bind at 1. cbn [Math_random]. apply finished_drawn.
    repeat destruct (Qltb _ _); simpl; finish.
Qed.

Lemma total_insert info j d n d' n' :
  info !! j = Some (d, n) → total (<[j := (d', n')]> info) = total info - d + d'.
Proof.
  revert j. induction info as [|x info IH]; intros [|j] H; simpl in *; try done.
  - injection H as ->. simpl. lia.
  - rewrite (IH j H). lia.
Qed.

Lemma total_start {A} (l : list A) : total (map (fun _ => (0, 0%nat)) l) = 0.
Proof. induction l as [|a l IH]; simpl; [done|]. by rewrite IH. Qed.

Lemma phases_start {A} (l : list A) :
  (map (fun _ => (0, 0%nat)) l).*2 = replicate (length l) 0%nat.
Proof. induction l as [|a l IH]; simpl; [done|]. f_equal. exact IH. Qed.

Section Together.

Variable env : Env.
Variable userId : string.
Variables (b B : Z) (N : nat).
Hypothesis Hu : JS.falsy userId = false.
Hypothesis HB : Z.of_nat N * b <= B.

Local Abbreviation stage := (stage env userId b).
Local Abbreviation tally := (tally env userId b B N).

(** One call moves on by one stretch. *)
Lemma tally_step j info pool w d n t' w' d' :
  tally info (pool, w) → info !! j = Some (d, n) →
  stage d' (Nat.min 3 (S n)) t' →
  gold (acct (users_of (disk w')) userId)
  = gold (acct (users_of (disk w)) userId) - d + d' →
  (0 < b → - b * (if Nat.eqb (Nat.min 3 (S n)) 3 then 1 else 0) <= d' - d) →
  (n < 3)%nat →
  ∃ info', tally info' (<[j := t']> pool, w') ∧ info'.*2 = advance j info.*2.
Proof.
  intros (HF & Hlen & Hg & Hbound) En Hst Hgold Hd Hn. cbn [fst snd] in *.
  exists (<[j := (d', Nat.min 3 (S n))]> info).
  assert (En2 : info.*2 !! j = Some n) by (by rewrite list_lookup_fmap, En).
  split; [split; [|split; [|split]]|]; cbn [fst snd].
  - by apply Forall2_insert.
  - by rewrite length_insert.
  - rewrite Hgold, Hg, (total_insert _ _ _ _ _ _ En). lia.
  - intros Hb. specialize (Hbound Hb). specialize (Hd Hb).
    rewrite list_fmap_insert. cbn [snd].
    rewrite (done_count_insert _ _ _ _ En2), (total_insert _ _ _ _ _ _ En).
    destruct (Nat.eqb_spec n 3); [lia|].
    destruct (Nat.eqb (Nat.min 3 (S n)) 3); nia.
  - rewrite list_fmap_insert. cbn [snd]. unfold advance. by rewrite En2.
Qed.

Lemma tally_resume j info st :
  tally info st →
  ∃ info', tally info' (resume_one j st) ∧ info'.*2 = advance j info.*2.
Proof.
  destruct st as [pool w]. intros Ht. pose proof Ht as (HF & Hlen & Hg & Hbound).
  cbn [fst snd] in *. unfold resume_one. cbn [fst snd].
  destruct (info !! j) as [[d n]|] eqn:En.
  - destruct (Forall2_lookup_l _ _ _ _ _ HF En) as (t & Hpj & Hst). rewrite Hpj.
    cbn [fst snd] in Hst.
    assert (En2 : info.*2 !! j = Some n) by (by rewrite list_lookup_fmap, En).
    inversion Hst as [m Hin Hbet|cmd args Hin Hbet|msg Hl|k Hb Hfin|txt Hb Hl|txt win Hl Hwin];
      try subst d; try subst n; try subst t.
    + rewrite (handler_first env m userId _ _ (wager_not_empty _ Hin) Hu
                 (surjective_pairing _)).
      eapply tally_step; [exact Ht|exact En| |cbn [disk with_disk users_of]|simpl|lia].
      * by apply stage_ensured.
      * rewrite acct_touch. lia.
      * lia.
    + destruct (wager_finishes env cmd userId args Hin) as (k & -> & Hno & Hok).
      rewrite Hbet in Hok |- *. unfold bind. rewrite stakeAndCheck_eq. cbn [ret].
      eapply tally_step; [exact Ht|exact En| |cbn [disk with_disk users_of]|simpl|lia].
      * destruct (_ <=? 0) eqn:E0; [rewrite Hno; by apply stage_refused|].
        destruct (_ <? _); [rewrite Hno; by apply stage_refused|].
        apply stage_accepted; [lia|]. intros w1. apply Hok. lia.
      * rewrite users_of_created. lia.
      * lia.
    + unfold send, ret.
      eapply tally_step; [exact Ht|exact En| | |simpl|lia].
      * by apply stage_won.
      * lia.
      * lia.
    + destruct (Hfin w) as (txt & Hres & Hcase).
      destruct (k w) as [t1 w1]. cbn [fst snd] in *. subst t1.
      pose proof (done_count_pending _ _ _ En2 ltac:(lia)) as Hp.
      rewrite length_fmap, Hlen in Hp. specialize (Hbound Hb).
      destruct Hcase as [[Hl Hw]|[Hl (win & Hwin & Hw)]];
        (eapply tally_step; [exact Ht|exact En| |rewrite Hw, acct_insert; cbn [posted gold]|
                             simpl|lia]).
      * by apply stage_lost.
      * nia.
      * lia.
      * by apply stage_won.
      * lia.
      * lia.
    + exists info. split; [done|]. unfold advance. rewrite En2.
      by rewrite list_insert_id.
    + exists info. split; [done|]. unfold advance. rewrite En2.
      by rewrite list_insert_id.
  - assert (pool !! j = None) as ->.
    { apply lookup_ge_None. rewrite <- (Forall2_length _ _ _ HF). by apply lookup_ge_None. }
    exists info. split; [done|]. unfold advance.
    by rewrite list_lookup_fmap, En.
Qed.

Lemma tally_interleave sched info st :
  tally info st →
  ∃ info', tally info' (interleave sched st) ∧
           info'.*2 = foldl (fun phs i => advance i phs) info.*2 sched.
Proof.
  revert info st. induction sched as [|j sched IH]; intros info st H; [by exists info|].
  destruct (tally_resume j info st H) as (info1 & H1 & E1).
  destruct (IH info1 _ H1) as (info2 & H2 & E2).
  exists info2. split; [exact H2|]. rewrite E2, E1. reflexivity.
Qed.

Lemma tally_start msgs w :
  Forall (fun m => In (command_of m).1 wagers ∧ parseBet (arg (command_of m).2 0) = b) msgs →
  length msgs = N →
  gold (acct (users_of (disk w)) userId) = B →
  tally (map (fun _ => (0, 0%nat)) msgs) (calls_of env (map (fun m => (m, userId)) msgs), w).
Proof.
  intros Hall Hlen Hg. split; [|split; [|split]]; cbn [fst snd].
  - clear Hlen. induction Hall as [|m msgs [H1 H2] _ IH]; [constructor|].
    cbn [map calls_of]. constructor; [|exact IH]. by apply stage_called.
  - by rewrite length_map.
  - rewrite total_start. lia.
  - intros _. rewrite total_start, phases_start, done_count_replicate. lia.
Qed.

Lemma lost_total info pool :
  Forall2 (fun x t => stage x.1 x.2 t) info pool →
  forallb (lost_call b) pool = true →
  total info = - (Z.of_nat (length info) * b).
Proof.
  induction 1 as [|[d n] t info pool Hst _ IH]; [done|].
  cbn [forallb]. rewrite andb_true_iff. intros [Ht Hr]. specialize (IH Hr).
  cbn [total fold_right length fst] in *. fold (total info). rewrite IH.
  destruct Hst; cbn [lost_call] in Ht; try done; [lia|congruence].
Qed.

Lemma phases_returned info pool :
  Forall2 (fun x t => stage x.1 x.2 t) info pool →
  Forall (fun n => n = 3%nat) info.*2 → all_returned pool = true.
Proof.
  induction 1 as [|[d n] t info pool Hst _ IH]; [done|].
  cbn [fmap list_fmap snd]. intros Hall. apply Forall_cons in Hall as [-> Hall].
  cbn [all_returned forallb]. rewrite andb_true_iff. split; [|by apply IH].
  by inversion Hst.
Qed.

(** The balance when every call has lost, and the schedules that let every
    call return. *)
Lemma together_lose msgs sched w :
  Forall (fun m => In (command_of m).1 wagers ∧ parseBet (arg (command_of m).2 0) = b) msgs →
  length msgs = N →
  gold (acct (users_of (disk w)) userId) = B →
  let st := interleave sched (calls_of env (map (fun m => (m, userId)) msgs), w) in
  (forallb (lost_call b) st.1 = true →
     gold (acct (users_of (disk st.2)) userId) = B - Z.of_nat N * b) ∧
  ((∀ i, (i < N)%nat → (3 <= count_occ Nat.eq_dec sched i)%nat) →
     all_returned st.1 = true).
Proof.
  intros Hall Hlen Hg st.
  destruct (tally_interleave sched _ _ (tally_start msgs w Hall Hlen Hg))
    as (info & (HF & Hlen' & Hgold & _) & Hph).
  fold st in HF, Hgold. split.
  - intros Hlost. rewrite Hgold, (lost_total _ _ HF Hlost), Hlen'. lia.
  - intros Hfair. apply (phases_returned _ _ HF). rewrite Hph, phases_start, Hlen.
    apply Forall_lookup. intros i n Hi.
    rewrite phases_lookup in Hi.
    + assert (Hlt : (i < N)%nat).
      { destruct (replicate N 0%nat !! i) eqn:E; [|done].
        apply lookup_lt_Some in E. by rewrite length_replicate in E. }
      rewrite lookup_replicate_2 in Hi by done.
      cbn [fmap option_fmap option_map] in Hi. apply (inj Some) in Hi. subst n.
      specialize (Hfair i Hlt). lia.
    + intros m Hm'. apply lookup_replicate in Hm' as [-> _]. lia.
Qed.

End Together.

Lemma acct_touch_any id id' users : acct (touch id users) id' = acct users id'.
Proof.
  destruct (decide (id' = id)) as [->|Hne]; [apply acct_touch|].
  unfold touch. destruct (users !! id); [done|]. by rewrite acct_insert_ne.
Qed.

Lemma continues_refl users : continues users users.
Proof. intros id. exists []. by rewrite app_nil_r. Qed.

Lemma continues_same users users' :
  (∀ id, history (acct users' id) = history (acct users id) ∧
         gold (acct users' id) = gold (acct users id)) →
  continues users users'.
Proof. intros H id. exists []. destruct (H id) as [-> ->]. by rewrite app_nil_r. Qed.

Lemma continues_trans users1 users2 users3 :
  continues users1 users2 → continues users2 users3 → continues users1 users3.
Proof.
  intros H12 H23 id. destruct (H12 id) as (n1 & Hh1 & Hg1).
  destruct (H23 id) as (n2 & Hh2 & Hg2). exists (n1 ++ n2).
  rewrite Hh2, Hh1, Hg2, Hg1, fold_left_app. by rewrite app_assoc.
Qed.

Lemma continues_posted users id g now c :
  g = settle (gold (acct users id)) {| time := now; change := c |} →
  continues users (<[id := posted (acct users id) g now c]> users).
Proof.
  intros Hg id'. destruct (decide (id' = id)) as [->|Hne].
  - exists [{| time := now; change := c |}]. rewrite acct_insert. by split.
  - exists []. rewrite acct_insert_ne by done. by rewrite app_nil_r.
Qed.

(** One write continues the accounts, where no balance is negative. *)
Lemma write_continues W users users' :
  write W users users' → Inv solvent users → continues users users'.
Proof.
  intros Hw Hs. destruct Hw as [id users _|id amount now users _ Ha|id amount now users _ Ha
                               |id key timestamp users _].
  - apply continues_same. intros id'. by rewrite acct_touch_any.
  - apply continues_posted. unfold settle. cbn [change].
    destruct (amount <? 0) eqn:E; [lia|done].
  - apply continues_posted. unfold settle. cbn [change].
    pose proof (Inv_acct solvent users id Hs) as Hg. unfold solvent in Hg.
    destruct (- amount <? 0) eqn:E; [f_equal; lia|lia].
  - apply continues_same. intros id'. destruct (decide (id' = id)) as [->|Hne].
    + by rewrite acct_insert.
    + by rewrite acct_insert_ne.
Qed.

Lemma writes_continues W users users' :
  writes W users users' → Inv solvent users → continues users users'.
Proof.
  induction 1 as [|us1 us2 us3 H12 H23 IH]; intros Hs; [apply continues_refl|].
  eapply continues_trans; [by eapply write_continues|].
  apply IH. destruct (writes_solvent_backed W us1 us2) as [H _]; [by apply rtc_once|].
  by apply H.
Qed.





(** ** Two wagers on the same funds *)

Lemma one_draw_wager_parts env id cmd args :
  In cmd one_draw_wagers →
  (∀ n, (random env n * 100 < 45)%Q) →
  ∃ (k : Check → M (Async Outcome)) (txt : Reply),
    dispatch env id cmd args
    = (await chk := stakeAndCheck id (parseBet (arg args 0)) in k chk) ∧
    (∀ msg, k (NotOk msg) = send msg) ∧
    (∀ bal w, k (Ok bal) w
              = (Return (Sent txt), (db.remove env id (parseBet (arg args 0)) (drawn w)).2)) ∧
    is_decline txt = false.
Proof.
  intros Hin Hlow. simpl in Hin.
  destruct Hin as [<-|[<-|[]]]; eexists _, _; (split; [reflexivity|]);
    (split; [reflexivity|]); split.
  - intros bal w. cbv beta iota zeta; unfold bind at 1; cbn [Math_random].
    assert (Qltb (JS.times (draw env (draws w)) 100) 50 = true) as ->.
    { apply Qltb_true. apply draw_below_50. specialize (Hlow (draws w)). lra. }
    cbn [Z.eqb]. unfold bind, send, ret. fold (drawn w).
    by destruct (db.remove env id _ (drawn w)).
  - reflexivity.
  - intros bal w. cbv beta iota zeta; unfold bind at 1; cbn [Math_random].
    assert (Qltb (JS.times (draw env (draws w)) 100) 45 = true) as ->.
    { apply Qltb_true. apply draw_below_45. apply Hlow. }
    unfold bind, send, ret. fold (drawn w).
    by destruct (db.remove env id _ (drawn w)).
  - reflexivity.
Qed.

Lemma resume_first (k : M (Async Outcome)) t1 w :
  resume_one 0 ([Suspend k; t1], w) = ([(k w).1; t1], (k w).2).
Proof. unfold resume_one. cbn. by destruct (k w). Qed.

Lemma resume_second t0 (k : M (Async Outcome)) w :
  resume_one 1 ([t0; Suspend k], w) = ([t0; (k w).1], (k w).2).
Proof. unfold resume_one. cbn. by destruct (k w). Qed.

Lemma interleave_cons {R} j sched (st : list (Async R) * World) :
  interleave (j :: sched) st = interleave sched (resume_one j st).
Proof. reflexivity. Qed.

Section Overdraw.

Variable env : Env.
Variables (messageText userId cmd : string) (args : list string).
Variables (b B : Z).
Variable k : Check → M (Async Outcome).
Variable txt : Reply.
Hypothesis Hm : JS.falsy messageText = false.
Hypothesis Hu : JS.falsy userId = false.
Hypothesis Hc : command_of messageText = (cmd, args).
Hypothesis Hk :
  dispatch env userId cmd args = (await chk := stakeAndCheck userId b in k chk).
Hypothesis Hno : ∀ msg, k (NotOk msg) = send msg.
Hypothesis Hlose :
  ∀ bal w, k (Ok bal) w = (Return (Sent txt), (db.remove env userId b (drawn w)).2).
Hypothesis Hb : 0 < b.

(** The three stretches of one such call. *)
Lemma stretch_ensure w :
  handler env messageText userId w
  = (Suspend (dispatch env userId cmd args),
     with_disk (Stored (touch userId (users_of (disk w)))) w).
Proof. by apply handler_first. Qed.

Lemma stretch_check w :
  dispatch env userId cmd args w
  = (Suspend (k (if gold (acct (users_of (disk w)) userId) <? b
                 then NotOk (MsgInsufficient (gold (acct (users_of (disk w)) userId)))
                 else Ok (gold (acct (users_of (disk w)) userId)))),
     with_disk (created (disk w)) w).
Proof.
  rewrite Hk. unfold bind. rewrite stakeAndCheck_eq.
  destruct (b <=? 0) eqn:E; [lia|]. reflexivity.
Qed.

Lemma stretch_settle bal w :
  users_of (disk (k (Ok bal) w).2)
  = <[userId := posted (acct (users_of (disk w)) userId)
                  (Z.max 0 (gold (acct (users_of (disk w)) userId) - b))
                  (clock env (ticks w)) (- b)]> (users_of (disk w)) ∧
  (k (Ok bal) w).1 = Return (Sent txt).
Proof. rewrite Hlose, remove_eq. done. Qed.

(** Both calls check before either settles. *)
Lemma overdraw_alternating w :
  b <= gold (acct (users_of (disk w)) userId) →
  let u := acct (users_of (disk w)) userId in
  let st := interleave [0; 1; 0; 1; 0; 1]%nat
              (calls_of env [(messageText, userId); (messageText, userId)], w) in
  st.1 = [Return (Sent txt); Return (Sent txt)] ∧
  gold (acct (users_of (disk st.2)) userId) = Z.max 0 (Z.max 0 (gold u - b) - b) ∧
  map change (history (acct (users_of (disk st.2)) userId))
  = map change (history u) ++ [- b; - b].
Proof.
  intros Hle u st. subst st. cbn [calls_of map fst snd]. unfold called.
  rewrite interleave_cons, resume_first, stretch_ensure. cbn [fst snd].
  rewrite interleave_cons, resume_second, stretch_ensure. cbn [fst snd].
  rewrite interleave_cons, resume_first, stretch_check. cbn [fst snd].
  rewrite interleave_cons, resume_second, stretch_check. cbn [fst snd].
  cbn [disk with_disk created users_of]. rewrite !acct_touch. fold u.
  assert ((gold u <? b) = false) as -> by (apply Z.ltb_ge; exact Hle).
  match goal with
  | |- context [interleave _ (_, ?w0)] => set (w4 := w0)
  end.
  rewrite interleave_cons, resume_first.
  destruct (stretch_settle (gold u) w4) as [Hs1 Hr1]. rewrite Hr1.
  rewrite interleave_cons, resume_second.
  destruct (stretch_settle (gold u) (k (Ok (gold u)) w4).2) as [Hs2 Hr2].
  rewrite Hr2. cbn [interleave foldl fst snd]. rewrite Hs2, Hs1. subst w4.
  cbn [disk with_disk users_of]. rewrite !acct_insert, !acct_touch. fold u.
  cbn [posted gold history]. split; [done|]. split; [done|].
  rewrite !map_app. cbn [map change]. by rewrite <- app_assoc.
Qed.

(** The first call returns before the second starts. *)
Lemma overdraw_serial w :
  b <= gold (acct (users_of (disk w)) userId) → gold (acct (users_of (disk w)) userId) < 2 * b →
  let u := acct (users_of (disk w)) userId in
  let st := interleave [0; 0; 0; 1; 1; 1]%nat
              (calls_of env [(messageText, userId); (messageText, userId)], w) in
  st.1 = [Return (Sent txt); Return (Sent (MsgInsufficient (gold u - b)))] ∧
  gold (acct (users_of (disk st.2)) userId) = gold u - b ∧
  map change (history (acct (users_of (disk st.2)) userId))
  = map change (history u) ++ [- b].
Proof.
  intros Hle Hlt u st. subst st. cbn [calls_of map fst snd]. unfold called.
  rewrite interleave_cons, resume_first, stretch_ensure. cbn [fst snd].
  rewrite interleave_cons, resume_first, stretch_check. cbn [fst snd].
  cbn [disk with_disk created users_of]. rewrite !acct_touch. fold u.
  assert ((gold u <? b) = false) as -> by (apply Z.ltb_ge; exact Hle).
  match goal with
  | |- context [interleave _ (_, ?w0)] => set (w3 := w0)
  end.
  rewrite interleave_cons, resume_first.
  destruct (stretch_settle (gold u) w3) as [Hs1 Hr1]. rewrite Hr1.
  rewrite interleave_cons, resume_second, stretch_ensure. cbn [fst snd].
  rewrite interleave_cons, resume_second, stretch_check. cbn [fst snd].
  cbn [disk with_disk created users_of]. rewrite Hs1. subst w3.
  cbn [disk with_disk users_of].
  repeat (rewrite ?acct_touch, ?acct_insert). fold u. cbn [posted gold].
  assert ((Z.max 0 (gold u - b) <? b) = true) as -> by (apply Z.ltb_lt; subst u; lia).
  rewrite interleave_cons, resume_second, Hno. cbn [send ret fst snd interleave foldl].
  cbn [disk with_disk created users_of].
  repeat (rewrite ?acct_touch, ?acct_insert). fold u. cbn [posted gold history].
  split; [repeat f_equal; subst u; lia|]. split; [subst u; lia|].
  rewrite map_app. reflexivity.
Qed.

End Overdraw.



(** ** The rewards of the earning commands *)

Section Rewards.

Variable env : Env.
Hypothesis draws_ok : unit_draws env.

Lemma paid_rand id key min max (txt : Z → Reply) users w :
  users_of (disk w) = touch id users → min <= max →
  ∃ reward, min <= reward <= max ∧
    paid env id key users
      (complete (let* reward := rand env min max in
                 db.add env id reward ;;
                 let* now := Date_now env in
                 db.setCooldown id key now ;;
                 send (txt reward)) w)
      reward (txt reward).
Proof.
  intros Hw Hm. rewrite complete_bind_eq.
  exists (rand env min max w).1. split.
  - cbn [rand bind Math_random ret fst snd].
    destruct (draws_ok (draws w)) as [H0 H1].
    pose proof (floor_range env (draws w) (max - min + 1) H0 H1) as H. lia.
  - unfold paid. rewrite earn_eq. split; [done|].
    exists (ticks (rand env min max w).2), (S (ticks (rand env min max w).2)).
    cbn [fst snd ticked with_disk disk users_of rand bind Math_random ret drawn].
    by rewrite Hw, acct_touch, insert_touch.
Qed.

Lemma gate_granted id key P unit (fwait : Z → Reply) (pay : M (Async Outcome)) w
    (Q : Outcome * World → Prop) :
  let users := users_of (disk w) in
  let t0 := default 0 (cooldowns (acct users id) !! key) in
  t0 = 0 ∨ P <= clock env (ticks w) - t0 →
  (∀ w2, users_of (disk w2) = touch id users → Q (complete pay w2)) →
  Q (complete
       (let* ok := db.canClaim env id key P in
        if negb ok then
          let* last := db.getCooldown id key in
          let* now := Date_now env in
          send (fwait (JS.ceil_div (P - (now - last)) unit))
        else pay)
       (with_disk (Stored (touch id users)) w)).
Proof.
  cbv zeta. intros Hcase Hpay. rewrite gate_eq.
  set (t0 := default 0 (cooldowns (acct (users_of (disk w)) id) !! key)) in *.
  destruct (t0 =? 0) eqn:E0; [by apply Hpay|].
  destruct Hcase as [?|Hle]; [lia|].
  apply Z.leb_le in Hle. rewrite Hle. by apply Hpay.
Qed.

Lemma paid_work id args users w :
  users_of (disk w) = touch id users →
  ∃ job reward,
    (if missing (arg args 0) then In job jobs else arg args 0 = Some job) ∧
    (pay_range (JS.toLowerCase job)).1 <= reward <= (pay_range (JS.toLowerCase job)).2 ∧
    paid env id "work" users
      (complete
         (let* job :=
            if missing (arg args 0)
            then (let* i := rand env 0 (Z.of_nat (length jobs) - 1) in
                  ret (index jobs i))
            else ret (arg args 0) in
          match job with
          | None => ret (Return Threw)
          | Some job =>
              let job' := JS.toLowerCase job in
              let* reward :=
                if String.eqb job' "developer" then rand env 150 350
                else if String.eqb job' "miner" then rand env 100 300
                else if String.eqb job' "chef" then rand env 60 200
                else if String.eqb job' "driver" then rand env 50 180
                else if String.eqb job' "artist" then rand env 40 150
                else rand env 50 200 in
              db.add env id reward ;;
              let* now := Date_now env in
              db.setCooldown id "work" now ;;
              send (MsgWorked job reward)
          end) w)
      reward (MsgWorked job reward).
Proof.
  intros Hw. rewrite complete_bind_eq.
  assert (∃ job w', users_of (disk w') = touch id users ∧
            (if missing (arg args 0) then In job jobs else arg args 0 = Some job) ∧
            ((if missing (arg args 0)
              then (let* i := rand env 0 (Z.of_nat (length jobs) - 1) in
                    ret (index jobs i))
              else ret (arg args 0)) w) = (Some job, w')) as (job & w' & Hw' & Hjob & ->).
  { assert (∃ job, In job jobs ∧
              (let* i := rand env 0 (Z.of_nat (length jobs) - 1) in ret (index jobs i)) w
              = (Some job, drawn w)) as (job & Hin & Heq).
    { destruct (draws_ok (draws w)) as [H0 H1].
      pose proof (floor_range env (draws w) 5 H0 H1 eq_refl) as H.
      unfold rand, Math_random, bind, ret. cbv beta iota.
      change (Z.of_nat (length jobs) - 1 - 0 + 1) with 5.
      set (i := Qfloor (JS.times (draw env (draws w)) (inject_Z 5))) in *. rewrite Z.add_0_r.
      assert (Hi : i = 0 ∨ i = 1 ∨ i = 2 ∨ i = 3 ∨ i = 4) by lia.
      destruct Hi as [->|[->|[->|[->| ->]]]]; eexists; (split; [|reflexivity]);
        cbn; tauto. }
    destruct (missing (arg args 0)) eqn:Em.
    - exists job, (drawn w). by rewrite Heq.
    - destruct (arg args 0) as [a|] eqn:Ea; [|done].
      by exists a, w. }
  cbn [fst snd]. cbv zeta. unfold pay_range.
  exists job.
  repeat match goal with
         | |- context [String.eqb ?a ?b] => destruct (String.eqb a b)
         end;
    match goal with
    | |- context [rand env ?lo ?hi] =>
        destruct (paid_rand id "work" lo hi (fun r => MsgWorked job r) users w' Hw')
          as (reward & Hr & Hp); [lia|]
    end;
    exists reward; (split; [exact Hjob|]); (split; [exact Hr|exact Hp]).
Qed.

End Rewards.




